(** * nanLanguage: a shallow embedding of the interpreter and its properties

    The development follows [nanLanguage.cpp]:
    - [std::string] is a list of characters ([text]);
    - [double] is IEEE-754 binary64, given by [spec_float] with
      [prec = 53] and [emax = 1024];
    - the variable table [std::map<std::string,double>] is a [gmap];
    - [std::cout] is the list of the lines written so far;
    - an exception is the [Throw] result, carrying [what()];
    - what the standard leaves to the implementation is a field of
      [platform]: the functions of [<cmath>], and the order in which an
      assignment evaluates its operands;
    - a cursor [(s, pos)] of the expression parser is the unread suffix
      [s.substr(pos)]. *)

From Stdlib Require Import List Ascii String ZArith NArith Lia Bool.
From Stdlib Require Import Floats.SpecFloat.
From Stdlib Require Import Numbers.DecimalString.
From Stdlib Require Numbers.DecimalPos.
From stdpp Require Import gmap strings.
Import ListNotations.

Set Default Proof Using "Type".
Local Open Scope Z_scope.

(** ** Text *)

Abbreviation text := (list ascii).

Definition text_of_bytes (l : list Byte.byte) : text := List.map ascii_of_byte l.
Definition bytes_of_text (l : text) : list Byte.byte := List.map byte_of_ascii l.

Declare Scope text_scope.
Delimit Scope text_scope with text.
String Notation text text_of_bytes bytes_of_text : text_scope.
Local Open Scope text_scope.

Definition nl : ascii := "010"%char.
Definition dquote : ascii := "034"%char.
Definition nul : ascii := "000"%char.

(** [<cctype>] in the "C" locale. *)
Definition isspace (c : ascii) : bool :=
  let n := N_of_ascii c in ((n =? 32) || ((9 <=? n) && (n <=? 13)))%N.

Definition isdigit (c : ascii) : bool :=
  let n := N_of_ascii c in ((48 <=? n) && (n <=? 57))%N.

Definition isalpha (c : ascii) : bool :=
  let n := N_of_ascii c in
  (((65 <=? n) && (n <=? 90)) || ((97 <=? n) && (n <=? 122)))%N.

Definition isalnum (c : ascii) : bool := isalpha c || isdigit c.

Fixpoint take_while (p : ascii -> bool) (s : text) : text :=
  match s with
  | c :: s' => if p c then c :: take_while p s' else []
  | [] => []
  end.

Fixpoint drop_while (p : ascii -> bool) (s : text) : text :=
  match s with
  | c :: s' => if p c then drop_while p s' else s
  | [] => []
  end.

Fixpoint starts_with (t s : text) : bool :=
  match t, s with
  | [], _ => true
  | a :: t', b :: s' => Ascii.eqb a b && starts_with t' s'
  | _ :: _, [] => false
  end.

Fixpoint text_eqb (a b : text) : bool :=
  match a, b with
  | [], [] => true
  | x :: a', y :: b' => Ascii.eqb x y && text_eqb a' b'
  | _, _ => false
  end.

Definition is_empty (s : text) : bool :=
  match s with [] => true | _ => false end.

(** *** Trimming *)

Definition ltrim (s : text) : text := drop_while isspace s.

Definition rtrim (s : text) : text := rev (drop_while isspace (rev s)).

Definition trim (s : text) : text := rtrim (ltrim s).

(** *** Streams

    A [std::istringstream] is the text that is still unread.  [getline]
    fails on an exhausted stream; otherwise it hands over the characters
    before the next newline and consumes that newline. *)

Fixpoint read_line (s : text) : text * text :=
  match s with
  | [] => ([], [])
  | c :: s' =>
      if Ascii.eqb c nl then ([], s')
      else let '(l, r) := read_line s' in (c :: l, r)
  end.

Definition getline (stream : text) : option (text * text) :=
  match stream with
  | [] => None
  | _ => Some (read_line stream)
  end.

(** [getline(ss, rest)] into a fresh string: a failed read leaves it empty. *)
Definition getline_or_empty (stream : text) : text :=
  match getline stream with
  | Some (l, _) => l
  | None => []
  end.

(** [ss >> token]: skip white space, then read up to the next white space.
    A failed extraction leaves the (fresh) token empty and the stream
    exhausted. *)
Definition extract (stream : text) : text * text :=
  let s := drop_while isspace stream in
  (take_while (fun c => negb (isspace c)) s,
   drop_while (fun c => negb (isspace c)) s).

(** ** Numbers: binary64 *)

Abbreviation double := spec_float.

Definition prec64 : Z := 53.
Definition emax64 : Z := 1024.

Definition d_zero : double := S754_zero false.
Definition d_one : double := S754_finite false 4503599627370496 (-52).

Definition dadd : double -> double -> double := SFadd prec64 emax64.
Definition dsub : double -> double -> double := SFsub prec64 emax64.
Definition dmul : double -> double -> double := SFmul prec64 emax64.
Definition ddiv : double -> double -> double := SFdiv prec64 emax64.
Definition dsqrt : double -> double := SFsqrt prec64 emax64.
Definition dneg : double -> double := SFopp.
Definition dabs : double -> double := SFabs.

Definition deq (a b : double) : bool := SFeqb a b.
Definition dne (a b : double) : bool := negb (SFeqb a b).
Definition dlt (a b : double) : bool := SFltb a b.
Definition dle (a b : double) : bool := SFleb a b.
Definition dgt (a b : double) : bool := SFltb b a.
Definition dge (a b : double) : bool := SFleb b a.

(** The double nearest to an integer [n * 2^e]; [szero] signs a zero result. *)
Definition d_of_Z2 (n e : Z) (szero : bool) : double :=
  binary_normalize prec64 emax64 n e szero.

Definition bool_to_double (b : bool) : double := if b then d_one else d_zero.

(** Integer part and remainder of [m * 2^e] for [e < 0]. *)
Definition split_mantissa (m : positive) (e : Z) : Z * Z :=
  (Z.shiftr (Zpos m) (- e), Z.land (Zpos m) (Z.ones (- e))).

(** [std::floor], [std::ceil], [std::round] (halves away from zero). *)
Definition dfloor (v : double) : double :=
  match v with
  | S754_finite s m e =>
      if 0 <=? e then v
      else
        let '(q, r) := split_mantissa m e in
        if s then d_of_Z2 (- (if r =? 0 then q else q + 1)) 0 true
        else d_of_Z2 q 0 false
  | _ => v
  end.

Definition dceil (v : double) : double :=
  match v with
  | S754_finite s m e =>
      if 0 <=? e then v
      else
        let '(q, r) := split_mantissa m e in
        if s then d_of_Z2 (- q) 0 true
        else d_of_Z2 (if r =? 0 then q else q + 1) 0 false
  | _ => v
  end.

Definition dround (v : double) : double :=
  match v with
  | S754_finite s m e =>
      if 0 <=? e then v
      else
        let '(q, r) := split_mantissa m e in
        let n := if 2 ^ (- e - 1) <=? r then q + 1 else q in
        d_of_Z2 (if s then - n else n) 0 s
  | _ => v
  end.

(** [std::fmod]: the remainder has the sign of the dividend and is exact. *)
Definition dfmod (x y : double) : double :=
  match x, y with
  | S754_nan, _ | _, S754_nan => S754_nan
  | S754_infinity _, _ => S754_nan
  | _, S754_zero _ => S754_nan
  | S754_zero _, _ => x
  | _, S754_infinity _ => x
  | S754_finite sx mx ex, S754_finite _ my ey =>
      let e := Z.min ex ey in
      let X := Zpos mx * 2 ^ (ex - e) in
      let Y := Zpos my * 2 ^ (ey - e) in
      d_of_Z2 (cond_Zopp sx (X mod Y)) e sx
  end.

(** Conversion of a double to an integer type truncates; the behaviour is
    undefined ([None]) when the truncated value does not fit, and for
    infinities and NaN. *)
Definition dtrunc_Z (v : double) : option Z :=
  match v with
  | S754_zero _ => Some 0
  | S754_finite s m e =>
      Some (cond_Zopp s (if 0 <=? e then Zpos m * 2 ^ e else Z.shiftr (Zpos m) (- e)))
  | _ => None
  end.

Definition cast_signed (bits : Z) (v : double) : option Z :=
  match dtrunc_Z v with
  | Some n => if (- 2 ^ (bits - 1) <=? n) && (n <? 2 ^ (bits - 1)) then Some n else None
  | None => None
  end.

(** [static_cast<int>] and [static_cast<long long>]. *)
Definition cast_int : double -> option Z := cast_signed 32.
Definition cast_long_long : double -> option Z := cast_signed 64.

(** [static_cast<double>(i)] for an [int] [i] (exact). *)
Definition double_of_int (i : Z) : double := d_of_Z2 i 0 false.


(** ** Decimal text of numbers *)

(** [operator<<] for an integer. *)
Definition decimal (z : Z) : text :=
  list_ascii_of_string (NilZero.string_of_int (Z.to_int z)).

Definition digit_val (c : ascii) : Z := Z.of_N (N_of_ascii c) - 48.

Definition digits_val (ds : text) : Z :=
  fold_left (fun acc c => 10 * acc + digit_val c) ds 0.

(** Results of code that may throw.  [Stuck] is the exhaustion of the
    recursion budget of the model; [evalExpr] never returns it
    (see [evalExpr_not_stuck]). *)
Inductive result (A : Type) : Type :=
  | Ok (a : A)
  | Throw (what : text)
  | Stuck.
Arguments Ok {A} a.
Arguments Throw {A} what.
Arguments Stuck {A}.

Definition bind {A B : Type} (r : result A) (f : A -> result B) : result B :=
  match r with
  | Ok a => f a
  | Throw w => Throw w
  | Stuck => Stuck
  end.

Notation "'let*' p ':=' r 'in' k" := (bind r (fun p => k))
  (at level 10, p pattern, r at level 100, k at level 200).

(** *** [std::stod]

    [strtod] reads the longest prefix that is a decimal floating literal:
    digits with an optional point, then an optional exponent that needs
    at least one digit.  The texts handed over by the expression parser
    start with a digit or a point, so that neither white space, a sign, a
    hexadecimal literal nor [inf]/[nan] can occur.  The literal denotes
    [M * 10^E]. *)
Definition strtod_parse (s : text) : option (Z * Z) :=
  let ip := take_while isdigit s in
  let s1 := drop_while isdigit s in
  let '(fp, s2) :=
    match s1 with
    | c :: s1' =>
        if Ascii.eqb c "." then (take_while isdigit s1', drop_while isdigit s1')
        else ([], s1)
    | [] => ([], s1)
    end in
  if is_empty ip && is_empty fp then None
  else
    let ex :=
      match s2 with
      | c :: s2' =>
          if Ascii.eqb c "e" || Ascii.eqb c "E" then
            let '(neg, s3) :=
              match s2' with
              | x :: t =>
                  if Ascii.eqb x "+" then (false, t)
                  else if Ascii.eqb x "-" then (true, t)
                  else (false, s2')
              | [] => (false, s2')
              end in
            let ed := take_while isdigit s3 in
            if is_empty ed then 0
            else if neg then - digits_val ed else digits_val ed
          else 0
      | [] => 0
      end in
    Some (digits_val (ip ++ fp), ex - Z.of_nat (length fp)).

(** The double nearest to [M * 10^E] (ties to even), for [0 <= M]. *)
Definition round_decimal (M E : Z) : double :=
  if M =? 0 then d_zero
  else if 0 <=? E then d_of_Z2 (M * 10 ^ E) 0 false
  else
    let '(q, e, l) := SFdiv_core_binary prec64 emax64 M 0 (10 ^ (- E)) 0 in
    binary_round_aux prec64 emax64 false q e l.

Definition decimal_exact (M E : Z) (v : double) : bool :=
  match v with
  | S754_zero _ => M =? 0
  | S754_finite _ m e =>
      M * 10 ^ Z.max E 0 * 2 ^ Z.max (- e) 0 =? Zpos m * 2 ^ Z.max e 0 * 10 ^ Z.max (- E) 0
  | _ => false
  end.

(** A format with the 53 bits of a double and exponents that no literal
    of interest reaches: rounding to it is rounding to 53 bits with no
    bound on the exponent. *)
Definition emax_wide : Z := 2048.

Definition below_min_normal (v : double) : bool :=
  match v with
  | S754_zero _ => true
  | S754_finite _ m e => e + Zpos (digits2_pos m) <=? -1022
  | _ => false
  end.

(** Whether [M * 10^E] is tiny: below [2^-1022] once it is rounded to 53
    bits with no bound on the exponent (glibc on x86-64 detects tininess
    after rounding). *)
Definition tiny_after_rounding (M E : Z) : bool :=
  if 0 <=? E then false
  else
    let '(q, e, l) := SFdiv_core_binary prec64 emax_wide M 0 (10 ^ (- E)) 0 in
    below_min_normal (binary_round_aux prec64 emax_wide false q e l).

(** [strtod] reports [ERANGE] on overflow, and on a result that is not
    exact and tiny.  Every result that is zero or subnormal is tiny; so
    is the smallest normal number when the literal reaches it only by
    the rounding to the subnormal grid, as [2.2250738585072012e-308]
    does. *)
Definition range_error (M E : Z) (v : double) : bool :=
  match v with
  | S754_infinity _ | S754_nan => true
  | S754_zero _ => negb (decimal_exact M E v)
  | S754_finite _ m _ =>
      ((Zpos (digits2_pos m) <? prec64) || tiny_after_rounding M E)
      && negb (decimal_exact M E v)
  end.

(** [std::stod] throws [std::invalid_argument] when nothing could be
    converted and [std::out_of_range] on [ERANGE]; both have
    [what() = "stod"] (libstdc++). *)
Definition stod (s : text) : result double :=
  match strtod_parse s with
  | None => Throw "stod"
  | Some (M, E) =>
      let v := round_decimal M E in
      if range_error M E v then Throw "stod" else Ok v
  end.

(** *** [operator<<] for a double, default float field

    The value is rounded to [p] significant decimal digits (ties to even
    on the exact value); the exponent form is used when the decimal
    exponent is below [-4] or at least [p]; trailing zeros are dropped.
    The sign of a NaN is not part of the model. *)

Definition ndigits (n : Z) : Z := Z.of_nat (length (decimal n)).

(** [floor (log10 (a / b))] for positive [a] and [b]. *)
Definition log10_floor (a b : Z) : Z :=
  let x := ndigits a - ndigits b in
  let below := if 0 <=? x then a <? b * 10 ^ x else a * 10 ^ (- x) <? b in
  if below then x - 1 else x.

(** [a / b] rounded to the nearest integer, ties to even. *)
Definition div_nearest_even (a b : Z) : Z :=
  let q := a / b in
  let r := a mod b in
  match 2 * r ?= b with
  | Lt => q
  | Gt => q + 1
  | Eq => if Z.even q then q else q + 1
  end.

Definition strip_zeros (ds : text) : text :=
  rev (drop_while (fun c => Ascii.eqb c "0") (rev ds)).

Definition with_point (int_part frac : text) : text :=
  match strip_zeros frac with
  | [] => int_part
  | f => int_part ++ "." ++ f
  end.

Definition exponent_text (x : Z) : text :=
  let a := decimal (Z.abs x) in
  "e" ++ (if x <? 0 then "-" else "+") ++ (if Z.abs x <? 10 then "0" ++ a else a).

Definition format_g (p : Z) (m : positive) (e : Z) : text :=
  let num := Zpos m * 2 ^ Z.max e 0 in
  let den := 2 ^ Z.max (- e) 0 in
  let x0 := log10_floor num den in
  let k := x0 - p + 1 in
  let d0 :=
    if 0 <=? k then div_nearest_even num (den * 10 ^ k)
    else div_nearest_even (num * 10 ^ (- k)) den in
  let '(d, x) := if d0 =? 10 ^ p then (10 ^ (p - 1), x0 + 1) else (d0, x0) in
  let ds := decimal d in
  if (x <? -4) || (p <=? x) then
    with_point (firstn 1 ds) (skipn 1 ds) ++ exponent_text x
  else if 0 <=? x then
    with_point (firstn (Z.to_nat (x + 1)) ds) (skipn (Z.to_nat (x + 1)) ds)
  else
    with_point "0" (repeat "0"%char (Z.to_nat (- x - 1)) ++ ds).

Definition ostream_double (p : Z) (v : double) : text :=
  match v with
  | S754_nan => "nan"
  | S754_infinity s => (if s then "-" else "") ++ "inf"
  | S754_zero s => (if s then "-" else "") ++ "0"
  | S754_finite s m e => (if s then "-" else "") ++ format_g p m e
  end.

(** *** What the implementation decides

    The functions of [<cmath>] that IEEE-754 fixes are given above; the
    others belong to the platform.  So does the order in which the
    assignment [variables[var] = evalExpr(...)] evaluates its operands:
    from C++17 on the right operand comes first; before, the order is
    left to the compiler, and the left operand may come first. *)
Record platform : Type := {
  m_sin : double -> double;
  m_cos : double -> double;
  m_tan : double -> double;
  m_log : double -> double;
  m_exp : double -> double;
  m_pow : double -> double -> double;
  m_fmin : double -> double -> double;
  m_fmax : double -> double -> double;
  value_first : bool
}.

(** ** The expression parser ([Interpreter::ExprParser]) *)

Abbreviation parser := (text -> result (double * text)).

Definition skipWs (s : text) : text := drop_while isspace s.

Definition matchChar (c : ascii) (s : text) : bool * text :=
  let s := skipWs s in
  match s with
  | x :: s' => if Ascii.eqb x c then (true, s') else (false, s)
  | [] => (false, s)
  end.

Definition matchStr (t : text) (s : text) : bool * text :=
  let s := skipWs s in
  if starts_with t s then (true, skipn (length t) s) else (false, s).

Definition peek (s : text) : ascii * text :=
  let s := skipWs s in
  match s with
  | c :: _ => (c, s)
  | [] => (nul, s)
  end.

Definition truthy (v : double) : double := if dne v d_zero then d_one else d_zero.

(** A double used as a condition. *)
Definition as_bool (v : double) : bool := dne v d_zero.

Definition is_ident_start (c : ascii) : bool := isalpha c || Ascii.eqb c "_".
Definition is_ident_char (c : ascii) : bool := isalnum c || Ascii.eqb c "_".

Definition parseIdentifier (s : text) : text * text :=
  let s := skipWs s in
  match s with
  | c :: s' =>
      if is_ident_start c
      then (c :: take_while is_ident_char s', drop_while is_ident_char s')
      else ([], s)
  | [] => ([], s)
  end.

(** The scan of [parseNumber]: the characters taken, [sawDigit], and the
    unread rest.  An exponent marker without digits is given back. *)
Definition scan_exponent (s : text) : text * text :=
  match s with
  | c :: s1 =>
      if Ascii.eqb c "e" || Ascii.eqb c "E" then
        let '(sg, s2) :=
          match s1 with
          | x :: t => if Ascii.eqb x "+" || Ascii.eqb x "-" then ([x], t) else ([], s1)
          | [] => ([], s1)
          end in
        let ds := take_while isdigit s2 in
        if is_empty ds then ([], s)
        else (c :: sg ++ ds, drop_while isdigit s2)
      else ([], s)
  | [] => ([], s)
  end.

Definition scan_number (s : text) : text * bool * text :=
  match s with
  | c :: s0 =>
      if Ascii.eqb c "." || isdigit c then
        let '(dot, s1) := if Ascii.eqb c "." then (["."%char], s0) else ([], s) in
        let d1 := take_while isdigit s1 in
        let s2 := drop_while isdigit s1 in
        let '(frac, sawFrac, s3) :=
          match s2 with
          | x :: s2' =>
              if Ascii.eqb x "."
              then ("."%char :: take_while isdigit s2',
                    negb (is_empty (take_while isdigit s2')),
                    drop_while isdigit s2')
              else ([], false, s2)
          | [] => ([], false, s2)
          end in
        let '(ex, s4) := scan_exponent s3 in
        (dot ++ d1 ++ frac ++ ex, negb (is_empty d1) || sawFrac, s4)
      else ([], false, s)
  | [] => ([], false, s)
  end.

Section ExprParser.
Variable M : platform.
Variable variables : gmap text double.
Variable errPrefix : text.

Definition fail {A : Type} (msg : text) (s : text) : result A :=
Throw (errPrefix ++ msg ++ " near: '" ++ s ++ "'").

Definition parseNumber (s : text) : result (double * text) :=
let s := skipWs s in
let '(lit, sawDigit, s') := scan_number s in
if is_empty lit || negb sawDigit then fail "Expected number" s'
else let* v := stod lit in Ok (v, s').

Definition callFunction (name : text) (args : list double) (s : text)
: result double :=
if text_eqb name "sqrt" then
  match args with [a] => Ok (dsqrt a) | _ => fail "sqrt() expects 1 arg" s end
else if text_eqb name "sin" then
  match args with [a] => Ok (m_sin M a) | _ => fail "sin() expects 1 arg" s end
else if text_eqb name "cos" then
  match args with [a] => Ok (m_cos M a) | _ => fail "cos() expects 1 arg" s end
else if text_eqb name "tan" then
  match args with [a] => Ok (m_tan M a) | _ => fail "tan() expects 1 arg" s end
else if text_eqb name "abs" then
  match args with [a] => Ok (dabs a) | _ => fail "abs() expects 1 arg" s end
else if text_eqb name "log" then
  match args with [a] => Ok (m_log M a) | _ => fail "log() expects 1 arg" s end
else if text_eqb name "exp" then
  match args with [a] => Ok (m_exp M a) | _ => fail "exp() expects 1 arg" s end
else if text_eqb name "floor" then
  match args with [a] => Ok (dfloor a) | _ => fail "floor() expects 1 arg" s end
else if text_eqb name "ceil" then
  match args with [a] => Ok (dceil a) | _ => fail "ceil() expects 1 arg" s end
else if text_eqb name "pow" then
  match args with [a; b] => Ok (m_pow M a b) | _ => fail "pow() expects 2 args" s end
else if text_eqb name "min" then
  match args with [a; b] => Ok (m_fmin M a b) | _ => fail "min() expects 2 args" s end
else if text_eqb name "max" then
  match args with [a; b] => Ok (m_fmax M a b) | _ => fail "max() expects 2 args" s end
else fail ("Unknown function: " ++ name) s.

(** The grammar rules above [unary].  Every [while (true)] loop consumes
  an operator in each round, so that it makes at most as many rounds
  as there are characters left: that is its budget. *)
Section Levels.
Variable unary : parser.

Fixpoint factor_loop (k : nat) (v : double) (s : text) : result (double * text) :=
match k with
| O => Stuck
| S k' =>
  let s := skipWs s in
  let '(b, s) := matchChar "*" s in
  if b then let* (r, s) := unary s in factor_loop k' (dmul v r) s else
  let '(b, s) := matchChar "/" s in
  if b then let* (r, s) := unary s in factor_loop k' (ddiv v r) s else
  let '(b, s) := matchChar "%" s in
  if b then let* (r, s) := unary s in factor_loop k' (dfmod v r) s else
  Ok (v, s)
end.

Definition factor (s : text) : result (double * text) :=
let* (v, s) := unary s in factor_loop (S (length s)) v s.

Fixpoint term_loop (k : nat) (v : double) (s : text) : result (double * text) :=
match k with
| O => Stuck
| S k' =>
  let s := skipWs s in
  let '(b, s) := matchChar "+" s in
  if b then let* (r, s) := factor s in term_loop k' (dadd v r) s else
  let '(b, s) := matchChar "-" s in
  if b then let* (r, s) := factor s in term_loop k' (dsub v r) s else
  Ok (v, s)
end.

Definition term (s : text) : result (double * text) :=
let* (v, s) := factor s in term_loop (S (length s)) v s.

Fixpoint comparison_loop (k : nat) (v : double) (s : text) : result (double * text) :=
match k with
| O => Stuck
| S k' =>
  let s := skipWs s in
  let '(b, s) := matchStr ">=" s in
  if b then let* (r, s) := term s in comparison_loop k' (bool_to_double (dge v r)) s else
  let '(b, s) := matchStr "<=" s in
  if b then let* (r, s) := term s in comparison_loop k' (bool_to_double (dle v r)) s else
  let '(b, s) := matchChar ">" s in
  if b then let* (r, s) := term s in comparison_loop k' (bool_to_double (dgt v r)) s else
  let '(b, s) := matchChar "<" s in
  if b then let* (r, s) := term s in comparison_loop k' (bool_to_double (dlt v r)) s else
  Ok (v, s)
end.

Definition comparison (s : text) : result (double * text) :=
let* (v, s) := term s in comparison_loop (S (length s)) v s.

Fixpoint equality_loop (k : nat) (v : double) (s : text) : result (double * text) :=
match k with
| O => Stuck
| S k' =>
  let s := skipWs s in
  let '(b, s) := matchStr "==" s in
  if b then let* (r, s) := comparison s in equality_loop k' (bool_to_double (deq v r)) s else
  let '(b, s) := matchStr "!=" s in
  if b then let* (r, s) := comparison s in equality_loop k' (bool_to_double (dne v r)) s else
  Ok (v, s)
end.

Definition equality (s : text) : result (double * text) :=
let* (v, s) := comparison s in equality_loop (S (length s)) v s.

Fixpoint logical_and_loop (k : nat) (v : double) (s : text) : result (double * text) :=
match k with
| O => Stuck
| S k' =>
  let s := skipWs s in
  let '(b, s) := matchStr "&&" s in
  if b then
    let* (r, s) := equality s in
    logical_and_loop k' (bool_to_double (as_bool (truthy v) && as_bool (truthy r))) s
  else Ok (v, s)
end.

Definition logical_and (s : text) : result (double * text) :=
let* (v, s) := equality s in logical_and_loop (S (length s)) v s.

Fixpoint logical_or_loop (k : nat) (v : double) (s : text) : result (double * text) :=
match k with
| O => Stuck
| S k' =>
  let s := skipWs s in
  let '(b, s) := matchStr "||" s in
  if b then
    let* (r, s) := logical_and s in
    logical_or_loop k' (bool_to_double (as_bool (truthy v) || as_bool (truthy r))) s
  else Ok (v, s)
end.

Definition logical_or (s : text) : result (double * text) :=
let* (v, s) := logical_and s in logical_or_loop (S (length s)) v s.

Definition expr (s : text) : result (double * text) := logical_or s.
End Levels.

Section Primary.
Variable expr : parser.

(** The argument loop of a call; every round consumes a comma. *)
Fixpoint args_loop (k : nat) (args : list double) (s : text)
: result (list double * text) :=
match k with
| O => Stuck
| S k' =>
  let* (a, s) := expr s in
  let args := args ++ [a] in
  let s := skipWs s in
  let '(b, s) := matchChar ")" s in
  if b then Ok (args, s) else
  let '(b, s) := matchChar "," s in
  if b then args_loop k' args s
  else fail "Expected ',' or ')'" s
end.

Definition primary (s : text) : result (double * text) :=
let s := skipWs s in
let '(b, s) := matchChar "(" s in
if b then
let* (v, s) := expr s in
let '(b, s) := matchChar ")" s in
if b then Ok (v, s) else fail "Expected ')'" s
else
let '(c, s) := peek s in
if isalpha c || Ascii.eqb c "_" then
  let '(id, s) := parseIdentifier s in
  let s := skipWs s in
  let '(b, s) := matchChar "(" s in
  if b then
    let s := skipWs s in
    let '(b, s) := matchChar ")" s in
    if b then let* v := callFunction id [] s in Ok (v, s)
    else
      let* (args, s) := args_loop (S (length s)) [] s in
      let* v := callFunction id args s in Ok (v, s)
  else
    match variables !! id with
    | Some v => Ok (v, s)
    | None => fail ("Unknown variable: " ++ id) s
    end
else if isdigit c || Ascii.eqb c "." then parseNumber s
else fail "Expected primary expression" s.
End Primary.

(** [unary] closes the recursion: every call of [unary] from within
  [unary] happens after a character was consumed, so that the depth
  is bounded by the length of the text. *)
Fixpoint unary (n : nat) (s : text) : result (double * text) :=
match n with
| O => Stuck
| S n' =>
    let s := skipWs s in
    let '(b, s) := matchChar "+" s in
    if b then unary n' s else
    let '(b, s) := matchChar "-" s in
    if b then let* (v, s) := unary n' s in Ok (dneg v, s) else
    let '(b, s) := matchChar "!" s in
    if b then
      let* (v, s) := unary n' s in
      Ok (if as_bool (truthy v) then d_zero else d_one, s)
    else primary (expr (unary n')) s
end.

Definition eval (s : text) : result double :=
let* (v, s') := expr (unary (S (length s))) s in
let s' := skipWs s' in
if is_empty s' then Ok v
else fail "Unexpected trailing characters" s'.
End ExprParser.

Definition evalExpr (M : platform) (variables : gmap text double)
    (expr : text) (errPrefix : text) : result double :=
  eval M variables errPrefix expr.

(** ** The interpreter *)

(** The member [variables] and what was written to [std::cout], line by
    line. *)
Record state : Type := {
  variables : gmap text double;
  output : list text
}.

Definition initial : state := {| variables := ∅; output := [] |}.

(** [std::cout << line << "\n"]. *)
Definition emit (line : text) (st : state) : state :=
  {| variables := variables st; output := output st ++ [line] |}.

(** [variables[var] = v]. *)
Definition set_var (var : text) (v : double) (st : state) : state :=
  {| variables := <[var := v]> (variables st); output := output st |}.

(** [variables[var]] as the target of an assignment: [operator[]] enters
    a variable that is not in the table, with the value [0.0]. *)
Definition assign_target (var : text) (st : state) : state :=
  match variables st !! var with
  | Some _ => st
  | None => set_var var d_zero st
  end.

(** What a run of the interpreter comes to: it ends in a state, or it
    meets undefined behaviour (a conversion to an integer type that does
    not fit), or the recursion budget of the model is exhausted (which
    [execute] never is, see [execute_not_out_of_fuel]). *)
Inductive outcome : Type :=
  | Done (st : state)
  | Undefined
  | OutOfFuel.

Definition and_then (o : outcome) (k : state -> outcome) : outcome :=
  match o with
  | Done st => k st
  | Undefined => Undefined
  | OutOfFuel => OutOfFuel
  end.

(** The literal [1e-9]. *)
Definition d_1e_9 : double := S754_finite false 4835703278458517 (-82).

Definition printNumberNicely (v : double) (st : state) : outcome :=
  let rounded := dround v in
  if dlt (dabs (dsub v rounded)) d_1e_9 then
    match cast_long_long rounded with
    | Some n => Done (emit (decimal n) st)
    | None => Undefined
    end
  else Done (emit (ostream_double 12 v) st).

(** [readBlock]: every successful [getline] consumes a character, which
    bounds the number of rounds by the length of the stream.  The result
    is the block and the stream after it. *)
Fixpoint readBlock_loop (k : nat) (block : text) (stream : text) : text * text :=
  match k with
  | O => (block, stream)
  | S k' =>
      match getline stream with
      | None => (block, stream)
      | Some (blockLine, stream') =>
          if text_eqb (trim blockLine) ")" then (block, stream')
          else readBlock_loop k' (block ++ blockLine ++ [nl]) stream'
      end
  end.

Definition readBlock (stream : text) : text * text :=
  readBlock_loop (length stream) [] stream.

(** [splitHeaderAndOpenParen]: [Some beforeParen] stands for [true]. *)
Definition splitHeaderAndOpenParen (line : text) : option text :=
  let t := rtrim line in
  if is_empty t then None
  else if negb (Ascii.eqb (List.last t nul) "(") then None
  else Some (rtrim (removelast t)).

(** [s.find(c)]. *)
Fixpoint find_char (c : ascii) (s : text) : option nat :=
  match s with
  | [] => None
  | x :: s' => if Ascii.eqb x c then Some O else option_map S (find_char c s')
  end.

(** [for (int i = 0; i < count; i++) { variables[var] = i; execute(block); }]
    with [iters] rounds to go from [i] on. *)
Fixpoint for_loop (body : state -> outcome) (var : text) (iters : nat) (i : Z)
    (st : state) : outcome :=
  match iters with
  | O => Done st
  | S k =>
      and_then (body (set_var var (double_of_int i) st))
               (for_loop body var k (i + 1))
  end.

Section Interpreter.
Variable M : platform.

(** The state in which the right operand of
  [variables[var] = evalExpr(...)] is evaluated: the state before the
  statement when the platform evaluates that operand first; otherwise
  [var] has been entered into the table by then. *)
Definition operand_state (var : text) (st : state) : state :=
if value_first M then st else assign_target var st.

(** [try { variables[var] = evalExpr(expr, "Set expr error: "); }
   catch (const std::exception& e) { std::cout << e.what() << "\n"; }] *)
Definition try_assign (var expr : text) (st : state) : outcome :=
let st := operand_state var st in
match evalExpr M (variables st) expr "Set expr error: " with
| Ok v => Done (set_var var v st)
| Throw what => Done (emit what st)
| Stuck => OutOfFuel
end.

(** [variables[var] += evalExpr(...)] is reached only when [var] is in
  the table, so that the order of its operands does not matter. *)
Definition runLine (line : text) (st : state) : outcome :=
let t := trim line in
if is_empty t then Done st
else if starts_with "comment" t then Done st
else
  let '(command, ss) := extract t in
  if text_eqb command "print" then
    let rest := trim (getline_or_empty ss) in
    if (2 <=? length rest)%nat && Ascii.eqb (hd nul rest) dquote
       && Ascii.eqb (List.last rest nul) dquote
    then Done (emit (removelast (tl rest)) st)
    else
      match (if is_empty rest then None else variables st !! rest) with
      | Some v => printNumberNicely v st
      | None =>
          match evalExpr M (variables st) rest "Print expr error: " with
          | Ok v => printNumberNicely v st
          | Throw _ => Done (emit rest st)
          | Stuck => OutOfFuel
          end
      end
  else if text_eqb command "set" then
    let '(var, ss) := extract ss in
    if is_empty var then Done (emit "Syntax error: set needs a variable name" st)
    else
      let '(token, ss) := extract ss in
      if negb (text_eqb token "=") then
        let rest := getline_or_empty ss in
        let expr := trim (token ++ rest) in
        try_assign var expr st
      else
        let expr := trim (getline_or_empty ss) in
        if is_empty expr then Done (emit "Syntax error: set needs an expression" st)
        else try_assign var expr st
  else if text_eqb command "add" then
    let '(var, ss) := extract ss in
    if is_empty var then Done (emit "Syntax error: add needs a variable" st)
    else
      match variables st !! var with
      | None => Done (emit ("Error: variable '" ++ var ++ "' not found") st)
      | Some old =>
          let expr := trim (getline_or_empty ss) in
          if is_empty expr
          then Done (emit "Syntax error: add needs a value/expression" st)
          else
            match evalExpr M (variables st) expr "Add expr error: " with
            | Ok v => Done (set_var var (dadd old v) st)
            | Throw what => Done (emit what st)
            | Stuck => OutOfFuel
            end
      end
  else Done (emit ("Unknown command: " ++ command) st).

(** One round of the [while (std::getline(stream, line))] loop of
  [execute], for the [line] just read and the unread [stream].
  [execute] is the recursive call on a block and [continue] is the
  rest of the loop. *)
Definition exec_line (execute continue : text -> state -> outcome)
  (line stream : text) (st : state) : outcome :=
let line := trim line in
if is_empty line then continue stream st
else if starts_with "comment" line then continue stream st
else
  let '(command, ss) := extract line in
  if text_eqb command "loop" then
    let '(varAndCount, ss) := extract ss in
    match find_char ":" varAndCount with
    | None =>
        continue stream (emit "Syntax error: loop expects var:count" st)
    | Some colonPos =>
        let var := firstn colonPos varAndCount in
        let countExpr := skipn (colonPos + 1) varAndCount in
        let '(openParen, ss) := extract ss in
        if negb (text_eqb openParen "(") then
          continue stream (emit "Syntax error: expected (" st)
        else
          let '(block, stream) := readBlock stream in
          match evalExpr M (variables st) countExpr "Loop count error: " with
          | Throw what => continue stream (emit what st)
          | Stuck => OutOfFuel
          | Ok c =>
              match cast_int (dfloor c) with
              | None => Undefined
              | Some count =>
                  and_then
                    (for_loop (execute block) var (Z.to_nat count) 0 st)
                    (continue stream)
              end
          end
    end
  else if text_eqb command "if" then
    match splitHeaderAndOpenParen line with
    | None =>
        continue stream
          (emit "Syntax error: if expects '(' at end of line" st)
    | Some headerBeforeParen =>
        let condition := trim (skipn 2 headerBeforeParen) in
        let condition :=
          match condition with
          | c :: condition' =>
              if Ascii.eqb c " " then condition' else condition
          | [] => condition
          end in
        let condition := trim condition in
        let '(block, stream) := readBlock stream in
        match evalExpr M (variables st) condition "If condition error: " with
        | Ok condVal =>
            if dne condVal d_zero
            then and_then (execute block st) (continue stream)
            else continue stream st
        | Throw what => continue stream (emit what st)
        | Stuck => OutOfFuel
        end
    end
  else and_then (runLine line st) (continue stream).

(** The loop of [execute] on the unread [stream].  Each round consumes
  a character of the stream and a block is shorter than the stream
  it was read from, so that a budget above the length of the stream
  is never exhausted. *)
Fixpoint exec_loop (n : nat) (stream : text) (st : state) : outcome :=
match n with
| O => OutOfFuel
| S n' =>
    match getline stream with
    | None => Done st
    | Some (line, stream) =>
        exec_line (exec_loop n') (exec_loop n') line stream st
    end
end.

Definition execute (code : text) (st : state) : outcome :=
exec_loop (S (length code)) code st.
End Interpreter.

(** A script: its lines, each closed by a newline. *)
Definition script (lines : list text) : text :=
  concat (List.map (fun l => l ++ [nl]) lines).

(** Two platforms for the closed examples below, none of which calls a
    function of [<cmath>]: one that evaluates the right operand of an
    assignment first (C++17), and one that evaluates the left operand
    first. *)
Definition value_first_build : platform := {|
  m_sin := fun _ => S754_nan;
  m_cos := fun _ => S754_nan;
  m_tan := fun _ => S754_nan;
  m_log := fun _ => S754_nan;
  m_exp := fun _ => S754_nan;
  m_pow := fun _ _ => S754_nan;
  m_fmin := fun _ _ => S754_nan;
  m_fmax := fun _ _ => S754_nan;
  value_first := true
|}.

Definition target_first_build : platform := {|
  m_sin := fun _ => S754_nan;
  m_cos := fun _ => S754_nan;
  m_tan := fun _ => S754_nan;
  m_log := fun _ => S754_nan;
  m_exp := fun _ => S754_nan;
  m_pow := fun _ _ => S754_nan;
  m_fmin := fun _ _ => S754_nan;
  m_fmax := fun _ _ => S754_nan;
  value_first := false
|}.

(** ** The grammar rules as one table-driven rule

    Each of [factor], [term], [comparison], [equality], [logical_and] and
    [logical_or] tries the operators of its tier in a fixed order and
    folds the operands to the left.  [bin_level] is that scheme; the
    rules are instances of it (see [level_parser_bin]). *)

Abbreviation optable := (list (text * (double -> double -> double))).

Fixpoint match_op (ops : optable) (s : text)
  : option ((double -> double -> double) * text) :=
  match ops with
  | [] => None
  | (t, f) :: ops' =>
      let '(b, s') := matchStr t s in
      if b then Some (f, s') else match_op ops' s
  end.

Fixpoint bin_loop (sub : parser) (ops : optable) (k : nat) (v : double) (s : text)
  : result (double * text) :=
  match k with
  | O => Stuck
  | S k' =>
      let s := skipWs s in
      match match_op ops s with
      | Some (f, s') => let* (r, s'') := sub s' in bin_loop sub ops k' (f v r) s''
      | None => Ok (v, s)
      end
  end.

Definition bin_level (sub : parser) (ops : optable) (s : text)
  : result (double * text) :=
  let* (v, s) := sub s in bin_loop sub ops (S (length s)) v s.

(** ** Syntax trees of the grammar

    A tree records a derivation of the grammar of the parser, with the
    white space between its tokens. *)

Inductive unop : Type := UPlus | UMinus | UNot.

Inductive binop : Type :=
  | BMul | BDiv | BMod
  | BAdd | BSub
  | BGe | BLe | BGt | BLt
  | BEq | BNe
  | BAnd
  | BOr.

Inductive cst : Type :=
  | CNum (lit : text)
  | CVar (id : text)
  | CCall0 (id : text) (w0 w1 : text)
  | CCall (id : text) (w0 : text) (args : carglist)
  | CParen (w1 : text) (e : cst) (w2 : text)
  | CUnary (op : unop) (w : text) (e : cst)
  | CBin (l : cst) (w1 : text) (op : binop) (w2 : text) (r : cst)
with carglist : Type :=
  | AOne (w1 : text) (e : cst) (w2 : text)
  | AMore (w1 : text) (e : cst) (w2 : text) (more : carglist).

Scheme cst_mut := Induction for cst Sort Prop
  with carglist_mut := Induction for carglist Sort Prop.
Combined Scheme cst_carglist_ind from cst_mut, carglist_mut.

Definition unop_token (op : unop) : text :=
  match op with UPlus => "+" | UMinus => "-" | UNot => "!" end.

Definition token (op : binop) : text :=
  match op with
  | BMul => "*" | BDiv => "/" | BMod => "%"
  | BAdd => "+" | BSub => "-"
  | BGe => ">=" | BLe => "<=" | BGt => ">" | BLt => "<"
  | BEq => "==" | BNe => "!="
  | BAnd => "&&"
  | BOr => "||"
  end.

(** The tiers, from the loosest (1, [||]) to the tightest (6, [* / %]);
    7 is [unary] and 8 is [primary]. *)
Definition level (op : binop) : nat :=
  match op with
  | BMul | BDiv | BMod => 6
  | BAdd | BSub => 5
  | BGe | BLe | BGt | BLt => 4
  | BEq | BNe => 3
  | BAnd => 2
  | BOr => 1
  end.

Definition prec (e : cst) : nat :=
  match e with
  | CBin _ _ op _ _ => level op
  | CUnary _ _ _ => 7
  | _ => 8
  end.

Fixpoint text_of (e : cst) : text :=
  match e with
  | CNum lit => lit
  | CVar id => id
  | CCall0 id w0 w1 => id ++ w0 ++ "(" ++ w1 ++ ")"
  | CCall id w0 args => id ++ w0 ++ "(" ++ args_text args
  | CParen w1 e w2 => "(" ++ w1 ++ text_of e ++ w2 ++ ")"
  | CUnary op w e => unop_token op ++ w ++ text_of e
  | CBin l w1 op w2 r => text_of l ++ w1 ++ token op ++ w2 ++ text_of r
  end
with args_text (a : carglist) : text :=
  match a with
  | AOne w1 e w2 => w1 ++ text_of e ++ w2 ++ ")"
  | AMore w1 e w2 more => w1 ++ text_of e ++ w2 ++ "," ++ args_text more
  end.

Definition is_ws (w : text) : bool := forallb isspace w.

Definition is_identifier (id : text) : bool :=
  match id with
  | c :: id' => is_ident_start c && forallb is_ident_char id'
  | [] => false
  end.

(** A decimal literal: digits with an optional point and fraction, or a
    point and a fraction; then an optional exponent with at least one
    digit. *)
Definition is_exponent (s : text) : bool :=
  match s with
  | [] => true
  | c :: s1 =>
      (Ascii.eqb c "e" || Ascii.eqb c "E") &&
      let ds :=
        match s1 with
        | x :: t => if Ascii.eqb x "+" || Ascii.eqb x "-" then t else s1
        | [] => s1
        end in
      negb (is_empty ds) && forallb isdigit ds
  end.

Definition is_number_literal (lit : text) : bool :=
  let ip := take_while isdigit lit in
  match drop_while isdigit lit with
  | c :: r1 =>
      if Ascii.eqb c "." then
        let fp := take_while isdigit r1 in
        negb (is_empty ip && is_empty fp) && is_exponent (drop_while isdigit r1)
      else negb (is_empty ip) && is_exponent (c :: r1)
  | [] => negb (is_empty ip)
  end.

Fixpoint wf (e : cst) : bool :=
  match e with
  | CNum lit => is_number_literal lit
  | CVar id => is_identifier id
  | CCall0 id w0 w1 => is_identifier id && is_ws w0 && is_ws w1
  | CCall id w0 args => is_identifier id && is_ws w0 && wf_args args
  | CParen w1 e w2 => is_ws w1 && wf e && is_ws w2
  | CUnary _ w e => is_ws w && wf e && (7 <=? prec e)%nat
  | CBin l w1 op w2 r =>
      wf l && is_ws w1 && is_ws w2 && wf r
      && (level op <=? prec l)%nat && (level op <? prec r)%nat
  end
with wf_args (a : carglist) : bool :=
  match a with
  | AOne w1 e w2 => is_ws w1 && wf e && is_ws w2
  | AMore w1 e w2 more => is_ws w1 && wf e && is_ws w2 && wf_args more
  end.

Definition binop_sem (op : binop) (a b : double) : double :=
  match op with
  | BMul => dmul a b
  | BDiv => ddiv a b
  | BMod => dfmod a b
  | BAdd => dadd a b
  | BSub => dsub a b
  | BGe => bool_to_double (dge a b)
  | BLe => bool_to_double (dle a b)
  | BGt => bool_to_double (dgt a b)
  | BLt => bool_to_double (dlt a b)
  | BEq => bool_to_double (deq a b)
  | BNe => bool_to_double (dne a b)
  | BAnd => bool_to_double (as_bool (truthy a) && as_bool (truthy b))
  | BOr => bool_to_double (as_bool (truthy a) || as_bool (truthy b))
  end.

Definition unop_sem (op : unop) (a : double) : double :=
  match op with
  | UPlus => a
  | UMinus => dneg a
  | UNot => if as_bool (truthy a) then d_zero else d_one
  end.

(** The operators of a tier, in the order in which its rule tries them. *)
Definition tier (L : nat) : list binop :=
  match L with
  | 6 => [BMul; BDiv; BMod]
  | 5 => [BAdd; BSub]
  | 4 => [BGe; BLe; BGt; BLt]
  | 3 => [BEq; BNe]
  | 2 => [BAnd]
  | 1 => [BOr]
  | _ => []
  end%nat.

Definition tier_table (L : nat) : optable :=
  List.map (fun op => (token op, binop_sem op)) (tier L).

Definition all_binops : list binop :=
  [BMul; BDiv; BMod; BAdd; BSub; BGe; BLe; BGt; BLt; BEq; BNe; BAnd; BOr].

Definition success {A : Type} (r : result A) : option A :=
  match r with
  | Ok a => Some a
  | _ => None
  end.

Section Value.
Variable M : platform.
Variable vars : gmap text double.

(** The rule of tier [L] of the parser. *)
Definition level_parser (L : nat) (u : parser) : parser :=
match L with
| 6 => factor u
| 5 => term u
| 4 => comparison u
| 3 => equality u
| 2 => logical_and u
| 1 => logical_or u
| _ => u
end%nat.

(** The value of a call, when the function exists and is given the
  right number of arguments. *)
Definition call_value (id : text) (args : list double) : option double :=
success (callFunction M [] id args []).

(** The value of a tree: every operator applied to the values of its
  own operands.  [None] when a variable is unknown, a call is wrong or
  a literal is not the text of a double. *)
Fixpoint value (e : cst) : option double :=
match e with
| CNum lit => success (stod lit)
| CVar id => vars !! id
| CCall0 id _ _ => call_value id []
| CCall id _ args =>
    match values args with
    | Some vs => call_value id vs
    | None => None
    end
| CParen _ e _ => value e
| CUnary op _ e => option_map (unop_sem op) (value e)
| CBin l _ op _ r =>
    match value l, value r with
    | Some a, Some b => Some (binop_sem op a b)
    | _, _ => None
    end
end
with values (a : carglist) : option (list double) :=
match a with
| AOne _ e _ => option_map (fun v => [v]) (value e)
| AMore _ e _ more =>
    match value e, values more with
    | Some v, Some vs => Some (v :: vs)
    | _, _ => None
    end
end.
End Value.

(** What may follow the text of a tree that is parsed at tier [L]: no
    character that would extend its last token, no opening parenthesis
    and no operator of tier [L] or tighter. *)
Definition extends_token (c : ascii) : bool :=
  is_ident_char c || Ascii.eqb c ".".

Definition follow (L : nat) (s : text) : bool :=
  match s with
  | c :: _ => negb (extends_token c)
  | [] => true
  end
  && negb (starts_with "(" (skipWs s))
  && forallb (fun op => (level op <? L)%nat || negb (starts_with (token op) (skipWs s)))
       all_binops.

(** The arithmetic trees without variables: literals that are the text
    of a double, parentheses, signs and the operators [* / % + -]. *)
Fixpoint arith (e : cst) : bool :=
  match e with
  | CNum lit => match stod lit with Ok _ => true | _ => false end
  | CParen _ e _ => arith e
  | CUnary op _ e => match op with UNot => false | _ => arith e end
  | CBin l _ op _ r => (5 <=? level op)%nat && arith l && arith r
  | _ => false
  end.


(** The trees of some expressions. *)
Definition lit (n : text) : cst := CNum n.

Definition bin (l : cst) (op : binop) (r : cst) : cst := CBin l " " op " " r.

Definition paren (e : cst) : cst := CParen "" e "".

(** ** Auxiliary notions for the proofs *)

(** The first character, if any, fails [p]. *)
Definition stops (p : ascii -> bool) (s : text) : Prop :=
  match s with
  | c :: _ => p c = false
  | [] => True
  end.

(** A parser that, on a text shorter than [bound], returns and, when it
    succeeds, has consumed at least one character. *)
Definition progresses (bound : nat) (p : parser) : Prop :=
  forall s, (length s < bound)%nat ->
    p s <> Stuck /\
    forall v s', p s = Ok (v, s') -> (length s' < length s)%nat.

(** Layout of lines. *)
Definition no_ws (t : text) : bool := forallb (fun c => negb (isspace c)) t.

Definition no_nl (t : text) : bool := forallb (fun c => negb (Ascii.eqb c nl)) t.

(** Neither the first nor the last character is white space. *)
Definition trimmed (s : text) : Prop := stops isspace s /\ stops isspace (rev s).

(** White space, or nothing, comes first. *)
Definition breaks (s : text) : Prop := stops (fun c => negb (isspace c)) s.

(** The first white-space-delimited token of a line. *)
Definition first_token (line : text) : text := fst (extract (trim line)).

(** [rest] is a double-quoted literal for [print]. *)
Definition is_quoted (rest : text) : bool :=
  (2 <=? length rest)%nat && Ascii.eqb (hd nul rest) dquote
  && Ascii.eqb (List.last rest nul) dquote.

Definition second_token (line : text) : text :=
  fst (extract (snd (extract (trim line)))).

Definition third_token (line : text) : text :=
  fst (extract (snd (extract (snd (extract (trim line)))))).

(** The text after an exponent marker, without its sign. *)
Definition after_sign (s : text) : text :=
  match s with
  | x :: t => if Ascii.eqb x "+" || Ascii.eqb x "-" then t else s
  | [] => s
  end.

(** Digits, with at most a minus sign in front. *)
Definition is_integer_text (s : text) : bool :=
  match s with
  | c :: ds => (Ascii.eqb c "-" || isdigit c) && forallb isdigit ds
  | [] => false
  end.

(** A character that can start an expression. *)
Definition expr_start (c : ascii) : bool :=
  isdigit c || Ascii.eqb c "." || is_ident_start c
  || Ascii.eqb c "(" || Ascii.eqb c "+" || Ascii.eqb c "-" || Ascii.eqb c "!".

(** A parser that does not see leading white space. *)
Definition skips_ws (p : parser) : Prop :=
  forall w s, is_ws w = true -> p (w ++ s) = p s.

(** The result [r] of parsing the text of a tree in front of [rest]
    agrees with the value [o] of the tree: the value is returned and the
    unread text is [rest], up to white space that was skipped; or the
    parser throws when the tree has no value. *)
Definition agrees (r : result (double * text)) (o : option double) (rest : text) : Prop :=
  match o with
  | Some v =>
      exists rest', r = Ok (v, rest') /\ skipWs rest' = skipWs rest
                    /\ (length rest' <= length rest)%nat
  | None => exists what, r = Throw what
  end.

(** The rule of tier [L], applied to the text of a tree of that tier or
    a tighter one, comes to the loop of the tier, entered with the value
    of the tree. *)
Definition spine (L : nat) (u : parser) (text_e : text) (o : option double)
    (rest : text) : Prop :=
  match o with
  | Some v =>
      level_parser L u (text_e ++ rest)
      = bin_loop (level_parser (S L) u) (tier_table L) (S (length rest)) v rest
  | None => exists what, level_parser L u (text_e ++ rest) = Throw what
  end.

Section TreeParses.
Variable M : platform.
Variable vars : gmap text double.
Variable prefix : text.
Variable n : nat.

(** What is shown of a tree by induction: [unary] parses the trees of
  its tier, and the rule of a tier comes to its loop on the trees of
  that tier. *)
Definition tree_base (e : cst) : Prop :=
((7 <= prec e)%nat ->
 forall rest, (length (text_of e ++ rest) < n)%nat -> follow 7 rest = true ->
   agrees (unary M vars prefix n (text_of e ++ rest)) (value M vars e) rest)
/\ ((prec e <= 6)%nat ->
    forall rest, (length (text_of e ++ rest) < n)%nat ->
      follow (S (prec e)) rest = true ->
      spine (prec e) (unary M vars prefix n) (text_of e) (value M vars e) rest).

(** What follows for the rule of every tier that is not tighter than the
  tree. *)
Definition tree_parses (e : cst) : Prop :=
forall L, (1 <= L)%nat -> (L <= prec e)%nat -> (L <= 7)%nat ->
  (forall rest, (length (text_of e ++ rest) < n)%nat -> follow L rest = true ->
     agrees (level_parser L (unary M vars prefix n) (text_of e ++ rest))
            (value M vars e) rest)
  /\ ((L <= 6)%nat ->
      forall rest, (length (text_of e ++ rest) < n)%nat -> follow (S L) rest = true ->
        spine L (unary M vars prefix n) (text_of e) (value M vars e) rest).

(** The arguments of a call, parsed by the loop of [primary]. *)
Definition args_parse (a : carglist) : Prop :=
forall k acc rest,
  (length (args_text a ++ rest) < n)%nat ->
  (length (skipWs (args_text a ++ rest)) < k)%nat ->
  match values M vars a with
  | Some vs =>
      args_loop prefix (expr (unary M vars prefix n)) k acc (args_text a ++ rest)
      = Ok (acc ++ vs, rest)
  | None =>
      exists what,
        args_loop prefix (expr (unary M vars prefix n)) k acc (args_text a ++ rest)
        = Throw what
  end.
End TreeParses.

(** ** Further notions *)

(** The functions of [callFunction], by the number of their arguments. *)
Definition functions_of_one_argument : list text :=
  ["sqrt"; "sin"; "cos"; "tan"; "abs"; "log"; "exp"; "floor"; "ceil"].

Definition functions_of_two_arguments : list text := ["pow"; "min"; "max"].

(** The messages of the expression parser, without the prefix of the
    statement and the quotation of the unread text. *)
Inductive is_message : text -> Prop :=
  | message_number : is_message "Expected number"
  | message_closing : is_message "Expected ')'"
  | message_comma : is_message "Expected ',' or ')'"
  | message_primary : is_message "Expected primary expression"
  | message_trailing : is_message "Unexpected trailing characters"
  | message_variable (id : text) : is_message ("Unknown variable: " ++ id)
  | message_function (id : text) : is_message ("Unknown function: " ++ id)
  | message_one (id : text) :
      In id functions_of_one_argument -> is_message (id ++ "() expects 1 arg")
  | message_two (id : text) :
      In id functions_of_two_arguments -> is_message (id ++ "() expects 2 args").

(** What an exception of [evalExpr] on the text [s] says: it is the
    [what()] of [std::stod], or a message of the parser after [prefix]
    that quotes an unread end [near] of [s]. *)
Definition reports (prefix s what : text) : Prop :=
  what = "stod"
  \/ exists msg near,
       is_message msg /\ near `suffix_of` s
       /\ what = prefix ++ msg ++ " near: '" ++ near ++ "'".

(** A parser whose unread text is an end of the text it was given and
    whose exceptions report on that text. *)
Definition sound (prefix : text) (p : parser) : Prop :=
  forall s,
    match p s with
    | Ok (_, s') => s' `suffix_of` s
    | Throw what => reports prefix s what
    | Stuck => True
    end.

(** Two texts with as many lines, whose lines agree once trimmed. *)
Inductive same_lines : text -> text -> Prop :=
  | same_lines_end : same_lines [] []
  | same_lines_line (a b la lb ra rb : text) :
      getline a = Some (la, ra) -> getline b = Some (lb, rb) ->
      trim la = trim lb -> same_lines ra rb -> same_lines a b.

(** Two lines (without newline) that agree once trimmed. *)
Abbreviation same_line :=
  (fun x y : text => trim x = trim y /\ no_nl x = true /\ no_nl y = true).

(** From [st] to [st']: what was written is still there, and so is
    every variable. *)
Definition grows (st st' : state) : Prop :=
  output st `prefix_of` output st'
  /\ forall x, is_Some (variables st !! x) -> is_Some (variables st' !! x).

(** A step that only adds. *)
Definition growing (f : state -> outcome) : Prop :=
  forall st st', f st = Done st' -> grows st st'.

(** A line that [execute] passes over: blank, or a comment. *)
Definition skipped (l : text) : bool :=
  is_empty (trim l) || starts_with "comment" (trim l).

(** Two texts that hold the same statements: their lines agree once
    trimmed, but for blank lines and comments, which either may hold
    anywhere. *)
Inductive same_statements : text -> text -> Prop :=
  | same_statements_end : same_statements [] []
  | same_statements_line (a b la lb ra rb : text) :
      getline a = Some (la, ra) -> getline b = Some (lb, rb) ->
      trim la = trim lb -> same_statements ra rb -> same_statements a b
  | same_statements_left (a b la ra : text) :
      getline a = Some (la, ra) -> skipped la = true ->
      same_statements ra b -> same_statements a b
  | same_statements_right (a b lb rb : text) :
      getline b = Some (lb, rb) -> skipped lb = true ->
      same_statements a rb -> same_statements a b.

(** The same for lists of lines. *)
Inductive same_statement_lines : list text -> list text -> Prop :=
  | same_statement_lines_end : same_statement_lines [] []
  | same_statement_lines_line (x y : text) (la lb : list text) :
      same_line x y -> same_statement_lines la lb ->
      same_statement_lines (x :: la) (y :: lb)
  | same_statement_lines_left (x : text) (la lb : list text) :
      no_nl x = true -> skipped x = true -> same_statement_lines la lb ->
      same_statement_lines (x :: la) lb
  | same_statement_lines_right (y : text) (la lb : list text) :
      no_nl y = true -> skipped y = true -> same_statement_lines la lb ->
      same_statement_lines la (y :: lb).

(* ================================================================== *)
(** * Properties *)

Local Open Scope nat_scope.

(** ** Text *)

Lemma take_drop_while (p : ascii -> bool) (s : text) :
  take_while p s ++ drop_while p s = s.
Proof.
  induction s as [|c s IH]; simpl; [reflexivity|].
  destruct (p c); simpl; [now rewrite IH | reflexivity].
Qed.

Lemma drop_while_length (p : ascii -> bool) (s : text) :
  length (drop_while p s) <= length s.
Proof.
  induction s as [|c s IH]; simpl; [lia|].
  destruct (p c); simpl; lia.
Qed.

Lemma drop_while_idem (p : ascii -> bool) (s : text) :
  drop_while p (drop_while p s) = drop_while p s.
Proof.
  induction s as [|c s IH]; simpl; [reflexivity|].
  destruct (p c) eqn:E; [exact IH | simpl; now rewrite E].
Qed.

Lemma drop_while_all (p : ascii -> bool) (w s : text) :
  forallb p w = true -> drop_while p (w ++ s) = drop_while p s.
Proof.
  induction w as [|c w IH]; simpl; [reflexivity|].
  intros H. apply andb_true_iff in H as [Hc Hw]. rewrite Hc. auto.
Qed.

Lemma take_while_all (p : ascii -> bool) (w s : text) :
  forallb p w = true -> take_while p (w ++ s) = w ++ take_while p s.
Proof.
  induction w as [|c w IH]; simpl; [reflexivity|].
  intros H. apply andb_true_iff in H as [Hc Hw]. rewrite Hc. now rewrite IH.
Qed.

Lemma take_while_forallb (p : ascii -> bool) (s : text) :
  forallb p (take_while p s) = true.
Proof.
  induction s as [|c s IH]; simpl; [reflexivity|].
  destruct (p c) eqn:E; simpl; [now rewrite E | reflexivity].
Qed.

Lemma drop_while_stops (p : ascii -> bool) (s : text) :
  stops p s -> drop_while p s = s.
Proof. destruct s as [|c s]; simpl; [reflexivity|]. now intros ->. Qed.

Lemma take_while_stops (p : ascii -> bool) (s : text) :
  stops p s -> take_while p s = [].
Proof. destruct s as [|c s]; simpl; [reflexivity|]. now intros ->. Qed.

Lemma stops_drop_while (p : ascii -> bool) (s : text) :
  stops p (drop_while p s).
Proof.
  induction s as [|c s IH]; simpl; [exact I|].
  destruct (p c) eqn:E; [exact IH | exact E].
Qed.

Lemma text_eqb_eq (a b : text) : text_eqb a b = true <-> a = b.
Proof.
  revert b. induction a as [|x a IH]; intros [|y b]; simpl; try easy.
  rewrite andb_true_iff, Ascii.eqb_eq, IH. split.
  - now intros [-> ->].
  - intros H. now inversion H.
Qed.

Lemma text_eqb_refl (a : text) : text_eqb a a = true.
Proof. now apply text_eqb_eq. Qed.

Lemma text_eqb_neq (a b : text) : text_eqb a b = false <-> a <> b.
Proof.
  rewrite <- text_eqb_eq. destruct (text_eqb a b); split; congruence.
Qed.

Lemma starts_with_app (t r : text) : starts_with t (t ++ r) = true.
Proof.
  induction t as [|c t IH]; simpl; [reflexivity|].
  now rewrite Ascii.eqb_refl.
Qed.

Lemma starts_with_inv (t s : text) :
  starts_with t s = true -> s = t ++ skipn (length t) s.
Proof.
  revert s. induction t as [|c t IH]; intros s; simpl; [reflexivity|].
  destruct s as [|x s]; [discriminate|].
  rewrite andb_true_iff, Ascii.eqb_eq. intros [-> H].
  simpl. f_equal. now apply IH.
Qed.

Lemma skipn_length_app (t r : text) : skipn (length t) (t ++ r) = r.
Proof. induction t; simpl; auto. Qed.

Lemma is_empty_true (s : text) : is_empty s = true <-> s = [].
Proof. destruct s; simpl; split; congruence. Qed.

Lemma is_empty_false (s : text) : is_empty s = false <-> s <> [].
Proof. destruct s; simpl; split; congruence. Qed.

(** ** The parser returns *)

Lemma skipWs_length (s : text) : length (skipWs s) <= length s.
Proof. apply drop_while_length. Qed.

Lemma skipWs_idem (s : text) : skipWs (skipWs s) = skipWs s.
Proof. apply drop_while_idem. Qed.

Lemma skipWs_ws (w s : text) : is_ws w = true -> skipWs (w ++ s) = skipWs s.
Proof. apply drop_while_all. Qed.

Lemma matchChar_true (c : ascii) (s s' : text) :
  matchChar c s = (true, s') -> skipWs s = c :: s'.
Proof.
  unfold matchChar. destruct (skipWs s) as [|x r]; [discriminate|].
  destruct (Ascii.eqb x c) eqn:E; [|discriminate].
  apply Ascii.eqb_eq in E. intros H. now inversion H; subst.
Qed.

Lemma matchChar_false (c : ascii) (s s' : text) :
  matchChar c s = (false, s') -> s' = skipWs s /\ stops (Ascii.eqb c) (skipWs s).
Proof.
  unfold matchChar. destruct (skipWs s) as [|x r]; intros H.
  - now inversion H.
  - destruct (Ascii.eqb x c) eqn:E; inversion H; subst. split; [reflexivity|].
    simpl. now rewrite Ascii.eqb_sym.
Qed.

Lemma matchChar_skipWs (c : ascii) (s : text) :
  matchChar c (skipWs s) = matchChar c s.
Proof. unfold matchChar. now rewrite skipWs_idem. Qed.

Lemma matchStr_skipWs (t s : text) : matchStr t (skipWs s) = matchStr t s.
Proof. unfold matchStr. now rewrite skipWs_idem. Qed.

Lemma matchStr_true (t s s' : text) :
  matchStr t s = (true, s') -> skipWs s = t ++ s'.
Proof.
  unfold matchStr. destruct (starts_with t (skipWs s)) eqn:E; [|discriminate].
  intros H. inversion H; subst. now apply starts_with_inv.
Qed.

Lemma matchStr_false (t s s' : text) :
  matchStr t s = (false, s') ->
  s' = skipWs s /\ starts_with t (skipWs s) = false.
Proof.
  unfold matchStr. destruct (starts_with t (skipWs s)) eqn:E; [discriminate|].
  intros H. now inversion H.
Qed.

Lemma matchStr_char (c : ascii) (s : text) : matchStr [c] s = matchChar c s.
Proof.
  unfold matchStr, matchChar. destruct (skipWs s) as [|x r]; simpl; [reflexivity|].
  rewrite Ascii.eqb_sym. destruct (Ascii.eqb x c); reflexivity.
Qed.

Lemma matchChar_true_length (c : ascii) (s s' : text) :
  matchChar c s = (true, s') -> length s' < length s.
Proof.
  intros H%matchChar_true. pose proof (skipWs_length s) as L.
  rewrite H in L. simpl in L. lia.
Qed.

Lemma matchChar_false_length (c : ascii) (s s' : text) :
  matchChar c s = (false, s') -> length s' <= length s.
Proof. intros [-> _]%matchChar_false. apply skipWs_length. Qed.

(** A table whose tokens are not empty. *)
Lemma match_op_some (ops : optable) (s s' : text) f :
  Forall (fun tf => fst tf <> []) ops ->
  match_op ops s = Some (f, s') ->
  exists t, In (t, f) ops /\ t <> [] /\ skipWs s = t ++ s'.
Proof.
  induction ops as [|[t g] ops IH]; simpl; [discriminate|].
  intros Hne. inversion Hne as [|? ? Ht Hops]; subst. simpl in Ht.
  destruct (matchStr t s) as [b r] eqn:E. destruct b.
  - intros H. inversion H; subst. exists t. split; [now left|].
    split; [exact Ht|]. now apply matchStr_true.
  - intros H. destruct (IH Hops H) as (t' & Hin & Hne' & Hs).
    exists t'. split; [now right|]. now split.
Qed.

Lemma match_op_some_length (ops : optable) (s s' : text) f :
  Forall (fun tf => fst tf <> []) ops ->
  match_op ops s = Some (f, s') -> length s' < length s.
Proof.
  intros Hne H. destruct (match_op_some _ _ _ _ Hne H) as (t & _ & Ht & Hs).
  pose proof (skipWs_length s) as L. rewrite Hs, length_app in L.
  destruct t; [congruence|]. simpl in L. lia.
Qed.

Lemma match_op_skipWs (ops : optable) (s : text) :
  match_op ops (skipWs s) = match_op ops s.
Proof.
  induction ops as [|[t g] ops IH]; simpl; [reflexivity|].
  now rewrite matchStr_skipWs, IH.
Qed.

Lemma tier_table_nonempty (L : nat) :
  Forall (fun tf : text * (double -> double -> double) => fst tf <> []) (tier_table L).
Proof.
  unfold tier_table.
  do 7 (destruct L as [|L]; [repeat constructor; discriminate|]).
  constructor.
Qed.

Section BinLevel.
Variable sub : parser.
Variable ops : optable.
Hypothesis ops_nonempty : Forall (fun tf => fst tf <> []) ops.

Lemma bin_loop_progress (N : nat) :
  progresses N sub ->
  forall k v s, length s < N -> length s < k ->
    bin_loop sub ops k v s <> Stuck /\
    forall v' s', bin_loop sub ops k v s = Ok (v', s') -> length s' <= length s.
Proof using ops_nonempty.
  intros Hsub. induction k as [|k IH]; intros v s HN Hk; [lia|].
  simpl. pose proof (skipWs_length s) as Lw.
  destruct (match_op ops (skipWs s)) as [[f s1]|] eqn:E.
  - apply match_op_some_length in E; [|exact ops_nonempty].
    destruct (Hsub s1) as [Hns Hc]; [lia|].
    destruct (sub s1) as [[r s2]| |] eqn:Es; simpl; [| easy | congruence].
    specialize (Hc _ _ eq_refl).
    destruct (IH (f v r) s2) as [H1 H2]; [lia | lia |].
    split; [exact H1|]. intros v' s' H. specialize (H2 _ _ H). lia.
  - split; [discriminate|]. intros v' s' H. inversion H; subst. lia.
Qed.

Lemma bin_level_progress (N : nat) :
  progresses N sub -> progresses N (bin_level sub ops).
Proof using ops_nonempty.
  intros Hsub s Hs. unfold bin_level.
  destruct (Hsub s Hs) as [Hns Hc].
  destruct (sub s) as [[v s1]| |] eqn:Es; simpl; [| easy | congruence].
  specialize (Hc _ _ eq_refl).
  destruct (bin_loop_progress N Hsub (S (length s1)) v s1) as [H1 H2]; [lia | lia |].
  split; [exact H1|]. intros v' s' H. specialize (H2 _ _ H). lia.
Qed.

(** Beyond the length of the text the budget of a loop does not matter. *)
Lemma bin_loop_budget (N : nat) :
  progresses N sub ->
  forall k1 k2 v s, length s < N -> length s < k1 -> length s < k2 ->
    bin_loop sub ops k1 v s = bin_loop sub ops k2 v s.
Proof using ops_nonempty.
  intros Hsub. induction k1 as [|k1 IH]; intros k2 v s HN H1 H2; [lia|].
  destruct k2 as [|k2]; [lia|]. simpl.
  pose proof (skipWs_length s) as Lw.
  destruct (match_op ops (skipWs s)) as [[f s1]|] eqn:E; [|reflexivity].
  apply match_op_some_length in E; [|exact ops_nonempty].
  destruct (Hsub s1) as [_ Hc]; [lia|].
  destruct (sub s1) as [[r s2]| |] eqn:Es; simpl; try reflexivity.
  specialize (Hc _ _ eq_refl). apply IH; lia. 
Qed.

Lemma bin_loop_skipWs (k : nat) (v : double) (s : text) :
  bin_loop sub ops k v (skipWs s) = bin_loop sub ops k v s.
Proof. destruct k; simpl; [reflexivity|]. now rewrite skipWs_idem. Qed.
End BinLevel.

(** ** The rules are instances of [bin_level] *)

Ltac loop_step IH :=
  lazymatch goal with
  | |- (let '(_, _) := ?e in _) = _ =>
      let b := fresh "b" in let s1 := fresh "s" in let E := fresh "E" in
      destruct e as [b s1] eqn:E; destruct b;
      [ lazymatch goal with
        | |- context [bind (?p s1) _] =>
            destruct (p s1) as [[? ?]| |]; simpl; try reflexivity; apply IH
        end
      | first [ apply matchChar_false in E as [E _]
              | apply matchStr_false in E as [E _] ];
        rewrite skipWs_idem in E; subst s1 ]
  end.

Ltac loop_bin :=
  let k := fresh "k" in let IH := fresh "IH" in
  intros k; induction k as [|k IH]; intros v s; [reflexivity|];
  cbn [factor_loop term_loop comparison_loop equality_loop logical_and_loop
       logical_or_loop bin_loop tier_table tier List.map match_op token];
  rewrite ?matchStr_char;
  repeat loop_step IH; reflexivity.

Section Rules.
Variable u : parser.

Lemma factor_loop_bin : forall k v s,
  factor_loop u k v s = bin_loop u (tier_table 6) k v s.
Proof. loop_bin. Qed.

Lemma term_loop_bin : forall k v s,
  term_loop u k v s = bin_loop (factor u) (tier_table 5) k v s.
Proof. loop_bin. Qed.

Lemma comparison_loop_bin : forall k v s,
  comparison_loop u k v s = bin_loop (term u) (tier_table 4) k v s.
Proof. loop_bin. Qed.

Lemma equality_loop_bin : forall k v s,
  equality_loop u k v s = bin_loop (comparison u) (tier_table 3) k v s.
Proof. loop_bin. Qed.

Lemma logical_and_loop_bin : forall k v s,
  logical_and_loop u k v s = bin_loop (equality u) (tier_table 2) k v s.
Proof. loop_bin. Qed.

Lemma logical_or_loop_bin : forall k v s,
  logical_or_loop u k v s = bin_loop (logical_and u) (tier_table 1) k v s.
Proof. loop_bin. Qed.

(** The rule of tier [L] applies the rule of the next tier and folds
    the operators of its own tier. *)
Lemma level_parser_bin (L : nat) (s : text) :
  1 <= L <= 6 ->
  level_parser L u s = bin_level (level_parser (S L) u) (tier_table L) s.
Proof.
  intros HL. unfold bin_level.
  assert (L = 1 \/ L = 2 \/ L = 3 \/ L = 4 \/ L = 5 \/ L = 6) as H by lia.
  destruct H as [->|[->|[->|[->|[->| ->]]]]]; cbn [level_parser];
    [ unfold logical_or | unfold logical_and | unfold equality
    | unfold comparison | unfold term | unfold factor ];
    match goal with
    | |- bind ?r _ = _ => destruct r as [[v s1]| |]; cbn [bind]; try reflexivity
    end.
  - apply logical_or_loop_bin.
  - apply logical_and_loop_bin.
  - apply equality_loop_bin.
  - apply comparison_loop_bin.
  - apply term_loop_bin.
  - apply factor_loop_bin.
Qed.

Lemma level_parser_top (L : nat) : 7 <= L -> level_parser L u = u.
Proof.
  intros HL. do 7 (destruct L as [|L]; [lia|]). reflexivity.
Qed.

Lemma level_parser_progress (N : nat) :
  progresses N u -> forall L, progresses N (level_parser L u).
Proof.
  intros Hu L.
  assert (forall d L, 7 <= L + d -> progresses N (level_parser L u)) as H.
  { clear L. induction d as [|d IH]; intros L HL.
    - rewrite level_parser_top by lia. exact Hu.
    - destruct (Nat.le_gt_cases 7 L) as [H7|H7].
      + rewrite level_parser_top by lia. exact Hu.
      + destruct L as [|L]; [exact Hu|].
        intros s Hs. rewrite level_parser_bin by lia.
        refine (bin_level_progress _ _ (tier_table_nonempty _) N _ s Hs).
        apply IH. lia. }
  apply (H 7). lia.
Qed.
End Rules.

Lemma parseIdentifier_app (s id s' : text) :
  parseIdentifier s = (id, s') -> skipWs s = id ++ s'.
Proof.
  unfold parseIdentifier. destruct (skipWs s) as [|c r]; intros H.
  - now inversion H.
  - destruct (is_ident_start c); inversion H; subst; [|reflexivity].
    simpl. now rewrite take_drop_while.
Qed.

Lemma scan_exponent_app (s ex s' : text) :
  scan_exponent s = (ex, s') -> s = ex ++ s'.
Proof.
  unfold scan_exponent. destruct s as [|c s1]; intros H; [now inversion H|].
  destruct (Ascii.eqb c "e" || Ascii.eqb c "E"); [|now inversion H].
  destruct s1 as [|x t].
  - simpl in H. now inversion H.
  - destruct (Ascii.eqb x "+" || Ascii.eqb x "-").
    + destruct (is_empty (take_while isdigit t)); inversion H; subst; [reflexivity|].
      simpl. now rewrite take_drop_while.
    + destruct (is_empty (take_while isdigit (x :: t))); inversion H; subst;
        [reflexivity|].
      cbn [app]. f_equal. exact (eq_sym (take_drop_while isdigit (x :: t))).
Qed.

Lemma scan_pieces (a b c d s s1 s2 s3 s4 : text) :
  s = a ++ s1 -> s1 = b ++ s2 -> s2 = c ++ s3 -> s3 = d ++ s4 ->
  s = (a ++ b ++ c ++ d) ++ s4.
Proof. intros -> -> -> ->. now rewrite <- !app_assoc. Qed.

Lemma scan_number_app (s lit s' : text) (saw : bool) :
  scan_number s = (lit, saw, s') -> s = lit ++ s'.
Proof.
  unfold scan_number. destruct s as [|c s0]; intros H; [now inversion H|].
  destruct (Ascii.eqb c "." || isdigit c); [|now inversion H].
  destruct (Ascii.eqb c ".") eqn:Ec.
  - apply Ascii.eqb_eq in Ec. subst c.
    destruct (drop_while isdigit s0) as [|x s2'] eqn:Ed.
    + destruct (scan_exponent []) as [ex s4] eqn:Ee.
      apply scan_exponent_app in Ee. injection H as <- <- <-.
      apply (scan_pieces "." _ [] ex _ s0 [] []); try reflexivity; try assumption.
      pose proof (take_drop_while isdigit s0) as T. rewrite Ed in T. symmetry. exact T.
    + destruct (Ascii.eqb x ".") eqn:Ex.
      * apply Ascii.eqb_eq in Ex. subst x.
        destruct (scan_exponent (drop_while isdigit s2')) as [ex s4] eqn:Ee.
        apply scan_exponent_app in Ee. injection H as <- <- <-.
        apply (scan_pieces "." _ ("."%char :: take_while isdigit s2') ex _ s0
                 ("."%char :: s2') (drop_while isdigit s2'));
          try reflexivity; try assumption.
        -- pose proof (take_drop_while isdigit s0) as T. rewrite Ed in T. symmetry. exact T.
        -- cbn [app]. f_equal. symmetry. apply take_drop_while.
      * destruct (scan_exponent (x :: s2')) as [ex s4] eqn:Ee.
        apply scan_exponent_app in Ee. injection H as <- <- <-.
        apply (scan_pieces "." _ [] ex _ s0 (x :: s2') (x :: s2'));
          try reflexivity; try assumption.
        pose proof (take_drop_while isdigit s0) as T. rewrite Ed in T. symmetry. exact T.
  - destruct (drop_while isdigit (c :: s0)) as [|x s2'] eqn:Ed.
    + destruct (scan_exponent []) as [ex s4] eqn:Ee.
      apply scan_exponent_app in Ee. injection H as <- <- <-.
      apply (scan_pieces [] _ [] ex _ (c :: s0) [] []); try reflexivity; try assumption.
      pose proof (take_drop_while isdigit (c :: s0)) as T. rewrite Ed in T. symmetry. exact T.
    + destruct (Ascii.eqb x ".") eqn:Ex.
      * apply Ascii.eqb_eq in Ex. subst x.
        destruct (scan_exponent (drop_while isdigit s2')) as [ex s4] eqn:Ee.
        apply scan_exponent_app in Ee. injection H as <- <- <-.
        apply (scan_pieces [] _ ("."%char :: take_while isdigit s2') ex _ (c :: s0)
                 ("."%char :: s2') (drop_while isdigit s2'));
          try reflexivity; try assumption.
        -- pose proof (take_drop_while isdigit (c :: s0)) as T. rewrite Ed in T. symmetry. exact T.
        -- cbn [app]. f_equal. symmetry. apply take_drop_while.
      * destruct (scan_exponent (x :: s2')) as [ex s4] eqn:Ee.
        apply scan_exponent_app in Ee. injection H as <- <- <-.
        apply (scan_pieces [] _ [] ex _ (c :: s0) (x :: s2') (x :: s2'));
          try reflexivity; try assumption.
        pose proof (take_drop_while isdigit (c :: s0)) as T. rewrite Ed in T. symmetry. exact T.
Qed.

Section Progress.
Variable M : platform.
Variable vars : gmap text double.
Variable errPrefix : text.

Lemma stod_not_stuck (lit : text) : stod lit <> Stuck.
Proof.
  unfold stod. destruct (strtod_parse lit) as [[m e]|]; [|discriminate].
  destruct (range_error _ _ _); discriminate.
Qed.

Lemma parseNumber_progress (s : text) :
  parseNumber errPrefix s <> Stuck /\
  forall v s', parseNumber errPrefix s = Ok (v, s') -> length s' < length s.
Proof.
  unfold parseNumber.
  destruct (scan_number (skipWs s)) as [[lit saw] s1] eqn:E.
  apply scan_number_app in E.
  destruct (is_empty lit || negb saw) eqn:El; [split; [discriminate|easy]|].
  apply orb_false_iff in El as [El _]. apply is_empty_false in El.
  pose proof (stod_not_stuck lit) as Hs.
  destruct (stod lit) as [v| |]; simpl; [| split; [discriminate|easy] | congruence].
  split; [discriminate|]. intros v' s' H. inversion H; subst.
  pose proof (skipWs_length s) as L. rewrite E, length_app in L.
  destruct lit; [congruence|]. simpl in L. lia.
Qed.

Lemma callFunction_not_stuck (name : text) (args : list double) (s : text) :
  callFunction M errPrefix name args s <> Stuck.
Proof.
  unfold callFunction, fail.
  repeat (match goal with
          | |- context [if ?b then _ else _] => destruct b
          | |- context [match ?l with [] => _ | _ :: _ => _ end] => destruct l
          end; try discriminate).
Qed.

Section PrimaryProgress.
Variable e : parser.
Variable N : nat.
Hypothesis e_progresses : progresses N e.

Lemma args_loop_progress : forall k args s,
  length s < N -> length s < k ->
  args_loop errPrefix e k args s <> Stuck /\
  forall a s', args_loop errPrefix e k args s = Ok (a, s') -> length s' < length s.
Proof using e_progresses.
  induction k as [|k IH]; intros args s HN Hk; [lia|]. simpl.
  destruct (e_progresses s HN) as [Hns Hc].
  destruct (e s) as [[a s1]| |] eqn:Ee; cbn [bind]; [| easy | congruence].
  specialize (Hc _ _ eq_refl).
  rewrite matchChar_skipWs.
  destruct (matchChar ")" s1) as [[] s2] eqn:E1.
  - apply matchChar_true_length in E1. split; [discriminate|].
    intros a' s' H. inversion H; subst. lia.
  - apply matchChar_false_length in E1.
    destruct (matchChar "," s2) as [[] s3] eqn:E2.
    + apply matchChar_true_length in E2.
      destruct (IH (args ++ [a]) s3) as [H1 H2]; [lia | lia |].
      split; [exact H1|]. intros a' s' H. specialize (H2 _ _ H). lia.
    + split; [discriminate|easy].
Qed.

Lemma primary_progress (s : text) :
  length s <= N ->
  primary M vars errPrefix e s <> Stuck /\
  forall v s', primary M vars errPrefix e s = Ok (v, s') -> length s' < length s.
Proof using e_progresses.
  intros HN. unfold primary. rewrite matchChar_skipWs.
  destruct (matchChar "(" s) as [[] s1] eqn:E1.
  - apply matchChar_true_length in E1.
    destruct (e_progresses s1) as [Hns Hc]; [lia|].
    destruct (e s1) as [[v s2]| |] eqn:Ee; cbn [bind]; [| easy | congruence].
    specialize (Hc _ _ eq_refl).
    destruct (matchChar ")" s2) as [[] s3] eqn:E2; [|split; [discriminate|easy]].
    apply matchChar_true_length in E2. split; [discriminate|].
    intros v' s' H. inversion H; subst. lia.
  - apply matchChar_false in E1 as [-> _].
    unfold peek. rewrite skipWs_idem.
    pose proof (skipWs_length s) as Lw.
    destruct (skipWs s) as [|c r] eqn:Es.
    { simpl. split; [discriminate|easy]. }
    destruct (isalpha c || Ascii.eqb c "_") eqn:Ea.
    + destruct (parseIdentifier (c :: r)) as [id s2] eqn:Ei.
      assert (length s2 < length (c :: r)) as Lid.
      { pose proof (parseIdentifier_app _ _ _ Ei) as Hi.
        unfold parseIdentifier in Ei. rewrite <- Es, skipWs_idem, Es in Ei.
        unfold is_ident_start in Ei. rewrite Ea in Ei. inversion Ei; subst.
        simpl. pose proof (drop_while_length is_ident_char r). lia. }
      rewrite matchChar_skipWs.
      destruct (matchChar "(" s2) as [[] s3] eqn:E2.
      * apply matchChar_true_length in E2. rewrite matchChar_skipWs.
        destruct (matchChar ")" s3) as [[] s4] eqn:E3.
        -- apply matchChar_true_length in E3.
           pose proof (callFunction_not_stuck id [] s4) as Hcf.
           destruct (callFunction M errPrefix id [] s4); cbn [bind];
             [| split; [discriminate|easy] | congruence].
           split; [discriminate|]. intros v' s' H. inversion H; subst.
           simpl in *. lia.
        -- apply matchChar_false_length in E3.
           destruct (args_loop_progress (S (length s4)) [] s4) as [H1 H2];
             [simpl in *; lia | lia |].
           destruct (args_loop errPrefix e (S (length s4)) [] s4) as [[a s5]| |] eqn:Eal;
             cbn [bind]; [| split; [discriminate|easy] | congruence].
           specialize (H2 _ _ eq_refl).
           pose proof (callFunction_not_stuck id a s5) as Hcf.
           destruct (callFunction M errPrefix id a s5); cbn [bind];
             [| split; [discriminate|easy] | congruence].
           split; [discriminate|]. intros v' s' H. inversion H; subst.
           simpl in *. lia.
      * apply matchChar_false_length in E2.
        destruct (vars !! id); [|split; [discriminate|easy]].
        split; [discriminate|]. intros v' s' H. inversion H; subst.
        simpl in *. lia.
    + destruct (isdigit c || Ascii.eqb c ".").
      * destruct (parseNumber_progress (c :: r)) as [H1 H2].
        split; [exact H1|]. intros v' s' H. specialize (H2 _ _ H).
        simpl in *. lia.
      * split; [discriminate|easy].
Qed.
End PrimaryProgress.

Lemma unary_progress (n : nat) : progresses n (unary M vars errPrefix n).
Proof.
  induction n as [|n IH]; intros s Hs; [lia|].
  cbn [unary]. rewrite matchChar_skipWs.
  destruct (matchChar "+" s) as [[] s1] eqn:E1.
  { apply matchChar_true_length in E1.
    destruct (IH s1) as [H1 H2]; [lia|]. split; [exact H1|].
    intros v s' H. specialize (H2 _ _ H). lia. }
  apply matchChar_false in E1 as [-> _]. rewrite matchChar_skipWs.
  destruct (matchChar "-" s) as [[] s1] eqn:E2.
  { apply matchChar_true_length in E2.
    destruct (IH s1) as [H1 H2]; [lia|].
    destruct (unary M vars errPrefix n s1) as [[v s2]| |]; cbn [bind];
      [| split; [discriminate|easy] | congruence].
    specialize (H2 _ _ eq_refl). split; [discriminate|].
    intros v' s' H. inversion H; subst. lia. }
  apply matchChar_false in E2 as [-> _]. rewrite matchChar_skipWs.
  destruct (matchChar "!" s) as [[] s1] eqn:E3.
  { apply matchChar_true_length in E3.
    destruct (IH s1) as [H1 H2]; [lia|].
    destruct (unary M vars errPrefix n s1) as [[v s2]| |]; cbn [bind];
      [| split; [discriminate|easy] | congruence].
    specialize (H2 _ _ eq_refl). split; [discriminate|].
    intros v' s' H. inversion H; subst. lia. }
  apply matchChar_false in E3 as [-> _].
  destruct (primary_progress (expr (unary M vars errPrefix n)) n
              (level_parser_progress _ n IH 1) (skipWs s)) as [H1 H2].
  { pose proof (skipWs_length s). lia. }
  split; [exact H1|]. intros v s' H. specialize (H2 _ _ H).
  pose proof (skipWs_length s). lia.
Qed.

Lemma eval_not_stuck (s : text) : eval M vars errPrefix s <> Stuck.
Proof.
  unfold eval.
  destruct (level_parser_progress _ _ (unary_progress (S (length s))) 1 s) as [H1 _];
    [lia|].
  change (level_parser 1 (unary M vars errPrefix (S (length s))) s)
    with (expr (unary M vars errPrefix (S (length s))) s) in H1.
  destruct (expr (unary M vars errPrefix (S (length s))) s) as [[v s']| |];
    cbn [bind]; [| discriminate | congruence].
  destruct (is_empty (skipWs s')); discriminate.
Qed.
End Progress.

(** The evaluation of an expression returns a value or throws. *)
Lemma evalExpr_not_stuck (M : platform) (vars : gmap text double) (e prefix : text) :
  evalExpr M vars e prefix <> Stuck.
Proof. apply eval_not_stuck. Qed.

Lemma evalExpr_cases (M : platform) (vars : gmap text double) (e prefix : text) :
  (exists v, evalExpr M vars e prefix = Ok v) \/
  (exists what, evalExpr M vars e prefix = Throw what).
Proof.
  pose proof (evalExpr_not_stuck M vars e prefix).
  destruct (evalExpr M vars e prefix); [left | right | congruence]; eauto.
Qed.

(** ** Streams and blocks *)

Lemma read_line_spec (s : text) :
  let '(l, r) := read_line s in
  (s = l ++ nl :: r \/ (s = l /\ r = [])) /\ forallb (fun c => negb (Ascii.eqb c nl)) l = true.
Proof.
  induction s as [|c s IH]; simpl.
  - split; [right|]; easy.
  - destruct (Ascii.eqb c nl) eqn:E.
    + apply Ascii.eqb_eq in E. subst c. split; [left|]; easy.
    + destruct (read_line s) as [l r]. destruct IH as [[->|[-> ->]] Hl]; simpl;
        rewrite E, Hl; split; auto.
Qed.

Lemma getline_spec (s line stream : text) :
  getline s = Some (line, stream) ->
  s <> [] /\ (s = line ++ nl :: stream \/ (s = line /\ stream = [])).
Proof.
  unfold getline. destruct s as [|c s]; [discriminate|].
  pose proof (read_line_spec (c :: s)) as R.
  destruct (read_line (c :: s)) as [l r].
  intros H. injection H as <- <-. split; [discriminate|]. apply R.
Qed.

Lemma getline_length (s line stream : text) :
  getline s = Some (line, stream) -> length stream < length s.
Proof.
  intros [Hne [->|[-> ->]]]%getline_spec.
  - rewrite length_app. simpl. lia.
  - destruct line; [congruence|]. simpl. lia.
Qed.

Lemma read_line_no_nl (l r : text) :
  forallb (fun c => negb (Ascii.eqb c nl)) l = true ->
  read_line (l ++ nl :: r) = (l, r).
Proof.
  induction l as [|c l IH]; simpl; intros H.
  - reflexivity.
  - apply andb_true_iff in H as [Hc Hl]. apply negb_true_iff in Hc.
    rewrite Hc, (IH Hl). reflexivity.
Qed.

Lemma getline_line (l r : text) :
  forallb (fun c => negb (Ascii.eqb c nl)) l = true ->
  getline (l ++ nl :: r) = Some (l, r).
Proof.
  intros H. unfold getline. rewrite read_line_no_nl by exact H.
  destruct l; reflexivity.
Qed.

Lemma readBlock_loop_length : forall k block stream b r,
  readBlock_loop k block stream = (b, r) ->
  length r <= length stream /\
  (stream = [] -> b = block) /\
  length b <= length block + length stream + 1.
Proof.
  induction k as [|k IH]; intros block stream b r H; simpl in H.
  - injection H as <- <-. split; [|split]; [lia | auto | lia].
  - destruct (getline stream) as [[l s']|] eqn:G.
    + pose proof (getline_length _ _ _ G) as L.
      apply getline_spec in G as [Hne G].
      destruct (text_eqb (trim l) ")").
      * injection H as <- <-. split; [|split]; [lia | congruence | lia].
      * apply IH in H as (H1 & H2 & H3). rewrite !length_app in H3. simpl in H3.
        split; [|split]; [lia | congruence |].
        destruct G as [->|[-> ->]].
        -- rewrite length_app. simpl. lia.
        -- rewrite (H2 eq_refl), !length_app. simpl. lia.
    + injection H as <- <-. split; [|split]; [lia | auto | lia].
Qed.

Lemma readBlock_length (stream b r : text) :
  readBlock stream = (b, r) ->
  length r <= length stream /\
  (stream = [] -> b = []) /\
  length b <= length stream + 1.
Proof. intros H. apply readBlock_loop_length in H. simpl in H. exact H. Qed.

(** ** The budget of [execute] *)

Lemma and_then_ext (o1 o2 : outcome) (k1 k2 : state -> outcome) :
  o1 = o2 -> (forall st, k1 st = k2 st) -> and_then o1 k1 = and_then o2 k2.
Proof. intros -> H. destruct o2; simpl; auto. Qed.

Lemma for_loop_ext (b1 b2 : state -> outcome) (var : text) :
  (forall st, b1 st = b2 st) ->
  forall k i st, for_loop b1 var k i st = for_loop b2 var k i st.
Proof.
  intros H. induction k as [|k IH]; intros i st; simpl; [reflexivity|].
  apply and_then_ext; [apply H | intros; apply IH].
Qed.

Lemma and_then_not_out_of_fuel (o : outcome) (k : state -> outcome) :
  o <> OutOfFuel -> (forall st, k st <> OutOfFuel) -> and_then o k <> OutOfFuel.
Proof. intros H1 H2. destruct o; simpl; auto; congruence. Qed.

Lemma for_loop_not_out_of_fuel (b : state -> outcome) (var : text) :
  (forall st, b st <> OutOfFuel) ->
  forall k i st, for_loop b var k i st <> OutOfFuel.
Proof.
  intros H. induction k as [|k IH]; intros i st; simpl; [discriminate|].
  apply and_then_not_out_of_fuel; [apply H | intros; apply IH].
Qed.

Lemma trim_nonempty (line : text) : trim line <> [] -> line <> [].
Proof. intros H ->. now apply H. Qed.

(** The longest block that can follow [line] in front of [stream]. *)
Lemma block_room (line stream block stream' : text) :
  line <> [] -> readBlock stream = (block, stream') ->
  length block <= match stream with [] => 0 | _ => length line + length stream end.
Proof.
  intros Hl H. apply readBlock_length in H as (_ & H2 & H3).
  destruct stream as [|c s]; [now rewrite H2|].
  destruct line; [congruence|]. simpl in *. lia.
Qed.

Section Budget.
Variable M : platform.

Lemma printNumberNicely_not_out_of_fuel (v : double) (st : state) :
  printNumberNicely v st <> OutOfFuel.
Proof.
  unfold printNumberNicely.
  destruct (dlt _ _); [destruct (cast_long_long _)|]; discriminate.
Qed.

Lemma try_assign_not_out_of_fuel (var expr : text) (st : state) :
  try_assign M var expr st <> OutOfFuel.
Proof.
  unfold try_assign.
  pose proof (evalExpr_not_stuck M (variables (operand_state M var st)) expr
                "Set expr error: ") as H.
  destruct (evalExpr M _ expr "Set expr error: "); try discriminate; congruence.
Qed.

Lemma runLine_not_out_of_fuel (line : text) (st : state) :
  runLine M line st <> OutOfFuel.
Proof.
  unfold runLine.
  repeat (match goal with
          | |- try_assign _ _ _ _ <> _ => apply try_assign_not_out_of_fuel
          | |- context [evalExpr ?a ?b ?c ?d] =>
              let H := fresh in
              pose proof (evalExpr_not_stuck a b c d) as H;
              destruct (evalExpr a b c d)
          | |- printNumberNicely _ _ <> _ => apply printNumberNicely_not_out_of_fuel
          | |- context [let '(_, _) := ?e in _] => destruct e
          | |- context [if ?b then _ else _] => destruct b
          | |- context [match ?x with Some _ => _ | None => _ end] => destruct x
          end; try discriminate; try congruence).
Qed.

Lemma exec_line_ext (e1 e2 c1 c2 : text -> state -> outcome) (line stream : text) :
  (forall s st, length s <= match stream with [] => 0 | _ => length line + length stream end ->
                e1 s st = e2 s st) ->
  (forall s st, length s <= length stream -> c1 s st = c2 s st) ->
  forall st, exec_line M e1 c1 line stream st = exec_line M e2 c2 line stream st.
Proof.
  intros He Hc st. unfold exec_line.
  destruct (is_empty (trim line)) eqn:El; [apply Hc; lia|].
  apply is_empty_false, trim_nonempty in El.
  destruct (starts_with "comment" (trim line)); [apply Hc; lia|].
  destruct (extract (trim line)) as [command ss].
  destruct (text_eqb command "loop").
  { destruct (extract ss) as [varAndCount ss1].
    destruct (find_char ":" varAndCount) as [colonPos|]; [|apply Hc; lia].
    destruct (extract ss1) as [openParen ss2].
    destruct (negb (text_eqb openParen "(")); [apply Hc; lia|].
    destruct (readBlock stream) as [block stream'] eqn:Er.
    pose proof (block_room _ _ _ _ El Er) as Hroom.
    apply readBlock_length in Er as (Hr & _ & _).
    destruct (evalExpr _ _ _ _); [| apply Hc; lia | reflexivity].
    destruct (cast_int _); [|reflexivity].
    apply and_then_ext; [|intros; apply Hc; lia].
    apply for_loop_ext. intros. now apply He. }
  destruct (text_eqb command "if").
  { destruct (splitHeaderAndOpenParen (trim line)); [|apply Hc; lia].
    destruct (readBlock stream) as [block stream'] eqn:Er.
    pose proof (block_room _ _ _ _ El Er) as Hroom.
    apply readBlock_length in Er as (Hr & _ & _).
    destruct (evalExpr _ _ _ _); [| apply Hc; lia | reflexivity].
    destruct (dne a d_zero); [|apply Hc; lia].
    apply and_then_ext; [now apply He | intros; apply Hc; lia]. }
  apply and_then_ext; [reflexivity | intros; apply Hc; lia].
Qed.

Lemma exec_line_not_out_of_fuel (e c : text -> state -> outcome) (line stream : text) :
  (forall s st, length s <= match stream with [] => 0 | _ => length line + length stream end ->
                e s st <> OutOfFuel) ->
  (forall s st, length s <= length stream -> c s st <> OutOfFuel) ->
  forall st, exec_line M e c line stream st <> OutOfFuel.
Proof.
  intros He Hc st. unfold exec_line.
  destruct (is_empty (trim line)) eqn:El; [apply Hc; lia|].
  apply is_empty_false, trim_nonempty in El.
  destruct (starts_with "comment" (trim line)); [apply Hc; lia|].
  destruct (extract (trim line)) as [command ss].
  destruct (text_eqb command "loop").
  { destruct (extract ss) as [varAndCount ss1].
    destruct (find_char ":" varAndCount) as [colonPos|]; [|apply Hc; lia].
    destruct (extract ss1) as [openParen ss2].
    destruct (negb (text_eqb openParen "(")); [apply Hc; lia|].
    destruct (readBlock stream) as [block stream'] eqn:Er.
    pose proof (block_room _ _ _ _ El Er) as Hroom.
    apply readBlock_length in Er as (Hr & _ & _).
    pose proof (evalExpr_not_stuck M (variables st)
      (skipn (colonPos + 1) varAndCount) "Loop count error: ") as Hev.
    destruct (evalExpr _ _ _ _); [| apply Hc; lia | congruence].
    destruct (cast_int _); [|discriminate].
    apply and_then_not_out_of_fuel; [|intros; apply Hc; lia].
    apply for_loop_not_out_of_fuel. intros. now apply He. }
  destruct (text_eqb command "if").
  { destruct (splitHeaderAndOpenParen (trim line)) as [header|]; [|apply Hc; lia].
    destruct (readBlock stream) as [block stream'] eqn:Er.
    pose proof (block_room _ _ _ _ El Er) as Hroom.
    apply readBlock_length in Er as (Hr & _ & _).
    match goal with
    | |- context [evalExpr ?a ?b ?c ?d] =>
        pose proof (evalExpr_not_stuck a b c d) as Hev; destruct (evalExpr a b c d)
    end; [| apply Hc; lia | congruence].
    destruct (dne a d_zero); [|apply Hc; lia].
    apply and_then_not_out_of_fuel; [now apply He | intros; apply Hc; lia]. }
  apply and_then_not_out_of_fuel;
    [apply runLine_not_out_of_fuel | intros; apply Hc; lia].
Qed.

(** What a line leaves for the block and for the rest of the loop. *)
Lemma getline_room (s line stream : text) (n : nat) :
  getline s = Some (line, stream) -> length s < S n ->
  match stream with [] => 0 | _ => length line + length stream end < n
  /\ length stream < n.
Proof.
  intros G Hn. pose proof (getline_length _ _ _ G) as L.
  apply getline_spec in G as [Hne [->|[-> ->]]].
  - rewrite length_app in Hn. simpl in Hn. destruct stream; simpl in *; lia.
  - destruct line; [congruence|]. simpl in *. lia.
Qed.

Lemma exec_loop_budget : forall n m s st,
  length s < n -> length s < m -> exec_loop M n s st = exec_loop M m s st.
Proof.
  induction n as [|n IH]; intros m s st Hn Hm; [lia|].
  destruct m as [|m]; [lia|]. cbn [exec_loop].
  destruct (getline s) as [[line stream]|] eqn:G; [|reflexivity].
  destruct (getline_room _ _ _ n G Hn) as [R1 R2].
  destruct (getline_room _ _ _ m G Hm) as [R3 R4].
  apply exec_line_ext; intros; apply IH; lia.
Qed.

Lemma exec_loop_not_out_of_fuel : forall n s st,
  length s < n -> exec_loop M n s st <> OutOfFuel.
Proof.
  induction n as [|n IH]; intros s st Hn; [lia|]. cbn [exec_loop].
  destruct (getline s) as [[line stream]|] eqn:G; [|discriminate].
  destruct (getline_room _ _ _ n G Hn) as [R1 R2].
  apply exec_line_not_out_of_fuel; intros; apply IH; lia.
Qed.

(** [execute] returns. *)
Lemma execute_not_out_of_fuel (code : text) (st : state) :
  execute M code st <> OutOfFuel.
Proof. apply exec_loop_not_out_of_fuel. lia. Qed.

(** The equations of [execute]. *)
Lemma execute_nil (st : state) : execute M [] st = Done st.
Proof. reflexivity. Qed.

Lemma execute_line (line stream : text) (st : state) :
  forallb (fun c => negb (Ascii.eqb c nl)) line = true ->
  execute M (line ++ nl :: stream) st
  = exec_line M (execute M) (execute M) line stream st.
Proof.
  intros Hl. unfold execute at 1. cbn [exec_loop].
  rewrite (getline_line _ _ Hl).
  assert (getline (line ++ nl :: stream) = Some (line, stream)) as G
    by apply (getline_line _ _ Hl).
  destruct (getline_room _ _ _ (length (line ++ nl :: stream)) G) as [R1 R2]; [lia|].
  apply exec_line_ext; intros; apply exec_loop_budget; lia.
Qed.
End Budget.

(** ** Lines and tokens *)

Lemma ltrim_stops (s : text) : stops isspace s -> ltrim s = s.
Proof. apply drop_while_stops. Qed.

Lemma rtrim_stops (s : text) : stops isspace (rev s) -> rtrim s = s.
Proof.
  intros H. unfold rtrim. rewrite drop_while_stops by exact H. apply rev_involutive.
Qed.

Lemma trim_trimmed (s : text) : trimmed s -> trim s = s.
Proof.
  intros [H1 H2]. unfold trim. rewrite ltrim_stops by exact H1.
  now apply rtrim_stops.
Qed.

Lemma is_ws_rev (w : text) : is_ws w = true -> is_ws (rev w) = true.
Proof.
  unfold is_ws. rewrite !forallb_forall. intros H x Hx. apply H.
  now apply in_rev.
Qed.

Lemma rtrim_ws (s w : text) : is_ws w = true -> rtrim (s ++ w) = rtrim s.
Proof.
  intros H. unfold rtrim. rewrite rev_app_distr.
  now rewrite drop_while_all by (apply is_ws_rev; exact H).
Qed.

Lemma ltrim_ws (w s : text) : is_ws w = true -> ltrim (w ++ s) = ltrim s.
Proof. apply drop_while_all. Qed.

Lemma trimmed_nonempty_app (s w : text) :
  s <> [] -> stops isspace s -> stops isspace (s ++ w).
Proof. destruct s; [congruence|]. intros _ H. exact H. Qed.

(** White space around a trimmed text is dropped. *)
Lemma trim_ws (w1 s w2 : text) :
  is_ws w1 = true -> is_ws w2 = true -> trimmed s -> trim (w1 ++ s ++ w2) = s.
Proof.
  intros H1 H2 [Hs Hr]. unfold trim. rewrite ltrim_ws by exact H1.
  destruct s as [|c s].
  - simpl. unfold ltrim. rewrite <- (app_nil_r w2).
    rewrite drop_while_all by exact H2. reflexivity.
  - rewrite ltrim_stops by exact Hs. rewrite rtrim_ws by exact H2.
    now apply rtrim_stops.
Qed.

Lemma trim_all_ws (w : text) : is_ws w = true -> trim w = [].
Proof.
  intros H. rewrite <- (app_nil_r w). change (w ++ []) with (w ++ [] ++ []).
  rewrite <- (app_nil_r (w ++ [] ++ [])) at 1. 
  pose proof (trim_ws w [] [] H eq_refl (conj I I)) as T. simpl in T.
  rewrite !app_nil_r in *. exact T.
Qed.

Lemma extract_token (w tok rest : text) :
  is_ws w = true -> no_ws tok = true -> tok <> [] -> breaks rest ->
  extract (w ++ tok ++ rest) = (tok, rest).
Proof.
  intros Hw Ht Hne Hr. unfold extract.
  rewrite drop_while_all by exact Hw.
  assert (drop_while isspace (tok ++ rest) = tok ++ rest) as ->.
  { destruct tok as [|c tok]; [congruence|]. simpl in *.
    apply andb_true_iff in Ht as [Hc _]. apply negb_true_iff in Hc.
    now rewrite Hc. }
  rewrite take_while_all, drop_while_all by exact Ht.
  rewrite take_while_stops, drop_while_stops by exact Hr.
  now rewrite app_nil_r.
Qed.

Lemma extract_ws (w : text) : is_ws w = true -> extract w = ([], []).
Proof.
  intros Hw. unfold extract. rewrite <- (app_nil_r w).
  rewrite drop_while_all by exact Hw. reflexivity.
Qed.

Lemma extract_spec (s : text) :
  let '(tok, rest) := extract s in
  no_ws tok = true /\ breaks rest /\ ltrim s = tok ++ rest.
Proof.
  unfold extract. split; [apply take_while_forallb|].
  split; [apply stops_drop_while|]. symmetry. apply take_drop_while.
Qed.

Lemma no_ws_no_nl (t : text) : no_ws t = true -> no_nl t = true.
Proof.
  unfold no_ws, no_nl. rewrite !forallb_forall. intros H x Hx.
  specialize (H x Hx). destruct (Ascii.eqb x nl) eqn:E; [|reflexivity].
  apply Ascii.eqb_eq in E. subst x. discriminate.
Qed.

Lemma no_nl_app (a b : text) : no_nl (a ++ b) = no_nl a && no_nl b.
Proof. apply forallb_app. Qed.

Lemma getline_or_empty_no_nl (s : text) :
  no_nl s = true -> getline_or_empty s = s.
Proof.
  intros H. unfold getline_or_empty, getline. destruct s as [|c s]; [reflexivity|].
  pose proof (read_line_spec (c :: s)) as R.
  destruct (read_line (c :: s)) as [l r]. destruct R as [[R|[R _]] _].
  - rewrite R, no_nl_app in H. apply andb_true_iff in H as [_ H].
    discriminate H.
  - now symmetry.
Qed.

Lemma trimmed_cons_app (c : ascii) (s : text) (x : ascii) :
  isspace c = false -> isspace x = false -> trimmed (c :: s ++ [x]).
Proof.
  intros Hc Hx. split; [exact Hc|].
  change (c :: s ++ [x]) with ((c :: s) ++ [x]). rewrite rev_app_distr. exact Hx.
Qed.

(** A trimmed text that starts with a token. *)
Lemma trimmed_app (a b : text) :
  a <> [] -> b <> [] -> stops isspace a -> stops isspace (rev b) -> trimmed (a ++ b).
Proof.
  intros Ha Hb H1 H2. split.
  - destruct a; [congruence|]. exact H1.
  - rewrite rev_app_distr. destruct (rev b) eqn:E.
    + apply (f_equal (@rev ascii)) in E. rewrite rev_involutive in E. now subst.
    + exact H2.
Qed.

Lemma rtrim_split (s : text) :
  exists w, is_ws w = true /\ s = rtrim s ++ w.
Proof.
  exists (rev (take_while isspace (rev s))). split.
  - apply is_ws_rev, take_while_forallb.
  - unfold rtrim. rewrite <- rev_app_distr, take_drop_while. symmetry. apply rev_involutive.
Qed.

Lemma trimmed_trim (s : text) : trimmed (trim s).
Proof.
  unfold trim. split.
  - destruct (rtrim_split (ltrim s)) as (w & _ & E).
    pose proof (stops_drop_while isspace s) as H. fold (ltrim s) in H.
    rewrite E in H. destruct (rtrim (ltrim s)); [exact I | exact H].
  - unfold rtrim. rewrite rev_involutive. apply stops_drop_while.
Qed.

Lemma trim_idem (s : text) : trim (trim s) = trim s.
Proof. apply trim_trimmed, trimmed_trim. Qed.

Lemma first_token_prefix (line : text) :
  exists r, trim line = first_token line ++ r.
Proof.
  unfold first_token. pose proof (extract_spec (trim line)) as H.
  destruct (extract (trim line)) as [tok rest]. destruct H as (_ & _ & H).
  rewrite ltrim_stops in H by apply trimmed_trim. now exists rest.
Qed.

Section Lines.
Variable M : platform.

(** The lines that are not [loop] or [if] statements go to [runLine]. *)
Lemma exec_line_other (e c : text -> state -> outcome) (line stream : text) (st : state) :
  trim line <> [] -> starts_with "comment" (trim line) = false ->
  first_token line <> "loop" -> first_token line <> "if" ->
  exec_line M e c line stream st = and_then (runLine M (trim line) st) (c stream).
Proof.
  intros Hne Hc Hl Hi. unfold exec_line.
  apply is_empty_false in Hne. rewrite Hne, Hc.
  unfold first_token in Hl, Hi. destruct (extract (trim line)) as [command ss].
  simpl in Hl, Hi. apply text_eqb_neq in Hl, Hi. now rewrite Hl, Hi.
Qed.

Lemma runLine_unknown (line : text) (st : state) :
  trim line <> [] -> starts_with "comment" (trim line) = false ->
  first_token line <> "print" -> first_token line <> "set" ->
  first_token line <> "add" ->
  runLine M (trim line) st
  = Done (emit ("Unknown command: " ++ first_token line) st).
Proof.
  intros Hne Hc Hp Hs Ha. unfold runLine. rewrite trim_idem.
  apply is_empty_false in Hne. rewrite Hne, Hc.
  unfold first_token in *. destruct (extract (trim line)) as [command ss].
  simpl in *. apply text_eqb_neq in Hp, Hs, Ha. now rewrite Hp, Hs, Ha.
Qed.

(** C7, as the code has it: a line is skipped as a comment when its
    trimmed text begins with the characters [comment] (which a line
    whose first token is the word [comment] does); a line that does not
    begin so and whose first token is none of [print], [set], [add],
    [loop], [if] yields the message [Unknown command: ] followed by that
    token, and the run goes on with the next line. *)
Theorem comment_prefix_or_unknown_command (line rest : text) (st : state) :
  no_nl line = true -> trim line <> [] ->
  (first_token line = "comment" -> starts_with "comment" (trim line) = true) /\
  (starts_with "comment" (trim line) = true ->
     execute M (line ++ nl :: rest) st = execute M rest st) /\
  (starts_with "comment" (trim line) = false ->
     ~ In (first_token line) ["print"; "set"; "add"; "loop"; "if"] ->
     execute M (line ++ nl :: rest) st
     = execute M rest (emit ("Unknown command: " ++ first_token line) st)).
Proof.
  intros Hnl Hne. split; [|split].
  - intros Hf. destruct (first_token_prefix line) as [r Hr].
    rewrite Hr, Hf. apply starts_with_app.
  - intros Hc. rewrite execute_line by exact Hnl. unfold exec_line.
    apply is_empty_false in Hne. now rewrite Hne, Hc.
  - intros Hc Hn. rewrite execute_line by exact Hnl.
    rewrite exec_line_other; try assumption.
    + rewrite runLine_unknown; try assumption; try reflexivity.
      all: intros E; apply Hn; rewrite E; simpl; tauto.
    + intros E; apply Hn; rewrite E; simpl; tauto.
    + intros E; apply Hn; rewrite E; simpl; tauto.
Qed.
End Lines.

Lemma comment_prefix_or_unknown_command_witness :
  no_nl "foo bar" = true /\ trim "foo bar" <> [] /\
  execute value_first_build ("foo bar" ++ [nl]) initial
  = execute value_first_build [] (emit ("Unknown command: " ++ first_token "foo bar") initial).
Proof.
  split; [reflexivity|]. split; [discriminate|].
  refine (proj2 (proj2 (comment_prefix_or_unknown_command value_first_build "foo bar" [] initial
                          eq_refl _)) eq_refl _).
  - discriminate.
  - cbv. intuition discriminate.
Defined.

(** C7, as stated, fails: the first token of the line [commentary] is not
    [comment] (nor a command), and yet the line is skipped without any
    message. *)
Lemma commentary_is_skipped :
  first_token "commentary" <> "comment" /\
  ~ In (first_token "commentary") ["print"; "set"; "add"; "loop"; "if"; "comment"] /\
  execute value_first_build (script ["commentary"]) initial = Done initial.
Proof.
  split; [discriminate|]. split; [|reflexivity].
  cbv. intuition discriminate.
Qed.

(** ** Loop headers and blocks *)

Lemma find_char_app (c : ascii) (a b : text) :
  find_char c a = None -> find_char c (a ++ c :: b) = Some (length a).
Proof.
  induction a as [|x a IH]; simpl; intros H.
  - now rewrite Ascii.eqb_refl.
  - destruct (Ascii.eqb x c); [discriminate|].
    destruct (find_char c a); [discriminate|]. now rewrite IH.
Qed.

Lemma find_char_some (c : ascii) (s : text) (n : nat) :
  find_char c s = Some n ->
  find_char c (firstn n s) = None /\ s = firstn n s ++ c :: skipn (n + 1) s.
Proof.
  revert n. induction s as [|x s IH]; simpl; intros n H; [discriminate|].
  destruct (Ascii.eqb x c) eqn:E.
  - injection H as <-. apply Ascii.eqb_eq in E. now subst.
  - destruct (find_char c s) as [m|]; [|discriminate]. injection H as <-.
    destruct (IH m eq_refl) as [H1 H2]. simpl. rewrite E, H1. split; [reflexivity|].
    now f_equal.
Qed.

Lemma no_ws_app (a b : text) : no_ws (a ++ b) = no_ws a && no_ws b.
Proof. apply forallb_app. Qed.

Lemma is_ws_app (a b : text) : is_ws (a ++ b) = is_ws a && is_ws b.
Proof. apply forallb_app. Qed.

Lemma breaks_ws (w s : text) : is_ws w = true -> w <> [] -> breaks (w ++ s).
Proof.
  destruct w as [|c w]; [congruence|]. simpl. intros H _.
  apply andb_true_iff in H as [H _]. unfold breaks. simpl. now rewrite H.
Qed.

Lemma extract_skip (w s : text) : is_ws w = true -> extract (w ++ s) = extract s.
Proof. intros H. unfold extract. now rewrite drop_while_all by exact H. Qed.

Lemma first_token_trimmed (e : text) : trimmed e -> first_token e = fst (extract e).
Proof. intros H. unfold first_token. now rewrite trim_trimmed. Qed.

Lemma script_cons (l : text) (ls : list text) : script (l :: ls) = l ++ nl :: script ls.
Proof. unfold script. simpl. now rewrite <- app_assoc. Qed.

Lemma readBlock_loop_script (cl rest : text) :
  no_nl cl = true -> trim cl = ")" ->
  forall body k acc,
    Forall (fun l => no_nl l = true /\ trim l <> ")") body ->
    length body < k ->
    readBlock_loop k acc (script body ++ cl ++ nl :: rest) = (acc ++ script body, rest).
Proof.
  intros Hcl Ht. induction body as [|l body IH]; intros k acc HF Hk.
  - destruct k as [|k]; [simpl in Hk; lia|]. cbn [script concat List.map app readBlock_loop].
    rewrite (getline_line _ _ Hcl), Ht. simpl. now rewrite app_nil_r.
  - destruct k as [|k]; [simpl in Hk; lia|]. inversion HF as [|? ? [Hl Hn] HF']; subst.
    rewrite script_cons, <- app_assoc. cbn [readBlock_loop app].
    rewrite (getline_line _ _ Hl). apply text_eqb_neq in Hn. rewrite Hn.
    rewrite IH by (simpl in Hk; auto; lia).
    now rewrite <- !app_assoc.
Qed.

Lemma script_length (body : list text) : length body <= length (script body).
Proof.
  induction body as [|l body IH]; [simpl; lia|].
  rewrite script_cons, length_app. simpl. lia.
Qed.

(** The block ends at the first line whose trimmed text is [")"]. *)
Lemma readBlock_script (body : list text) (cl rest : text) :
  Forall (fun l => no_nl l = true /\ trim l <> ")") body ->
  no_nl cl = true -> trim cl = ")" ->
  readBlock (script body ++ cl ++ nl :: rest) = (script body, rest).
Proof.
  intros HF Hcl Ht. unfold readBlock.
  rewrite (readBlock_loop_script cl rest Hcl Ht body _ [] HF); [reflexivity|].
  pose proof (script_length body). rewrite !length_app. simpl. lia.
Qed.



Lemma first_token_loop_no_comment (line : text) :
  first_token line = "loop" ->
  trim line <> [] /\ starts_with "comment" (trim line) = false.
Proof.
  intros H. destruct (first_token_prefix line) as [r Hr]. rewrite H in Hr.
  rewrite Hr. split; [discriminate | reflexivity].
Qed.

Section LoopHeader.
Variable M : platform.

Lemma exec_line_loop_no_colon (e c : text -> state -> outcome)
    (line stream : text) (st : state) :
  first_token line = "loop" -> find_char ":" (second_token line) = None ->
  exec_line M e c line stream st
  = c stream (emit "Syntax error: loop expects var:count" st).
Proof.
  intros Hf Hc. destruct (first_token_loop_no_comment _ Hf) as [Hne Hcm].
  unfold exec_line. apply is_empty_false in Hne. rewrite Hne, Hcm.
  unfold first_token, second_token in *.
  destruct (extract (trim line)) as [command ss]. cbn [fst snd] in *. subst command.
  cbn [text_eqb Ascii.eqb Bool.eqb andb]. 
  destruct (extract ss) as [varAndCount ss1]. cbn [fst snd] in Hc. now rewrite Hc.
Qed.

Lemma exec_line_loop_no_paren (e c : text -> state -> outcome)
    (line stream : text) (st : state) :
  first_token line = "loop" -> find_char ":" (second_token line) <> None ->
  third_token line <> "(" ->
  exec_line M e c line stream st = c stream (emit "Syntax error: expected (" st).
Proof.
  intros Hf Hc Ht. destruct (first_token_loop_no_comment _ Hf) as [Hne Hcm].
  unfold exec_line. apply is_empty_false in Hne. rewrite Hne, Hcm.
  unfold first_token, second_token, third_token in *.
  destruct (extract (trim line)) as [command ss]. cbn [fst snd] in *. subst command.
  cbn [text_eqb Ascii.eqb Bool.eqb andb].
  destruct (extract ss) as [varAndCount ss1]. cbn [fst snd] in *.
  destruct (find_char ":" varAndCount); [|congruence].
  destruct (extract ss1) as [openParen ss2]. cbn [fst snd] in Ht.
  apply text_eqb_neq in Ht. now rewrite Ht.
Qed.

Lemma exec_line_loop (e c : text -> state -> outcome)
    (line stream block stream' : text) (st : state) (n : nat) :
  first_token line = "loop" -> find_char ":" (second_token line) = Some n ->
  third_token line = "(" -> readBlock stream = (block, stream') ->
  exec_line M e c line stream st
  = match evalExpr M (variables st) (skipn (n + 1) (second_token line))
            "Loop count error: " with
    | Throw what => c stream' (emit what st)
    | Stuck => OutOfFuel
    | Ok v =>
        match cast_int (dfloor v) with
        | None => Undefined
        | Some count =>
            and_then (for_loop (e block) (firstn n (second_token line))
                        (Z.to_nat count) 0%Z st)
                     (c stream')
        end
    end.
Proof.
  intros Hf Hc Ht Hr. destruct (first_token_loop_no_comment _ Hf) as [Hne Hcm].
  unfold exec_line. apply is_empty_false in Hne. rewrite Hne, Hcm.
  unfold first_token, second_token, third_token in *.
  destruct (extract (trim line)) as [command ss]. cbn [fst snd] in *. subst command.
  cbn [text_eqb Ascii.eqb Bool.eqb andb].
  destruct (extract ss) as [varAndCount ss1]. cbn [fst snd] in *. rewrite Hc.
  destruct (extract ss1) as [openParen ss2]. cbn [fst snd] in Ht. subst openParen.
  cbn [text_eqb Ascii.eqb Bool.eqb andb negb]. now rewrite Hr.
Qed.
End LoopHeader.

(** The tokens of a loop header [loop var:ce ...]. *)
Lemma loop_header_tokens (indent w1 var ce w2 more trail : text) :
  is_ws indent = true -> is_ws w1 = true -> w1 <> [] ->
  no_ws var = true -> no_ws ce = true ->
  is_ws w2 = true -> w2 <> [] -> trimmed more -> more <> [] ->
  is_ws trail = true ->
  let line := indent ++ "loop" ++ w1 ++ var ++ ":" ++ ce ++ w2 ++ more ++ trail in
  first_token line = "loop" /\
  second_token line = var ++ ":" ++ ce /\
  third_token line = first_token more.
Proof.
  intros Hi H1 N1 Hv Hce H2 N2 Hm Nm Htr line.
  assert (trim line = "loop" ++ w1 ++ var ++ ":" ++ ce ++ w2 ++ more) as Ht.
  { unfold line.
    replace (indent ++ "loop" ++ w1 ++ var ++ ":" ++ ce ++ w2 ++ more ++ trail)
      with (indent ++ ("loop" ++ w1 ++ var ++ ":" ++ ce ++ w2 ++ more) ++ trail)
      by (now rewrite <- !app_assoc).
    apply trim_ws; try assumption.
    replace ("loop" ++ w1 ++ var ++ ":" ++ ce ++ w2 ++ more)
      with (("loop" ++ w1 ++ var ++ ":" ++ ce ++ w2) ++ more)
      by (now rewrite <- !app_assoc).
    apply trimmed_app; try assumption; [discriminate | reflexivity | apply Hm]. }
  unfold first_token, second_token, third_token. rewrite Ht.
  pose proof (extract_token [] "loop" (w1 ++ var ++ ":" ++ ce ++ w2 ++ more)
                eq_refl eq_refl ltac:(discriminate) (breaks_ws _ _ H1 N1)) as E1.
  cbn [app] in E1. cbn [app]. rewrite E1. cbn [fst snd].
  assert (extract (w1 ++ var ++ ":" ++ ce ++ w2 ++ more)
          = (var ++ ":" ++ ce, w2 ++ more)) as E2.
  { replace (w1 ++ var ++ ":" ++ ce ++ w2 ++ more)
      with (w1 ++ (var ++ ":" ++ ce) ++ (w2 ++ more))
      by (now rewrite <- !app_assoc).
    apply extract_token; try assumption.
    - rewrite !no_ws_app, Hv, Hce. reflexivity.
    - destruct var; discriminate.
    - now apply breaks_ws. }
  cbn [app] in E2. rewrite E2. cbn [fst snd]. rewrite extract_skip by exact H2.
  rewrite trim_trimmed by exact Hm. repeat split; reflexivity.
Qed.

Lemma find_char_mid (c : ascii) (a b : text) : find_char c (a ++ c :: b) <> None.
Proof.
  induction a as [|x a IH]; simpl.
  - now rewrite Ascii.eqb_refl.
  - destruct (Ascii.eqb x c); [discriminate|].
    destruct (find_char c (a ++ c :: b)); [discriminate | congruence].
Qed.

Lemma for_loop_zero (body : state -> outcome) (var : text) (i : Z) (st : state) :
  for_loop body var 0 i st = Done st.
Proof. reflexivity. Qed.

Lemma for_loop_succ (body : state -> outcome) (var : text) (k : nat) (i : Z) (st : state) :
  for_loop body var (S k) i st
  = and_then (body (set_var var (double_of_int i) st)) (for_loop body var k (i + 1)%Z).
Proof. reflexivity. Qed.

(** The last round of a loop. *)
Lemma for_loop_last (body : state -> outcome) (var : text) :
  forall k i st,
    for_loop body var (S k) i st
    = and_then (for_loop body var k i st)
        (fun st' => body (set_var var (double_of_int (i + Z.of_nat k)) st')).
Proof.
  induction k as [|k IH]; intros i st.
  - simpl. rewrite Z.add_0_r. now destruct (body _).
  - rewrite (for_loop_succ body var (S k)), (for_loop_succ body var k i st).
    destruct (body (set_var var (double_of_int i) st)) as [st1| |];
      cbn [and_then]; try reflexivity.
    rewrite (IH (i + 1)%Z st1).
    replace (i + 1 + Z.of_nat k)%Z with (i + Z.of_nat (S k))%Z by lia.
    reflexivity.
Qed.

(** A block that leaves [var] alone: after the loop [var] holds the
    number of the last round. *)
Lemma for_loop_var (body : state -> outcome) (var : text) :
  (forall st0 st1, body st0 = Done st1 ->
                   variables st1 !! var = variables st0 !! var) ->
  forall k i st st',
    for_loop body var (S k) i st = Done st' ->
    variables st' !! var = Some (double_of_int (i + Z.of_nat k)).
Proof.
  intros Hb k i st st'. rewrite for_loop_last.
  destruct (for_loop body var k i st) as [st1| |]; cbn [and_then]; try discriminate.
  intros H. rewrite (Hb _ _ H). cbn [set_var variables]. apply lookup_insert_eq.
Qed.

Section LoopClaims.
Variable M : platform.

(** C10, as the code has it: a [loop] header whose second token has no
    colon, or whose third token is not exactly [(], yields a syntax
    error and the run goes on with the next line, so that no block is
    read and no round is made.  In particular this holds for a header
    [loop var:e1 more] in which white space separates [e1] from [more],
    unless [more] begins with a token that is exactly [(]. *)
Theorem loop_header_needs_paren_token (line rest : text) (st : state) :
  no_nl line = true -> first_token line = "loop" ->
  (find_char ":" (second_token line) = None ->
     execute M (line ++ nl :: rest) st
     = execute M rest (emit "Syntax error: loop expects var:count" st)) /\
  (find_char ":" (second_token line) <> None -> third_token line <> "(" ->
     execute M (line ++ nl :: rest) st
     = execute M rest (emit "Syntax error: expected (" st)) /\
  (forall w1 var e1 w2 more,
     line = "loop" ++ w1 ++ var ++ ":" ++ e1 ++ w2 ++ more ->
     is_ws w1 = true -> w1 <> [] -> no_ws var = true -> no_ws e1 = true ->
     is_ws w2 = true -> w2 <> [] -> trimmed more -> more <> [] ->
     first_token more <> "(" ->
     execute M (line ++ nl :: rest) st
     = execute M rest (emit "Syntax error: expected (" st)).
Proof.
  intros Hnl Hf. split; [|split].
  - intros Hc. rewrite execute_line by exact Hnl.
    now apply exec_line_loop_no_colon.
  - intros Hc Ht. rewrite execute_line by exact Hnl.
    now apply exec_line_loop_no_paren.
  - intros w1 var e1 w2 more Hl H1 N1 Hv He H2 N2 Hm Nm Hp.
    destruct (loop_header_tokens [] w1 var e1 w2 more [] eq_refl H1 N1 Hv He H2 N2
                Hm Nm eq_refl) as (_ & T2 & T3).
    cbn [app] in T2, T3. rewrite app_nil_r in T2, T3.
    cbn [app] in Hl. rewrite <- Hl in T2, T3.
    rewrite execute_line by exact Hnl.
    apply exec_line_loop_no_paren; [exact Hf | | congruence].
    rewrite T2. apply find_char_mid.
Qed.

End LoopClaims.

Lemma firstn_length_app (a b : text) : firstn (length a) (a ++ b) = a.
Proof. induction a; simpl; [now destruct b | now f_equal]. Qed.

Lemma skipn_succ_app (a b : text) (c : ascii) : skipn (length a + 1) (a ++ c :: b) = b.
Proof. induction a; simpl; auto. Qed.

Section LoopCount.
Variable M : platform.

(** A [loop] header that is accepted: the block is read, the count is
    evaluated, and the rounds are made. *)
Lemma execute_loop (indent w1 var ce w2 trail : text) (stream block stream' : text)
    (st : state) :
  is_ws indent = true -> no_nl indent = true ->
  is_ws w1 = true -> no_nl w1 = true -> w1 <> [] ->
  no_ws var = true -> find_char ":" var = None -> no_ws ce = true ->
  is_ws w2 = true -> no_nl w2 = true -> w2 <> [] ->
  is_ws trail = true -> no_nl trail = true ->
  readBlock stream = (block, stream') ->
  execute M ((indent ++ "loop" ++ w1 ++ var ++ ":" ++ ce ++ w2 ++ "(" ++ trail)
             ++ nl :: stream) st
  = match evalExpr M (variables st) ce "Loop count error: " with
    | Throw what => execute M stream' (emit what st)
    | Stuck => OutOfFuel
    | Ok v =>
        match cast_int (dfloor v) with
        | None => Undefined
        | Some count =>
            and_then (for_loop (execute M block) var (Z.to_nat count) 0%Z st)
                     (execute M stream')
        end
    end.
Proof.
  intros Hi Hin H1 Hn1 N1 Hv Hcv Hce H2 Hn2 N2 Htr Htn Hr.
  destruct (loop_header_tokens indent w1 var ce w2 "(" trail Hi H1 N1 Hv Hce H2 N2
              (conj eq_refl eq_refl) ltac:(discriminate) Htr) as (T1 & T2 & T3).
  rewrite execute_line.
  - rewrite (exec_line_loop M (execute M) (execute M) _ stream block stream' st
               (length var) T1); try assumption.
    + rewrite T2. change (var ++ ":" ++ ce) with (var ++ ":"%char :: ce).
      now rewrite firstn_length_app, skipn_succ_app.
    + rewrite T2. now apply find_char_app.
  - rewrite !no_nl_app, Hin, Hn1, Hn2, Htn.
    now rewrite (no_ws_no_nl _ Hv), (no_ws_no_nl _ Hce).
Qed.

(** C3, as the code has it: when the count expression of
    [loop var:ce (] evaluates to [c] and [floor c] fits the type [int],
    giving [N], the block (the lines up to the first one that is [")"]
    when trimmed) is executed [N] times for [N > 0] and not at all, with
    no message, for [N <= 0]; round [i] stores [i] into [var] and then
    executes the block, the last round starting from a table that maps
    [var] to [N - 1]; when the block never changes [var], the table
    after the loop maps [var] to [N - 1]. *)
Theorem loop_runs_block_count_times
    (indent w1 var ce w2 trail : text) (body : list text) (cl rest : text)
    (st : state) (c : double) (N : Z) :
  is_ws indent = true -> no_nl indent = true ->
  is_ws w1 = true -> no_nl w1 = true -> w1 <> [] ->
  no_ws var = true -> find_char ":" var = None -> no_ws ce = true ->
  is_ws w2 = true -> no_nl w2 = true -> w2 <> [] ->
  is_ws trail = true -> no_nl trail = true ->
  Forall (fun l => no_nl l = true /\ trim l <> ")") body ->
  no_nl cl = true -> trim cl = ")" ->
  evalExpr M (variables st) ce "Loop count error: " = Ok c ->
  cast_int (dfloor c) = Some N ->
  let header := indent ++ "loop" ++ w1 ++ var ++ ":" ++ ce ++ w2 ++ "(" ++ trail in
  let code := header ++ nl :: script body ++ cl ++ nl :: rest in
  let block := execute M (script body) in
  execute M code st
  = and_then (for_loop block var (Z.to_nat N) 0%Z st) (execute M rest)
  /\ ((N <= 0)%Z -> execute M code st = execute M rest st)
  /\ (forall k i st0,
        for_loop block var (S k) i st0
        = and_then (block (set_var var (double_of_int i) st0))
                   (for_loop block var k (i + 1)%Z))
  /\ ((1 <= N)%Z ->
      execute M code st
      = and_then (for_loop block var (Z.to_nat (N - 1)) 0%Z st)
          (fun st1 =>
             and_then (block (set_var var (double_of_int (N - 1)) st1))
                      (execute M rest)))
  /\ ((1 <= N)%Z ->
      (forall st0 st1, block st0 = Done st1 ->
                       variables st1 !! var = variables st0 !! var) ->
      forall st', for_loop block var (Z.to_nat N) 0%Z st = Done st' ->
                  variables st' !! var = Some (double_of_int (N - 1))).
Proof.
  intros Hi Hin H1 Hn1 N1 Hv Hcv Hce H2 Hn2 N2 Htr Htn HF Hcl Hct Hev Hcast
         header code block.
  assert (execute M code st
          = and_then (for_loop block var (Z.to_nat N) 0%Z st) (execute M rest)) as E.
  { unfold code, header.
    rewrite (execute_loop indent w1 var ce w2 trail _ (script body) rest st);
      try assumption.
    - now rewrite Hev, Hcast.
    - now apply readBlock_script. }
  split; [exact E|]. split; [|split; [|split]].
  - intros HN. rewrite E. replace (Z.to_nat N) with 0 by lia. reflexivity.
  - intros k i st0. reflexivity.
  - intros HN. rewrite E.
    replace (Z.to_nat N) with (S (Z.to_nat (N - 1))) by lia.
    rewrite for_loop_last.
    replace (0 + Z.of_nat (Z.to_nat (N - 1)))%Z with (N - 1)%Z by lia.
    destruct (for_loop block var (Z.to_nat (N - 1)) 0%Z st); reflexivity.
  - intros HN Hb st' Hl.
    replace (Z.to_nat N) with (S (Z.to_nat (N - 1))) in Hl by lia.
    rewrite (for_loop_var block var Hb _ _ _ _ Hl). f_equal. f_equal. lia.
Qed.
End LoopCount.

Lemma loop_runs_block_count_times_witness :
  execute value_first_build
    ("  loop i:1+2 (" ++ nl :: script ["    add total i"] ++ "  )" ++ nl
       :: script ["print total"])
    (set_var "total" d_zero initial)
  = and_then
      (for_loop (execute value_first_build (script ["    add total i"])) "i" 3 0%Z
         (set_var "total" d_zero initial))
      (execute value_first_build (script ["print total"])).
Proof.
  exact (proj1 (loop_runs_block_count_times value_first_build "  " " " "i" "1+2" " " ""
              ["    add total i"] "  )" (script ["print total"])
              (set_var "total" d_zero initial)
              (double_of_int 3) 3
              eq_refl eq_refl eq_refl eq_refl ltac:(discriminate)
              eq_refl eq_refl eq_refl eq_refl eq_refl ltac:(discriminate)
              eq_refl eq_refl
              ltac:(repeat constructor; discriminate)
              eq_refl eq_refl eq_refl eq_refl)).
Defined.

(** C3, as stated, fails: a block may overwrite the loop variable, and a
    count beyond the range of [int] is not a number of rounds. *)
Lemma loop_variable_overwritten :
  (exists st,
     execute value_first_build (script ["loop i:1 ("; "set i = 5"; ")"]) initial = Done st
     /\ variables st !! "i" = Some (double_of_int 5)
     /\ variables st !! "i" <> Some (double_of_int (1 - 1)))
  /\ evalExpr value_first_build (variables initial) "3000000000" "Loop count error: "
       = Ok (double_of_int 3000000000)
  /\ execute value_first_build (script ["loop i:3000000000 ("; "print i"; ")"]) initial
       = Undefined.
Proof.
  split; [|split].
  - eexists. split; [vm_compute; reflexivity|]. split; [reflexivity | discriminate].
  - vm_compute. reflexivity.
  - vm_compute. reflexivity.
Qed.

Lemma loop_header_needs_paren_token_witness :
  execute value_first_build ("loop i:n + 1 (" ++ nl :: script ["print 5"; ")"]) initial
  = execute value_first_build (script ["print 5"; ")"]) (emit "Syntax error: expected (" initial).
Proof.
  refine (proj2 (proj2 (loop_header_needs_paren_token value_first_build "loop i:n + 1 ("
                          (script ["print 5"; ")"]) initial eq_refl eq_refl))
            " " "i" "n" " " "+ 1 (" eq_refl eq_refl _ eq_refl eq_refl eq_refl _
            (conj eq_refl eq_refl) _ _); discriminate.
Defined.

(** C10, as stated, fails: the count expression [abs ( 1 )] holds white
    space, and the header is accepted with the count [abs], here a
    variable: two rounds are made and no syntax error is written. *)
Lemma loop_count_with_space_accepted :
  exists st,
    execute value_first_build
      (script ["set abs = 2"; "loop i:abs ( 1 ) ("; "print i"; ")"]) initial = Done st
    /\ output st = ["0"; "1"].
Proof. eexists. split; [vm_compute; reflexivity | reflexivity]. Qed.

(** ** Blocks within blocks *)




(** ** [set] and [print] *)

Lemma extract_trimmed (e : text) :
  trimmed e -> fst (extract e) ++ snd (extract e) = e.
Proof.
  intros [H _]. pose proof (extract_spec e) as S.
  destruct (extract e) as [tok rest]. destruct S as (_ & _ & S).
  rewrite ltrim_stops in S by exact H. now symmetry.
Qed.

Section Statements.
Variable M : platform.

(** The expression of a [set] statement, in both its forms. *)
Lemma runLine_set (w1 var w2 after e : text) (st : state) :
  is_ws w1 = true -> w1 <> [] -> no_ws var = true -> var <> [] ->
  is_ws w2 = true -> w2 <> [] -> trimmed e -> e <> [] ->
  (exists w3, after = "=" ++ w3 ++ e /\ is_ws w3 = true /\ w3 <> [])
  \/ (after = e /\ first_token e <> "=") ->
  no_nl after = true ->
  runLine M ("set" ++ w1 ++ var ++ w2 ++ after) st = try_assign M var e st.
Proof.
  intros H1 N1 Hv Nv H2 N2 He Ne Hform Hnl.
  assert (after <> [] /\ stops isspace (rev after)) as [Na Ha].
  { destruct Hform as [(w3 & -> & _ & _)|[-> _]].
    - split; [discriminate|]. cbn [app].
      change ("="%char :: w3 ++ e) with (("="%char :: w3) ++ e).
      rewrite rev_app_distr. destruct He as [_ He]. destruct (rev e) eqn:E.
      + apply (f_equal (@rev ascii)) in E. rewrite rev_involutive in E. now subst.
      + exact He.
    - split; [exact Ne | apply He]. }
  assert (trimmed ("set" ++ w1 ++ var ++ w2 ++ after)) as Ht.
  { replace ("set" ++ w1 ++ var ++ w2 ++ after)
      with (("set" ++ w1 ++ var ++ w2) ++ after) by (now rewrite <- !app_assoc).
    apply trimmed_app; try assumption; [discriminate | reflexivity]. }
  unfold runLine. rewrite (trim_trimmed _ Ht).
  pose proof (extract_token [] "set" (w1 ++ var ++ w2 ++ after)
                eq_refl eq_refl ltac:(discriminate) (breaks_ws _ _ H1 N1)) as E1.
  cbn [app] in E1. cbn [app is_empty starts_with Ascii.eqb Bool.eqb andb].
  rewrite E1. cbn [text_eqb Ascii.eqb Bool.eqb andb].
  rewrite (extract_token w1 var (w2 ++ after) H1 Hv Nv (breaks_ws _ _ H2 N2)).
  apply is_empty_false in Nv. rewrite Nv.
  rewrite (extract_skip w2 after H2).
  destruct Hform as [(w3 & -> & H3 & N3)|[-> Hf]].
  - pose proof (extract_token [] "=" (w3 ++ e) eq_refl eq_refl ltac:(discriminate)
                  (breaks_ws _ _ H3 N3)) as E3.
    cbn [app] in E3. cbn [app]. rewrite E3.
    cbn [text_eqb Ascii.eqb Bool.eqb andb negb].
    rewrite no_nl_app in Hnl. apply andb_true_iff in Hnl as [_ Hnl].
    rewrite (getline_or_empty_no_nl _ Hnl).
    rewrite <- (app_nil_r (w3 ++ e)), <- app_assoc.
    rewrite (trim_ws w3 e [] H3 eq_refl He).
    apply is_empty_false in Ne. now rewrite Ne.
  - rewrite (first_token_trimmed _ He) in Hf.
    pose proof (extract_trimmed e He) as Hx.
    pose proof (extract_spec e) as Hs.
    destruct (extract e) as [tok ss]. cbn [fst snd] in *.
    apply text_eqb_neq in Hf. rewrite Hf. cbn [negb].
    assert (no_nl ss = true) as Hss.
    { rewrite <- Hx, no_nl_app in Hnl. now apply andb_true_iff in Hnl as [_ Hnl]. }
    rewrite (getline_or_empty_no_nl _ Hss), Hx, (trim_trimmed _ He). reflexivity.
Qed.

(** An assignment to the target of [assign_target] is an assignment to
    the variable. *)
Lemma set_var_assign_target (var : text) (v : double) (st : state) :
  variables (set_var var v (assign_target var st)) = <[var := v]> (variables st).
Proof.
  unfold assign_target. destruct (variables st !! var); [reflexivity|].
  cbn [set_var variables]. apply insert_insert_eq.
Qed.

Lemma output_assign_target (var : text) (st : state) :
  output (assign_target var st) = output st.
Proof. unfold assign_target. now destruct (variables st !! var). Qed.

Lemma variables_assign_target (var : text) (st : state) :
  (forall x, x <> var ->
     variables (assign_target var st) !! x = variables st !! x)
  /\ (forall old, variables st !! var = Some old -> assign_target var st = st)
  /\ (variables st !! var = None ->
      variables (assign_target var st) !! var = Some d_zero).
Proof.
  unfold assign_target. split; [|split].
  - intros x Hx. destruct (variables st !! var); [reflexivity|].
    cbn [set_var variables]. apply lookup_insert_ne. congruence.
  - now intros old ->.
  - intros ->. cbn [set_var variables]. apply lookup_insert_eq.
Qed.

Lemma variables_operand_state (var : text) (v : double) (st : state) :
  variables (set_var var v (operand_state M var st)) = <[var := v]> (variables st)
  /\ output (operand_state M var st) = output st.
Proof.
  unfold operand_state. destruct (value_first M).
  - now split.
  - split; [apply set_var_assign_target | apply output_assign_target].
Qed.

(** C4, as the code has it.  A [set] statement, [set var = e] or
    [set var e], stores the value of [e] into [var] and writes nothing
    when [e] evaluates.  When the evaluation fails it writes the message
    of the failure; on a platform that evaluates the right operand of
    the assignment first (C++17) it then leaves the table of variables
    as it was, so that [var] is not created.  On every platform the
    table after a failure is the one in which [e] was evaluated: on a
    platform that evaluates the left operand first, [var] has been
    entered into it, with the value 0 if it was not there. *)
Theorem set_stores_value_or_reports_failure
    (w1 var w2 after e : text) (st : state) :
  is_ws w1 = true -> w1 <> [] -> no_ws var = true -> var <> [] ->
  is_ws w2 = true -> w2 <> [] -> trimmed e -> e <> [] ->
  (exists w3, after = "=" ++ w3 ++ e /\ is_ws w3 = true /\ w3 <> [])
  \/ (after = e /\ first_token e <> "=") ->
  no_nl after = true ->
  let line := "set" ++ w1 ++ var ++ w2 ++ after in
  let evaluated := evalExpr M (variables (operand_state M var st)) e "Set expr error: " in
  (forall v, evaluated = Ok v ->
     exists st', runLine M line st = Done st'
       /\ variables st' = <[var := v]> (variables st)
       /\ output st' = output st)
  /\ (forall what, evaluated = Throw what ->
     exists st', runLine M line st = Done st'
       /\ output st' = output st ++ [what]
       /\ variables st' = variables (operand_state M var st)
       /\ (forall x, x <> var -> variables st' !! x = variables st !! x)
       /\ (forall old, variables st !! var = Some old -> variables st' = variables st)
       /\ (value_first M = false -> variables st !! var = None ->
           variables st' !! var = Some d_zero /\ variables st' <> variables st))
  /\ (value_first M = true ->
      operand_state M var st = st
      /\ forall what, evalExpr M (variables st) e "Set expr error: " = Throw what ->
           exists st', runLine M line st = Done st'
             /\ output st' = output st ++ [what]
             /\ variables st' = variables st
             /\ variables st' !! var = variables st !! var)
  /\ ((exists v, evaluated = Ok v) \/ (exists what, evaluated = Throw what)).
Proof.
  intros H1 N1 Hv Nv H2 N2 He Ne Hform Hnl line evaluated. unfold line, evaluated.
  rewrite (runLine_set w1 var w2 after e st) by assumption.
  unfold try_assign.
  destruct (variables_operand_state var d_zero st) as [_ Ho].
  split; [|split; [|split]].
  - intros v ->. eexists. split; [reflexivity|].
    split; [apply variables_operand_state|exact Ho].
  - intros what ->. eexists. split; [reflexivity|].
    split; [cbn [emit output]; now rewrite Ho|].
    split; [reflexivity|].
    unfold operand_state. destruct (value_first M); cbn [emit variables].
    + split; [reflexivity|]. split; [now intros | discriminate].
    + destruct (variables_assign_target var st) as (Hx & Hold & Hnew).
      split; [exact Hx|]. split; [intros old Hl; now rewrite (Hold old Hl)|].
      intros _ Hn. split; [exact (Hnew Hn)|].
      intros E. apply (f_equal (fun m : gmap text double => m !! var)) in E.
      rewrite (Hnew Hn), Hn in E. discriminate.
  - intros Hvf. unfold operand_state. rewrite Hvf. split; [reflexivity|].
    intros what ->. eexists. split; [reflexivity|]. repeat split; reflexivity.
  - apply evalExpr_cases.
Qed.

(** The argument of a [print] statement. *)
Lemma runLine_print (w rest : text) (st : state) :
  is_ws w = true -> no_nl w = true -> trimmed rest -> no_nl rest = true ->
  (rest <> [] -> w <> []) ->
  runLine M ("print" ++ w ++ rest) st
  = if is_quoted rest then Done (emit (removelast (tl rest)) st)
    else
      match (if is_empty rest then None else variables st !! rest) with
      | Some v => printNumberNicely v st
      | None =>
          match evalExpr M (variables st) rest "Print expr error: " with
          | Ok v => printNumberNicely v st
          | Throw _ => Done (emit rest st)
          | Stuck => OutOfFuel
          end
      end.
Proof.
  intros Hw Hwn Hr Hrn Hne. unfold runLine.
  destruct rest as [|c rest].
  - rewrite app_nil_r.
    replace ("print" ++ w) with ([] ++ "print" ++ w) by reflexivity.
    rewrite (trim_ws [] "print" w eq_refl Hw (conj eq_refl eq_refl)).
    reflexivity.
  - assert (w <> []) as Nw by (apply Hne; discriminate).
    assert (trimmed ("print" ++ w ++ c :: rest)) as Ht.
    { replace ("print" ++ w ++ c :: rest) with (("print" ++ w) ++ c :: rest)
        by (now rewrite <- !app_assoc).
      apply trimmed_app; [discriminate | discriminate | reflexivity | apply Hr]. }
    rewrite (trim_trimmed _ Ht).
    pose proof (extract_token [] "print" (w ++ c :: rest)
                  eq_refl eq_refl ltac:(discriminate) (breaks_ws _ _ Hw Nw)) as E1.
    cbn [app] in E1. cbn [app is_empty starts_with Ascii.eqb Bool.eqb andb].
    rewrite E1. cbn [text_eqb Ascii.eqb Bool.eqb andb].
    rewrite getline_or_empty_no_nl by (now rewrite no_nl_app, Hwn, Hrn).
    rewrite <- (app_nil_r (w ++ c :: rest)), <- app_assoc.
    rewrite (trim_ws w (c :: rest) [] Hw eq_refl Hr).
    reflexivity.
Qed.

(** What [printNumberNicely] writes, by the cases of its test. *)
Lemma printNumberNicely_cases (v : double) (st : state) :
  (forall n, dlt (dabs (dsub v (dround v))) d_1e_9 = true ->
             cast_long_long (dround v) = Some n ->
             printNumberNicely v st = Done (emit (decimal n) st))
  /\ (dlt (dabs (dsub v (dround v))) d_1e_9 = true ->
      cast_long_long (dround v) = None -> printNumberNicely v st = Undefined)
  /\ (dlt (dabs (dsub v (dround v))) d_1e_9 = false ->
      printNumberNicely v st = Done (emit (ostream_double 12 v) st)).
Proof.
  unfold printNumberNicely. split; [|split].
  - now intros n -> ->.
  - now intros -> ->.
  - now intros ->.
Qed.

(** C6, as the code has it.  For a [print] statement whose argument is
    neither a quoted literal nor the name of a variable: when the
    argument evaluates to [v], one line is written, which is the integer
    [round v] in decimal digits when [v] is within [1e-9] of it and it
    fits the type [long long], and [v] with 12 significant digits when
    [v] is a number that is not within [1e-9] of [round v]; a NaN is
    written as [nan] or [-nan] (by its sign, which the model does not
    keep); when [v] is within [1e-9] of an integer that does not fit,
    the conversion is undefined.  When the evaluation fails the argument
    itself is written, unchanged, and the message of the failure is
    not. *)
Theorem print_value_or_raw_text (w rest : text) (st : state) :
  is_ws w = true -> no_nl w = true -> trimmed rest -> no_nl rest = true ->
  (rest <> [] -> w <> []) ->
  is_quoted rest = false ->
  rest = [] \/ variables st !! rest = None ->
  let line := "print" ++ w ++ rest in
  let evaluated := evalExpr M (variables st) rest "Print expr error: " in
  (forall v n, evaluated = Ok v ->
     dlt (dabs (dsub v (dround v))) d_1e_9 = true ->
     cast_long_long (dround v) = Some n ->
     runLine M line st = Done (emit (decimal n) st))
  /\ (forall v, evaluated = Ok v ->
     dlt (dabs (dsub v (dround v))) d_1e_9 = false -> v <> S754_nan ->
     runLine M line st = Done (emit (ostream_double 12 v) st))
  /\ (evaluated = Ok S754_nan ->
     runLine M line st = Done (emit "nan" st)
     \/ runLine M line st = Done (emit "-nan" st))
  /\ (forall v, evaluated = Ok v ->
     dlt (dabs (dsub v (dround v))) d_1e_9 = true ->
     cast_long_long (dround v) = None ->
     runLine M line st = Undefined)
  /\ (forall what, evaluated = Throw what ->
     runLine M line st = Done (emit rest st)
     /\ output (emit rest st) = output st ++ [rest]
     /\ variables (emit rest st) = variables st)
  /\ ((exists v, evaluated = Ok v) \/ (exists what, evaluated = Throw what)).
Proof.
  intros Hw Hwn Hr Hrn Hne Hq Hvar line evaluated. unfold line, evaluated.
  rewrite (runLine_print w rest st) by assumption. rewrite Hq.
  assert ((if is_empty rest then None else variables st !! rest) = None) as ->.
  { destruct Hvar as [->|Hv]; [reflexivity|]. rewrite Hv. now destruct (is_empty rest). }
  split; [|split; [|split; [|split; [|split]]]].
  - intros v n -> Hnear Hcast.
    exact (proj1 (printNumberNicely_cases v st) n Hnear Hcast).
  - intros v -> Hfar _.
    exact (proj2 (proj2 (printNumberNicely_cases v st)) Hfar).
  - intros ->. left. reflexivity.
  - intros v -> Hnear Hcast.
    exact (proj1 (proj2 (printNumberNicely_cases v st)) Hnear Hcast).
  - intros what ->. repeat split; reflexivity.
  - apply evalExpr_cases.
Qed.
End Statements.

Lemma set_stores_value_or_reports_failure_witness :
  (exists st', runLine value_first_build "set y = z" initial = Done st'
     /\ output st' = ["Set expr error: Unknown variable: z near: ''"]
     /\ variables st' = variables initial
     /\ variables st' !! "y" = variables initial !! "y")
  /\ (exists st', runLine value_first_build "set x 2 * 3" initial = Done st'
     /\ variables st' = <["x" := double_of_int 6]> (variables initial)
     /\ output st' = output initial).
Proof.
  split.
  - refine (proj2 (proj1 (proj2 (proj2 (set_stores_value_or_reports_failure
              value_first_build " " "y" " " "= z" "z" initial eq_refl _ eq_refl _
              eq_refl _ (conj eq_refl eq_refl) _ _ eq_refl))) eq_refl) _ eq_refl);
      try discriminate.
    left. exists " ". repeat split; discriminate.
  - refine (proj1 (set_stores_value_or_reports_failure value_first_build
              " " "x" " " "2 * 3" "2 * 3" initial eq_refl _ eq_refl _ eq_refl _
              (conj eq_refl eq_refl) _ _ eq_refl) _ eq_refl); try discriminate.
    right. split; [reflexivity | discriminate].
Defined.

(** C4, as stated, fails on a platform that evaluates the left operand
    of the assignment first: a [set] whose expression fails leaves the
    variable in the table, with the value 0; and [set x = x] then
    evaluates, for a new [x], and writes no message. *)
Lemma failed_set_creates_variable :
  (exists st',
     runLine target_first_build "set y = z" initial = Done st'
     /\ output st' = ["Set expr error: Unknown variable: z near: ''"]
     /\ variables st' !! "y" = Some d_zero
     /\ variables initial !! "y" = None
     /\ variables st' <> variables initial)
  /\ (exists st',
        runLine target_first_build "set x = x" initial = Done st'
        /\ output st' = []
        /\ variables st' !! "x" = Some d_zero)
  /\ evalExpr target_first_build (variables initial) "x" "Set expr error: "
     = Throw "Set expr error: Unknown variable: x near: ''".
Proof.
  split; [|split].
  - eexists. split; [vm_compute; reflexivity|].
    split; [reflexivity|]. split; [reflexivity|]. split; [reflexivity|].
    intros E. apply (f_equal (fun m : gmap text double => m !! "y")) in E.
    vm_compute in E. discriminate.
  - eexists. split; [vm_compute; reflexivity|]. split; reflexivity.
  - reflexivity.
Qed.

Lemma print_value_or_raw_text_witness :
  runLine value_first_build "print this is not valid syntax" initial
  = Done (emit "this is not valid syntax" initial)
  /\ runLine value_first_build "print 2 + 3 * 4" initial = Done (emit "14" initial)
  /\ runLine value_first_build "print 10 / 4" initial = Done (emit "2.5" initial).
Proof.
  split; [|split].
  - refine (proj1 (proj1 (proj2 (proj2 (proj2 (proj2 (print_value_or_raw_text
              value_first_build " " "this is not valid syntax" initial eq_refl eq_refl
              (conj eq_refl eq_refl) eq_refl _ eq_refl _))))) _ eq_refl)).
    + discriminate.
    + now right.
  - refine (proj1 (print_value_or_raw_text value_first_build " " "2 + 3 * 4" initial
              eq_refl eq_refl (conj eq_refl eq_refl) eq_refl _ eq_refl _)
              (double_of_int 14) 14%Z eq_refl eq_refl eq_refl).
    + discriminate.
    + now right.
  - refine (proj1 (proj2 (print_value_or_raw_text value_first_build " " "10 / 4" initial
              eq_refl eq_refl (conj eq_refl eq_refl) eq_refl _ eq_refl _))
              (ddiv (double_of_int 10) (double_of_int 4)) eq_refl eq_refl _).
    + discriminate.
    + now right.
    + discriminate.
Defined.

(** C6, as stated, fails: the expression [1e30] evaluates, to a value
    that is its own nearest integer but does not fit the type
    [long long], and nothing is promised of what [print] writes. *)
Lemma print_of_huge_value_is_undefined :
  exists v,
    evalExpr value_first_build (variables initial) "1e30" "Print expr error: " = Ok v
    /\ is_quoted "1e30" = false
    /\ variables initial !! "1e30" = None
    /\ dlt (dabs (dsub v (dround v))) d_1e_9 = true
    /\ cast_long_long (dround v) = None
    /\ runLine value_first_build "print 1e30" initial = Undefined.
Proof.
  eexists. split; [vm_compute; reflexivity|].
  repeat split; vm_compute; reflexivity.
Qed.

(** ** Number literals *)

Lemma take_while_digits (ds s : text) :
  forallb isdigit ds = true -> stops isdigit s -> take_while isdigit (ds ++ s) = ds.
Proof.
  intros Hd Hs. rewrite take_while_all by exact Hd.
  rewrite take_while_stops by exact Hs. apply app_nil_r.
Qed.

Lemma drop_while_digits (ds s : text) :
  forallb isdigit ds = true -> stops isdigit s -> drop_while isdigit (ds ++ s) = s.
Proof.
  intros Hd Hs. rewrite drop_while_all by exact Hd. now apply drop_while_stops.
Qed.

(** An exponent marker that no digit follows is left unread. *)
Lemma scan_exponent_malformed (e : ascii) (tail : text) :
  stops isdigit (after_sign tail) -> scan_exponent (e :: tail) = ([], e :: tail).
Proof.
  intros H. unfold scan_exponent.
  destruct (Ascii.eqb e "e" || Ascii.eqb e "E"); [|reflexivity].
  destruct tail as [|x t]; [reflexivity|]. unfold after_sign in H.
  destruct (Ascii.eqb x "+" || Ascii.eqb x "-");
    rewrite (take_while_stops _ _ H); reflexivity.
Qed.

Lemma digit_not_space (c : ascii) : isdigit c = true -> isspace c = false.
Proof.
  unfold isdigit, isspace. intros H. apply andb_true_iff in H as [H1 H2].
  apply N.leb_le in H1, H2.
  destruct (N.eqb_spec (N_of_ascii c) 32); [lia|].
  destruct (N.leb_spec 9 (N_of_ascii c)); [|reflexivity].
  destruct (N.leb_spec (N_of_ascii c) 13); [lia | reflexivity].
Qed.

Lemma digit_not_point (c : ascii) : isdigit c = true -> Ascii.eqb c "." = false.
Proof.
  intros H. destruct (Ascii.eqb c ".") eqn:E; [|reflexivity].
  apply Ascii.eqb_eq in E. subst c. discriminate.
Qed.

(** The scan of a mantissa: an optional point, digits, an optional point
    with digits; the exponent is scanned from what follows. *)
Lemma scan_number_mantissa (lead hasfrac : bool) (d1 d2 s3 : text) :
  forallb isdigit d1 = true -> forallb isdigit d2 = true ->
  (lead = false -> d1 <> []) ->
  stops isdigit s3 ->
  (hasfrac = false -> stops (fun c => Ascii.eqb c ".") s3) ->
  scan_number ((if lead then "." else "") ++ d1
                 ++ (if hasfrac then "." ++ d2 else "") ++ s3)
  = ((if lead then "." else "") ++ d1 ++ (if hasfrac then "." ++ d2 else "")
       ++ fst (scan_exponent s3),
     negb (is_empty d1) || (hasfrac && negb (is_empty d2)),
     snd (scan_exponent s3)).
Proof.
  intros H1 H2 Hlead Hs3 Hnp.
  assert (forall r, scan_number ((if lead then "." else "") ++ d1 ++ r)
            = let d1' := take_while isdigit (d1 ++ r) in
              let s2 := drop_while isdigit (d1 ++ r) in
              let '(frac, sawFrac, s3) :=
                match s2 with
                | x :: s2' =>
                    if Ascii.eqb x "."
                    then ("."%char :: take_while isdigit s2',
                          negb (is_empty (take_while isdigit s2')),
                          drop_while isdigit s2')
                    else ([], false, s2)
                | [] => ([], false, s2)
                end in
              let '(ex, s4) := scan_exponent s3 in
              ((if lead then "." else "") ++ d1' ++ frac ++ ex,
               negb (is_empty d1') || sawFrac, s4)) as Hhead.
  { intros r. destruct lead.
    - reflexivity.
    - specialize (Hlead eq_refl). destruct d1 as [|c d1]; [congruence|].
      cbn [forallb] in H1. apply andb_true_iff in H1 as [Hc _].
      cbn [app]. unfold scan_number. rewrite (digit_not_point _ Hc), Hc.
      reflexivity. }
  rewrite Hhead. clear Hhead. destruct hasfrac.
  - cbn [app]. rewrite take_while_digits, drop_while_digits by (assumption || reflexivity).
    cbn [Ascii.eqb Bool.eqb].
    rewrite take_while_digits, drop_while_digits by assumption.
    destruct (scan_exponent s3) as [ex s4]. cbn [fst snd andb].
    reflexivity.
  - specialize (Hnp eq_refl). cbn [app].
    rewrite take_while_digits, drop_while_digits by assumption.
    assert (match s3 with
            | x :: s2' =>
                if Ascii.eqb x "."
                then ("."%char :: take_while isdigit s2',
                      negb (is_empty (take_while isdigit s2')),
                      drop_while isdigit s2')
                else ([], false, s3)
            | [] => ([], false, s3)
            end = ([], false, s3)) as ->.
    { destruct s3 as [|x s3]; [reflexivity|]. simpl in Hnp. now rewrite Hnp. }
    destruct (scan_exponent s3) as [ex s4]. cbn [fst snd andb app].
    rewrite orb_false_r. reflexivity.
Qed.

Section Numbers.
Variable prefix : text.

(** C9: when the digits (and point) of a literal are followed by an
    exponent marker, with or without a sign, that no digit follows, the
    scan stops in front of the marker: the literal is the text before
    it, and the unread text starts with the marker. *)
Theorem malformed_exponent_is_not_consumed
    (ws d1 d2 tail : text) (lead hasfrac : bool) (e : ascii) :
  is_ws ws = true ->
  forallb isdigit d1 = true -> forallb isdigit d2 = true ->
  (lead = false -> d1 <> []) ->
  e = "e"%char \/ e = "E"%char ->
  stops isdigit (after_sign tail) ->
  let mant := (if lead then "." else "") ++ d1 ++ (if hasfrac then "." ++ d2 else "") in
  let sawDigit := negb (is_empty d1) || (hasfrac && negb (is_empty d2)) in
  scan_number (mant ++ e :: tail) = (mant, sawDigit, e :: tail)
  /\ parseNumber prefix (ws ++ mant ++ e :: tail)
     = (if sawDigit then let* v := stod mant in Ok (v, e :: tail)
        else fail prefix "Expected number" (e :: tail))
  /\ (sawDigit = true ->
      forall v, stod mant = Ok v ->
                parseNumber prefix (ws ++ mant ++ e :: tail) = Ok (v, e :: tail))
  /\ (forall M vars,
        evalExpr M vars "2e+" prefix
        = Throw (prefix ++ "Unexpected trailing characters near: 'e+'")).
Proof.
  intros Hws H1 H2 Hlead He Htail mant sawDigit.
  assert (isdigit e = false /\ Ascii.eqb e "." = false) as [Hed Hep]
    by (destruct He as [->| ->]; split; reflexivity).
  assert (scan_number (mant ++ e :: tail) = (mant, sawDigit, e :: tail)) as Hscan.
  { unfold mant. rewrite <- !app_assoc.
    rewrite (scan_number_mantissa lead hasfrac d1 d2 (e :: tail) H1 H2 Hlead Hed
               (fun _ => Hep)).
    rewrite (scan_exponent_malformed _ _ Htail). cbn [fst snd].
    now rewrite app_nil_r. }
  assert (parseNumber prefix (ws ++ mant ++ e :: tail)
          = (if sawDigit then let* v := stod mant in Ok (v, e :: tail)
             else fail prefix "Expected number" (e :: tail))) as Hparse.
  { unfold parseNumber. rewrite skipWs_ws by exact Hws.
    assert (skipWs (mant ++ e :: tail) = mant ++ e :: tail) as ->.
    { apply drop_while_stops. unfold mant. destruct lead; [reflexivity|].
      specialize (Hlead eq_refl). destruct d1 as [|c d1]; [congruence|].
      cbn [forallb] in H1. apply andb_true_iff in H1 as [Hc _].
      exact (digit_not_space _ Hc). }
    rewrite Hscan. destruct sawDigit eqn:Es.
    - assert (is_empty mant = false) as ->.
      { unfold mant. destruct lead; [reflexivity|].
        specialize (Hlead eq_refl). destruct d1; [congruence | reflexivity]. }
      reflexivity.
    - now rewrite orb_true_r. }
  split; [exact Hscan|]. split; [exact Hparse|]. split.
  - intros Hsaw v Hv. rewrite Hparse, Hsaw, Hv. reflexivity.
  - intros M vars. reflexivity.
Qed.
End Numbers.

Lemma malformed_exponent_is_not_consumed_witness :
  scan_number ("2.5" ++ "e"%char :: "+ 1") = ("2.5", true, "e"%char :: "+ 1")
  /\ parseNumber "Expr error: " (" " ++ "2.5" ++ "e"%char :: "+ 1")
     = Ok (S754_finite false 5629499534213120 (-51), "e"%char :: "+ 1").
Proof.
  destruct (malformed_exponent_is_not_consumed "Expr error: " " " "2" "5" "+ 1"
              false true "e" eq_refl eq_refl eq_refl ltac:(discriminate)
              (or_introl eq_refl) eq_refl) as (H1 & _ & H3 & _).
  split; [exact H1|]. exact (H3 eq_refl _ eq_refl).
Defined.

(** ** Printing numbers *)

Lemma string_of_uint_digits (d : Decimal.uint) :
  forallb isdigit (list_ascii_of_string (NilEmpty.string_of_uint d)) = true.
Proof. induction d; simpl; auto. Qed.

Lemma decimal_uint_text (d : Decimal.uint) :
  exists c ds,
    list_ascii_of_string (NilZero.string_of_uint d) = c :: ds
    /\ isdigit c = true /\ forallb isdigit ds = true.
Proof.
  destruct d; simpl;
    try (eexists _, _; split; [reflexivity|]; split;
         [reflexivity | apply string_of_uint_digits]).
  exists "0"%char, []. repeat split.
Qed.

(** An integer is written with digits only, after a minus sign when it is
    negative: no point and no exponent. *)
Lemma decimal_is_integer_text (n : Z) : is_integer_text (decimal n) = true.
Proof.
  unfold decimal. destruct (Z.to_int n) as [d|d]; cbn [NilZero.string_of_int].
  - destruct (decimal_uint_text d) as (c & ds & -> & Hc & Hds).
    cbn [is_integer_text]. now rewrite Hc, Hds, orb_true_r.
  - destruct (decimal_uint_text d) as (c & ds & E & Hc & Hds).
    cbn [list_ascii_of_string is_integer_text]. rewrite E.
    cbn [forallb]. now rewrite Hc, Hds.
Qed.

(** C8, as the code has it: a value within [1e-9] of its nearest integer,
    when that integer fits the type [long long], is written as that
    integer, with digits only; a value that is not within [1e-9] of its
    nearest integer is written with 12 significant digits.  The literal
    [4.000000000001] is written as [4]. *)
Theorem print_number_integer_or_12_digits (v : double) (st : state) :
  (dlt (dabs (dsub v (dround v))) d_1e_9 = true ->
     forall n, cast_long_long (dround v) = Some n ->
       printNumberNicely v st = Done (emit (decimal n) st)
       /\ is_integer_text (decimal n) = true
       /\ dtrunc_Z (dround v) = Some n)
  /\ (dlt (dabs (dsub v (dround v))) d_1e_9 = false ->
        printNumberNicely v st = Done (emit (ostream_double 12 v) st))
  /\ stod "1e-9" = Ok d_1e_9
  /\ (exists v4, stod "4.000000000001" = Ok v4
        /\ printNumberNicely v4 st = Done (emit "4" st))
  /\ (exists vpi, stod "3.14159265358" = Ok vpi
        /\ printNumberNicely vpi st = Done (emit "3.14159265358" st)).
Proof.
  split; [|split; [|split; [|split]]].
  - intros Hnear n Hn. unfold printNumberNicely. rewrite Hnear, Hn.
    split; [reflexivity|]. split; [apply decimal_is_integer_text|].
    unfold cast_long_long, cast_signed in Hn.
    destruct (dtrunc_Z (dround v)) as [k|]; [|discriminate].
    destruct (_ && _); [|discriminate]. exact Hn.
  - intros Hfar. unfold printNumberNicely. now rewrite Hfar.
  - vm_compute. reflexivity.
  - eexists. split; [vm_compute; reflexivity|].
    unfold printNumberNicely.
    match goal with
    | |- context [dlt ?a ?b] =>
        let r := eval vm_compute in (dlt a b) in change (dlt a b) with r
    end.
    match goal with
    | |- context [cast_long_long ?a] =>
        let r := eval vm_compute in (cast_long_long a) in change (cast_long_long a) with r
    end.
    reflexivity.
  - eexists. split; [vm_compute; reflexivity|].
    unfold printNumberNicely.
    match goal with
    | |- context [dlt ?a ?b] =>
        let r := eval vm_compute in (dlt a b) in change (dlt a b) with r
    end.
    match goal with
    | |- context [ostream_double ?p ?a] =>
        let r := eval vm_compute in (ostream_double p a) in
        change (ostream_double p a) with r
    end.
    reflexivity.
Qed.

Lemma print_number_integer_or_12_digits_witness :
  printNumberNicely (double_of_int (-42)) initial = Done (emit (decimal (-42)) initial)
  /\ printNumberNicely (ddiv (double_of_int 5) (double_of_int 2)) initial
     = Done (emit (ostream_double 12 (ddiv (double_of_int 5) (double_of_int 2))) initial).
Proof.
  split.
  - exact (proj1 (proj1 (print_number_integer_or_12_digits (double_of_int (-42)) initial)
                    eq_refl (-42)%Z eq_refl)).
  - exact (proj1 (proj2 (print_number_integer_or_12_digits
                           (ddiv (double_of_int 5) (double_of_int 2)) initial)) eq_refl).
Defined.

(** C8, as stated, fails: [1e30] is its own nearest integer, but it does
    not fit the type [long long], and its conversion is undefined. *)
Lemma huge_integer_is_not_printed :
  exists v,
    stod "1e30" = Ok v
    /\ dlt (dabs (dsub v (dround v))) d_1e_9 = true
    /\ dtrunc_Z (dround v) = Some (1000000000000000019884624838656)%Z
    /\ printNumberNicely v initial = Undefined.
Proof.
  eexists. split; [vm_compute; reflexivity|].
  split; [vm_compute; reflexivity|]. split; vm_compute; reflexivity.
Qed.

(** ** The parser follows the grammar *)

Lemma skips_ws_skipWs (p : parser) (s : text) : skips_ws p -> p (skipWs s) = p s.
Proof.
  intros H. rewrite <- (take_drop_while isspace s) at 2.
  symmetry. apply H. apply take_while_forallb.
Qed.

Lemma bin_level_skips_ws (sub : parser) (ops : optable) :
  skips_ws sub -> skips_ws (bin_level sub ops).
Proof. intros H w s Hw. unfold bin_level. now rewrite H. Qed.

Lemma level_parser_skips_ws (u : parser) :
  skips_ws u -> forall L, skips_ws (level_parser L u).
Proof.
  intros Hu L.
  assert (forall d L, 7 <= L + d -> skips_ws (level_parser L u)) as H.
  { clear L. induction d as [|d IH]; intros L HL.
    - rewrite level_parser_top by lia. exact Hu.
    - destruct (Nat.le_gt_cases 7 L) as [H7|H7].
      + rewrite level_parser_top by lia. exact Hu.
      + destruct L as [|L]; [exact Hu|].
        intros w s Hw. rewrite !level_parser_bin by lia.
        apply bin_level_skips_ws; [|exact Hw]. apply IH. lia. }
  apply (H 7). lia.
Qed.

Lemma unary_skips_ws (M : platform) (vars : gmap text double) (prefix : text) (n : nat) :
  skips_ws (unary M vars prefix n).
Proof.
  intros w s Hw. destruct n; [reflexivity|]. cbn [unary].
  now rewrite (skipWs_ws _ _ Hw).
Qed.

(** *** Operators *)

Lemma token_not_space (op : binop) (s : text) : skipWs (token op ++ s) = token op ++ s.
Proof. destruct op; reflexivity. Qed.

Lemma token_nonempty (op : binop) : 1 <= length (token op).
Proof. destruct op; simpl; lia. Qed.

(** In front of its token, the rule of a tier finds the operator. *)
Lemma match_op_token (op : binop) (s : text) :
  stops (fun c => Ascii.eqb c "=") s ->
  match_op (tier_table (level op)) (token op ++ s) = Some (binop_sem op, s).
Proof.
  intros H.
  destruct op; cbn [level tier_table tier List.map match_op token];
    unfold matchStr; cbn [skipWs drop_while isspace app];
    try reflexivity.
  - (* [>] is tried after [>=] *)
    destruct s as [|c s]; [reflexivity|]. simpl in H. cbn. rewrite Ascii.eqb_sym in H.
    cbn in H. destruct c as [[] [] [] [] [] [] [] []]; try discriminate; reflexivity.
  - destruct s as [|c s]; [reflexivity|]. simpl in H. cbn. rewrite Ascii.eqb_sym in H.
    cbn in H. destruct c as [[] [] [] [] [] [] [] []]; try discriminate; reflexivity.
Qed.

(** A tighter operator does not start where a looser one does. *)
Lemma token_level (op op' : binop) (s : text) :
  level op < level op' -> starts_with (token op') (token op ++ s) = false.
Proof. destruct op, op'; simpl; intros H; try lia; reflexivity. Qed.

Lemma in_all_binops (op : binop) : In op all_binops.
Proof. destruct op; simpl; tauto. Qed.

Lemma follow_spec (L : nat) (s : text) :
  follow L s = true <->
  stops extends_token s
  /\ starts_with "(" (skipWs s) = false
  /\ forall op, L <= level op -> starts_with (token op) (skipWs s) = false.
Proof.
  unfold follow. rewrite !andb_true_iff, negb_true_iff, forallb_forall. split.
  - intros [[H1 H2] H3]. split; [|split; [exact H2|]].
    + destruct s; [exact I|]. now apply negb_true_iff in H1.
    + intros op Hop. specialize (H3 op (in_all_binops op)).
      apply orb_true_iff in H3 as [H3|H3].
      * apply Nat.ltb_lt in H3. lia.
      * now apply negb_true_iff.
  - intros (H1 & H2 & H3). split; [split; [|exact H2]|].
    + destruct s; [reflexivity|]. now apply negb_true_iff.
    + intros op _. destruct (Nat.ltb_spec (level op) L) as [Hl|Hl]; [reflexivity|].
      rewrite (H3 op Hl). reflexivity.
Qed.

Lemma follow_weaken (L L' : nat) (s : text) :
  L <= L' -> follow L s = true -> follow L' s = true.
Proof.
  intros HL. rewrite !follow_spec. intros (H1 & H2 & H3).
  split; [exact H1|]. split; [exact H2|]. intros op Hop. apply H3. lia.
Qed.

(** After the text of a tree, a loop of a tier that [rest] does not go
    on with ends. *)
Lemma match_op_follow (L : nat) (rest : text) :
  follow L rest = true -> match_op (tier_table L) (skipWs rest) = None.
Proof.
  intros (_ & _ & H)%follow_spec.
  assert (forall ops, Forall (fun op => L <= level op) ops ->
            match_op (List.map (fun op => (token op, binop_sem op)) ops) (skipWs rest)
            = None) as Hops.
  { induction ops as [|op ops IH]; intros HF; [reflexivity|].
    inversion HF as [|? ? Hop HF']; subst. cbn [List.map match_op].
    unfold matchStr. rewrite skipWs_idem, (H op Hop). now apply IH. }
  apply Hops. unfold tier.
  do 7 (destruct L as [|L]; [repeat constructor; simpl; lia|]). constructor.
Qed.

Lemma bin_loop_exit (sub : parser) (L k : nat) (v : double) (rest : text) :
  follow L rest = true ->
  bin_loop sub (tier_table L) (S k) v rest = Ok (v, skipWs rest).
Proof. intros H. cbn [bin_loop]. now rewrite (match_op_follow _ _ H). Qed.

Lemma space_not_token (c : ascii) : isspace c = true -> extends_token c = false.
Proof.
  destruct c as [[] [] [] [] [] [] [] []]; vm_compute; congruence.
Qed.

(** The text in front of an operator is followed as a tighter tier needs. *)
Lemma follow_operator (op : binop) (w s : text) (L : nat) :
  is_ws w = true -> level op < L -> follow L (w ++ token op ++ s) = true.
Proof.
  intros Hw HL. apply follow_spec.
  rewrite skipWs_ws, token_not_space by exact Hw. split; [|split].
  - destruct w as [|c w].
    + destruct op; reflexivity.
    + simpl in Hw. apply andb_true_iff in Hw as [Hc _]. simpl.
      now apply space_not_token.
  - destruct op; reflexivity.
  - intros op' Hop'. apply token_level. lia.
Qed.

(** The text in front of a closing parenthesis or a comma. *)
Lemma follow_closer (c : ascii) (w s : text) (L : nat) :
  c = ")"%char \/ c = ","%char -> is_ws w = true -> follow L (w ++ c :: s) = true.
Proof.
  intros Hc Hw. apply follow_spec. rewrite skipWs_ws by exact Hw.
  assert (skipWs (c :: s) = c :: s) as -> by (destruct Hc as [->| ->]; reflexivity).
  split; [|split].
  - destruct w as [|x w].
    + destruct Hc as [->| ->]; reflexivity.
    + simpl in Hw. apply andb_true_iff in Hw as [Hx _]. simpl.
      now apply space_not_token.
  - destruct Hc as [->| ->]; reflexivity.
  - intros op _. destruct Hc as [->| ->]; destruct op; reflexivity.
Qed.

(** The end of the text, after white space. *)
Lemma follow_end (w : text) (L : nat) : is_ws w = true -> follow L w = true.
Proof.
  intros Hw. apply follow_spec.
  assert (skipWs w = []) as ->.
  { rewrite <- (app_nil_r w). now rewrite skipWs_ws. }
  split; [|split].
  - destruct w as [|x w]; [exact I|].
    simpl in Hw. apply andb_true_iff in Hw as [Hx _]. simpl.
    now apply space_not_token.
  - reflexivity.
  - intros op _. destruct op; reflexivity.
Qed.

Section Climb.
Variable M : platform.
Variable vars : gmap text double.
Variable prefix : text.
Variable n : nat.

Local Abbreviation u := (unary M vars prefix n).

Lemma level_progresses (L : nat) : progresses n (level_parser L u).
Proof. apply level_parser_progress, unary_progress. Qed.

(** From the rule of the next tier to the loop of a tier. *)
Lemma spine_from_agrees (L : nat) (te : text) (o : option double) (rest : text) :
  1 <= L <= 6 -> length (te ++ rest) < n ->
  agrees (level_parser (S L) u (te ++ rest)) o rest ->
  spine L u te o rest.
Proof.
  intros HL Hn Ha. unfold spine. rewrite level_parser_bin by exact HL.
  unfold bin_level. destruct o as [v|].
  - destruct Ha as (rest' & -> & Hs & Hl). cbn [bind].
    rewrite length_app in Hn.
    rewrite (bin_loop_budget _ _ (tier_table_nonempty L) n (level_progresses (S L))
               (S (length rest')) (S (length rest)) v rest') by lia.
    rewrite <- bin_loop_skipWs, Hs, bin_loop_skipWs. reflexivity.
  - destruct Ha as (what & ->). now exists what.
Qed.

(** From the loop of a tier to its rule, when the loop ends. *)
Lemma agrees_from_spine (L : nat) (te : text) (o : option double) (rest : text) :
  follow L rest = true -> spine L u te o rest ->
  agrees (level_parser L u (te ++ rest)) o rest.
Proof.
  intros Hf Hs. unfold spine in Hs. unfold agrees. destruct o as [v|]; [|exact Hs].
  rewrite Hs, (bin_loop_exit _ _ _ _ _ Hf). exists (skipWs rest).
  split; [reflexivity|]. split; [apply skipWs_idem | apply skipWs_length].
Qed.

(** A tree of tier [p] is parsed by the rule of every looser tier. *)
Lemma climb (te : text) (o : option double) (p : nat) :
  (7 <= p -> forall rest, length (te ++ rest) < n -> follow 7 rest = true ->
             agrees (u (te ++ rest)) o rest) ->
  (p <= 6 -> forall rest, length (te ++ rest) < n -> follow (S p) rest = true ->
             spine p u te o rest) ->
  forall L, 1 <= L -> L <= p -> L <= 7 ->
    (forall rest, length (te ++ rest) < n -> follow L rest = true ->
                  agrees (level_parser L u (te ++ rest)) o rest)
    /\ (L <= 6 -> forall rest, length (te ++ rest) < n -> follow (S L) rest = true ->
                  spine L u te o rest).
Proof.
  intros Hbase Hspine.
  assert (forall d L, L + d = Nat.min p 7 -> 1 <= L ->
            (forall rest, length (te ++ rest) < n -> follow L rest = true ->
                          agrees (level_parser L u (te ++ rest)) o rest)
            /\ (L <= 6 -> forall rest, length (te ++ rest) < n ->
                  follow (S L) rest = true -> spine L u te o rest)) as H.
  { induction d as [|d IH]; intros L Hd HL.
    - rewrite Nat.add_0_r in Hd.
      destruct (Nat.le_gt_cases 7 p) as [Hp|Hp].
      + assert (L = 7) as -> by lia. split; [|lia].
        intros rest Hn Hf. rewrite level_parser_top by lia. now apply Hbase.
      + assert (L = p) as -> by lia.
        assert (forall rest, length (te ++ rest) < n -> follow (S p) rest = true ->
                  spine p u te o rest) as Hsp by (apply Hspine; lia).
        split; [|intros _; exact Hsp].
        intros rest Hn Hf. apply agrees_from_spine; [exact Hf|].
        apply Hsp; [exact Hn|]. apply (follow_weaken p); [lia | exact Hf].
    - destruct (IH (S L)) as [Hup _]; [lia | lia |].
      assert (forall rest, length (te ++ rest) < n -> follow (S L) rest = true ->
                spine L u te o rest) as Hsp.
      { intros rest Hn Hf. apply spine_from_agrees; [lia | exact Hn |].
        now apply Hup. }
      split; [|intros _; exact Hsp].
      intros rest Hn Hf. apply agrees_from_spine; [exact Hf|].
      apply Hsp; [exact Hn|]. apply (follow_weaken L); [lia | exact Hf]. }
  intros L H1 Hp H7. apply (H (Nat.min p 7 - L)); lia.
Qed.
End Climb.

(** *** Literals and identifiers *)

Lemma not_token_digit (c : ascii) : extends_token c = false -> isdigit c = false.
Proof.
  unfold extends_token, is_ident_char, isalnum. intros H.
  apply orb_false_iff in H as [H _]. apply orb_false_iff in H as [H _].
  now apply orb_false_iff in H as [_ H].
Qed.

Lemma not_token_point (c : ascii) : extends_token c = false -> Ascii.eqb c "." = false.
Proof. unfold extends_token. intros H. now apply orb_false_iff in H as [_ H]. Qed.

Lemma not_token_ident (c : ascii) : extends_token c = false -> is_ident_char c = false.
Proof. unfold extends_token. intros H. now apply orb_false_iff in H as [H _]. Qed.

Lemma not_token_marker (c : ascii) :
  extends_token c = false -> Ascii.eqb c "e" || Ascii.eqb c "E" = false.
Proof.
  intros H%not_token_ident.
  destruct (Ascii.eqb c "e") eqn:E1; [apply Ascii.eqb_eq in E1; subst; discriminate|].
  destruct (Ascii.eqb c "E") eqn:E2; [apply Ascii.eqb_eq in E2; subst; discriminate|].
  reflexivity.
Qed.

Lemma stops_token_digit (s : text) : stops extends_token s -> stops isdigit s.
Proof. destruct s; [easy|]. apply not_token_digit. Qed.

Lemma stops_token_point (s : text) :
  stops extends_token s -> stops (fun c => Ascii.eqb c ".") s.
Proof. destruct s; [easy|]. apply not_token_point. Qed.

Lemma stops_token_ident (s : text) : stops extends_token s -> stops is_ident_char s.
Proof. destruct s; [easy|]. apply not_token_ident. Qed.

(** A well-formed exponent is consumed. *)
Lemma scan_exponent_valid (ex rest : text) :
  is_exponent ex = true -> stops extends_token rest ->
  scan_exponent (ex ++ rest) = (ex, rest).
Proof.
  intros Hex Hr. destruct ex as [|c s1].
  - cbn [app]. unfold scan_exponent. destruct rest as [|x rest]; [reflexivity|].
    simpl in Hr. now rewrite (not_token_marker _ Hr).
  - cbn [is_exponent] in Hex. apply andb_true_iff in Hex as [Hc Hds].
    apply andb_true_iff in Hds as [Hne Hds]. apply negb_true_iff in Hne.
    cbn [app]. unfold scan_exponent. rewrite Hc.
    destruct s1 as [|x t]; [discriminate|]. cbn [app].
    destruct (Ascii.eqb x "+" || Ascii.eqb x "-").
    + rewrite take_while_digits, drop_while_digits
        by (assumption || now apply stops_token_digit).
      now rewrite Hne.
    + change (x :: t ++ rest) with ((x :: t) ++ rest).
      rewrite take_while_digits, drop_while_digits
        by (assumption || now apply stops_token_digit).
      now rewrite Hne.
Qed.

Lemma is_exponent_stops (ex rest : text) :
  is_exponent ex = true -> stops extends_token rest ->
  stops isdigit (ex ++ rest) /\ stops (fun c => Ascii.eqb c ".") (ex ++ rest).
Proof.
  intros Hex Hr. destruct ex as [|c s1].
  - split; [now apply stops_token_digit | now apply stops_token_point].
  - cbn [is_exponent] in Hex. apply andb_true_iff in Hex as [Hc _].
    split; simpl; apply orb_true_iff in Hc as [Hc|Hc];
      apply Ascii.eqb_eq in Hc; subst; reflexivity.
Qed.

(** The scan of a literal takes the literal. *)
Lemma scan_number_literal (lit rest : text) :
  is_number_literal lit = true -> stops extends_token rest ->
  scan_number (lit ++ rest) = (lit, true, rest).
Proof.
  intros Hlit Hr. unfold is_number_literal in Hlit.
  pose proof (take_drop_while isdigit lit) as Hsplit.
  pose proof (take_while_forallb isdigit lit) as Hip.
  pose proof (stops_drop_while isdigit lit) as Hstop.
  remember (take_while isdigit lit) as ip eqn:Heqip.
  destruct (drop_while isdigit lit) as [|c r1] eqn:Hr0.
  - (* digits only *)
    apply negb_true_iff in Hlit. rewrite app_nil_r in Hsplit. subst lit.
    pose proof (scan_number_mantissa false false ip [] rest Hip eq_refl
                  (fun _ => proj1 (is_empty_false ip) Hlit)
                  (stops_token_digit _ Hr) (fun _ => stops_token_point _ Hr)) as S.
    cbn [app] in S. rewrite S.
    pose proof (scan_exponent_valid [] rest eq_refl Hr) as E. cbn [app] in E.
    rewrite E. cbn [fst snd app andb negb]. now rewrite app_nil_r, Hlit.
  - destruct (Ascii.eqb c ".") eqn:Ec.
    + (* a point after the digits *)
      apply Ascii.eqb_eq in Ec. subst c.
      apply andb_true_iff in Hlit as [Hne Hex]. apply negb_true_iff in Hne.
      pose proof (take_drop_while isdigit r1) as Hsplit1.
      pose proof (take_while_forallb isdigit r1) as Hfp.
      remember (take_while isdigit r1) as fp eqn:Heqfp.
      remember (drop_while isdigit r1) as ex eqn:Heqex.
      destruct (is_exponent_stops ex rest Hex Hr) as [Hd Hp].
      assert (lit ++ rest = ip ++ "."%char :: fp ++ ex ++ rest) as Htext.
      { rewrite <- Hsplit, <- Hsplit1. rewrite <- !app_assoc. cbn [app].
        now rewrite <- !app_assoc. }
      assert (lit = ip ++ "."%char :: fp ++ ex) as Hl.
      { rewrite <- Hsplit, <- Hsplit1. reflexivity. }
      destruct (is_empty ip) eqn:Ei.
      * (* the point comes first *)
        apply is_empty_true in Ei. rewrite Ei in *. cbn [andb app] in *.
        pose proof (scan_number_mantissa true false fp [] (ex ++ rest) Hfp eq_refl
                      ltac:(discriminate) Hd (fun _ => Hp)) as S.
        cbn [app] in S. rewrite Htext, S.
        rewrite (scan_exponent_valid ex rest Hex Hr). cbn [fst snd].
        rewrite Hl. cbn [negb orb andb]. rewrite ?orb_false_r, ?Hne. reflexivity.
      * pose proof (scan_number_mantissa false true ip fp (ex ++ rest) Hip Hfp
                      (fun _ => proj1 (is_empty_false ip) Ei) Hd ltac:(discriminate)) as S.
        cbn [app] in S. rewrite Htext, S.
        rewrite (scan_exponent_valid ex rest Hex Hr). cbn [fst snd].
        rewrite Ei, Hl. cbn [negb orb]. reflexivity.
    + (* an exponent after the digits *)
      apply andb_true_iff in Hlit as [Hne Hex]. apply negb_true_iff in Hne.
      destruct (is_exponent_stops (c :: r1) rest Hex Hr) as [Hd Hp].
      pose proof (scan_number_mantissa false false ip [] ((c :: r1) ++ rest) Hip eq_refl
                    (fun _ => proj1 (is_empty_false ip) Hne) Hd (fun _ => Hp)) as S.
      cbn [app] in S. rewrite <- Hsplit, <- app_assoc. cbn [app]. rewrite S.
      pose proof (scan_exponent_valid (c :: r1) rest Hex Hr) as E.
      cbn [app] in E. rewrite E. cbn [fst snd]. now rewrite Hne.
Qed.

Lemma number_literal_start (lit : text) :
  is_number_literal lit = true ->
  exists c t, lit = c :: t /\ (isdigit c = true \/ c = "."%char).
Proof.
  intros H. unfold is_number_literal in H. destruct lit as [|c t].
  - discriminate.
  - exists c, t. split; [reflexivity|]. cbn [take_while drop_while] in H.
    destruct (isdigit c) eqn:Ed; [now left|]. right.
    destruct (Ascii.eqb c ".") eqn:Ec; [now apply Ascii.eqb_eq in Ec|].
    discriminate.
Qed.

(** *** The first character of an expression *)

Lemma digit_class (c : ascii) :
  isdigit c = true ->
  isspace c = false /\ isalpha c = false /\ Ascii.eqb c "_" = false
  /\ Ascii.eqb c "(" = false /\ Ascii.eqb c "+" = false
  /\ Ascii.eqb c "-" = false /\ Ascii.eqb c "!" = false
  /\ Ascii.eqb c ")" = false /\ Ascii.eqb c "=" = false.
Proof. destruct c as [[] [] [] [] [] [] [] []]; vm_compute; intuition congruence. Qed.

Lemma ident_start_class (c : ascii) :
  is_ident_start c = true ->
  isspace c = false /\ Ascii.eqb c "(" = false /\ Ascii.eqb c "+" = false
  /\ Ascii.eqb c "-" = false /\ Ascii.eqb c "!" = false
  /\ Ascii.eqb c ")" = false /\ Ascii.eqb c "=" = false.
Proof. destruct c as [[] [] [] [] [] [] [] []]; vm_compute; intuition congruence. Qed.

Lemma expr_start_class (c : ascii) :
  expr_start c = true ->
  isspace c = false /\ Ascii.eqb c ")" = false /\ Ascii.eqb c "=" = false.
Proof. destruct c as [[] [] [] [] [] [] [] []]; vm_compute; intuition congruence. Qed.

Lemma space_class (c : ascii) :
  isspace c = true -> Ascii.eqb c "=" = false /\ is_ident_char c = false.
Proof. destruct c as [[] [] [] [] [] [] [] []]; vm_compute; intuition congruence. Qed.

Lemma text_start (e : cst) :
  wf e = true -> exists c t, text_of e = c :: t /\ expr_start c = true.
Proof.
  induction e as [lit|id|id w0 w1|id w0 args|w1 e IH w2|op w e IH|l IHl w1 op w2 r IHr];
    cbn [wf text_of]; intros H.
  - destruct (number_literal_start _ H) as (c & t & -> & [Hc| ->]).
    + exists c, t. split; [reflexivity|]. unfold expr_start. now rewrite Hc.
    + exists "."%char, t. split; reflexivity.
  - destruct id as [|c t]; [discriminate|]. cbn [is_identifier] in H.
    apply andb_true_iff in H as [Hc _]. exists c, t. split; [reflexivity|].
    unfold expr_start. rewrite Hc. now rewrite !orb_true_r.
  - apply andb_true_iff in H as [H _]. apply andb_true_iff in H as [H _].
    destruct id as [|c t]; [discriminate|]. cbn [is_identifier] in H.
    apply andb_true_iff in H as [Hc _]. eexists c, _. split; [reflexivity|].
    unfold expr_start. rewrite Hc. now rewrite !orb_true_r.
  - apply andb_true_iff in H as [H _]. apply andb_true_iff in H as [H _].
    destruct id as [|c t]; [discriminate|]. cbn [is_identifier] in H.
    apply andb_true_iff in H as [Hc _]. eexists c, _. split; [reflexivity|].
    unfold expr_start. rewrite Hc. now rewrite !orb_true_r.
  - eexists "("%char, _. split; reflexivity.
  - destruct op; eexists _, _; split; reflexivity.
  - repeat (apply andb_true_iff in H as [H ?]).
    destruct (IHl H) as (c & t & -> & Hc). eexists c, _. split; [reflexivity | exact Hc].
Qed.

Lemma text_skipWs (e : cst) (rest : text) :
  wf e = true -> skipWs (text_of e ++ rest) = text_of e ++ rest.
Proof.
  intros (c & t & -> & Hc)%text_start. apply expr_start_class in Hc as [Hc _].
  cbn. now rewrite Hc.
Qed.

(** White space, then the text of a tree: no [=] comes first. *)
Lemma operand_no_equals (w : text) (e : cst) (rest : text) :
  is_ws w = true -> wf e = true ->
  stops (fun c => Ascii.eqb c "=") (w ++ text_of e ++ rest).
Proof.
  intros Hw He. destruct w as [|x w].
  - destruct (text_start e He) as (c & t & -> & Hc).
    apply expr_start_class in Hc as (_ & _ & Hc). exact Hc.
  - simpl in Hw. apply andb_true_iff in Hw as [Hx _].
    now apply space_class in Hx as [Hx _].
Qed.

Lemma text_length (e : cst) : wf e = true -> 1 <= length (text_of e).
Proof. intros (c & t & -> & _)%text_start. simpl. lia. Qed.

(** *** Matching in front of a known character *)

Lemma matchChar_skip (c : ascii) (s r : text) :
  skipWs s = c :: r -> matchChar c s = (true, r).
Proof. intros H. unfold matchChar. now rewrite H, Ascii.eqb_refl. Qed.

Lemma matchChar_skip_other (c x : ascii) (s r : text) :
  skipWs s = x :: r -> Ascii.eqb x c = false -> matchChar c s = (false, x :: r).
Proof. intros H Hx. unfold matchChar. now rewrite H, Hx. Qed.

Lemma matchChar_cons (x c : ascii) (s : text) :
  isspace c = false ->
  matchChar x (c :: s) = if Ascii.eqb c x then (true, s) else (false, c :: s).
Proof. intros Hc. unfold matchChar. cbn [skipWs drop_while]. now rewrite Hc. Qed.

Lemma matchChar_no_paren (s : text) :
  starts_with "(" (skipWs s) = false -> matchChar "(" s = (false, skipWs s).
Proof.
  intros H. unfold matchChar. destruct (skipWs s) as [|x r]; [reflexivity|].
  cbn [starts_with] in H. rewrite andb_true_r, Ascii.eqb_sym in H. now rewrite H.
Qed.

Lemma parseIdentifier_id (id rest : text) :
  is_identifier id = true -> stops is_ident_char rest ->
  parseIdentifier (id ++ rest) = (id, rest).
Proof.
  intros Hid Hr. destruct id as [|c t]; [discriminate|].
  cbn [is_identifier] in Hid. apply andb_true_iff in Hid as [Hc Ht].
  destruct (ident_start_class _ Hc) as (Hs & _).
  unfold parseIdentifier. cbn [app skipWs drop_while]. rewrite Hs, Hc.
  rewrite take_while_all, drop_while_all by exact Ht.
  rewrite take_while_stops, drop_while_stops by exact Hr.
  now rewrite app_nil_r.
Qed.

Section Start.
Variable M : platform.
Variable vars : gmap text double.
Variable prefix : text.

Lemma unary_start (n : nat) (c : ascii) (s : text) :
  isspace c = false ->
  unary M vars prefix (S n) (c :: s)
  = if Ascii.eqb c "+" then unary M vars prefix n s
    else if Ascii.eqb c "-" then
      let* (v, s) := unary M vars prefix n s in Ok (dneg v, s)
    else if Ascii.eqb c "!" then
      let* (v, s) := unary M vars prefix n s in
      Ok (if as_bool (truthy v) then d_zero else d_one, s)
    else primary M vars prefix (expr (unary M vars prefix n)) (c :: s).
Proof.
  intros Hc. cbn [unary].
  assert (skipWs (c :: s) = c :: s) as -> by (cbn; now rewrite Hc).
  rewrite (matchChar_cons "+" c s Hc). destruct (Ascii.eqb c "+"); [reflexivity|].
  rewrite (matchChar_cons "-" c s Hc). destruct (Ascii.eqb c "-"); [reflexivity|].
  rewrite (matchChar_cons "!" c s Hc). destruct (Ascii.eqb c "!"); reflexivity.
Qed.

Lemma callFunction_value (id : text) (args : list double) (s : text) :
  match call_value M id args with
  | Some v => callFunction M prefix id args s = Ok v
  | None => exists what, callFunction M prefix id args s = Throw what
  end.
Proof.
  unfold call_value, callFunction, fail.
  repeat (match goal with
          | |- context [if ?b then _ else _] => destruct b
          | |- context [match ?l with [] => _ | _ :: _ => _ end] => destruct l
          end; cbn [success]; try reflexivity; try (eexists; reflexivity)).
Qed.

Lemma args_loop_skipWs (e : parser) (k : nat) (acc : list double) (s : text) :
  skips_ws e ->
  args_loop prefix e k acc (skipWs s) = args_loop prefix e k acc s.
Proof.
  intros He. destruct k; [reflexivity|]. cbn [args_loop].
  now rewrite (skips_ws_skipWs e s He).
Qed.
End Start.

Section Trees.
Variable M : platform.
Variable vars : gmap text double.
Variable prefix : text.

Lemma tree_base_parses (n : nat) (e : cst) :
  tree_base M vars prefix n e -> tree_parses M vars prefix n e.
Proof. intros [H1 H2]. exact (climb M vars prefix n _ _ _ H1 H2). Qed.

Lemma tree_base_zero (e : cst) : tree_base M vars prefix 0 e.
Proof. split; intros _ rest H; lia. Qed.

Lemma agrees_ok (v : double) (rest : text) :
  agrees (Ok (v, rest)) (Some v) rest.
Proof. exists rest. auto. Qed.

Lemma agrees_stod (lit rest : text) :
  agrees (let* v := stod lit in Ok (v, rest)) (success (stod lit)) rest.
Proof.
  pose proof (stod_not_stuck lit) as H.
  destruct (stod lit) as [v|what|]; cbn [bind success]; [| |congruence].
  - apply agrees_ok.
  - now exists what.
Qed.

(** A literal. *)
Lemma base_num (n : nat) (lit : text) :
  is_number_literal lit = true -> tree_base M vars prefix n (CNum lit).
Proof.
  intros Hlit. split; [|cbn; lia]. intros _ rest Hn Hf.
  apply follow_spec in Hf as (Hadj & _ & _).
  destruct n as [|n]; [lia|]. cbn [text_of value].
  destruct (number_literal_start _ Hlit) as (c & t & El & Hc).
  assert (isspace c = false /\ isalpha c = false /\ Ascii.eqb c "_" = false
          /\ Ascii.eqb c "(" = false /\ Ascii.eqb c "+" = false
          /\ Ascii.eqb c "-" = false /\ Ascii.eqb c "!" = false
          /\ (isdigit c || Ascii.eqb c ".") = true)
    as (Hs & Ha & Hu & Hp & Hpl & Hmi & Hno & Hd).
  { destruct Hc as [Hc| ->]; [|repeat split; reflexivity].
    destruct (digit_class _ Hc) as (? & ? & ? & ? & ? & ? & ? & _).
    rewrite Hc. repeat split; assumption. }
  assert (unary M vars prefix (S n) (lit ++ rest)
          = parseNumber prefix (lit ++ rest)) as ->.
  { rewrite El. cbn [app]. rewrite (unary_start M vars prefix n c _ Hs).
    rewrite Hpl, Hmi, Hno. unfold primary.
    assert (skipWs (c :: t ++ rest) = c :: t ++ rest) as Hsk
      by (cbn; now rewrite Hs).
    rewrite Hsk, (matchChar_cons "(" c _ Hs), Hp.
    unfold peek. rewrite Hsk, Ha, Hu. cbn [orb]. now rewrite Hd. }
  unfold parseNumber.
  assert (skipWs (lit ++ rest) = lit ++ rest) as ->
    by (rewrite El; cbn; now rewrite Hs).
  rewrite (scan_number_literal _ _ Hlit Hadj).
  assert (is_empty lit = false) as -> by (now rewrite El).
  apply agrees_stod.
Qed.

(** A variable. *)
Lemma base_var (n : nat) (id : text) :
  is_identifier id = true -> tree_base M vars prefix n (CVar id).
Proof.
  intros Hid. split; [|cbn; lia]. intros _ rest Hn Hf.
  apply follow_spec in Hf as (Hadj & Hnp & _).
  destruct n as [|n]; [lia|]. cbn [text_of value].
  destruct id as [|c t] eqn:Eid; [discriminate|]. rewrite <- Eid in *.
  assert (is_ident_start c = true) as Hc.
  { rewrite Eid in Hid. cbn [is_identifier] in Hid.
    now apply andb_true_iff in Hid as [Hc _]. }
  destruct (ident_start_class _ Hc) as (Hs & Hp & Hpl & Hmi & Hno & _).
  assert (unary M vars prefix (S n) (id ++ rest)
          = match vars !! id with
            | Some v => Ok (v, skipWs rest)
            | None => fail prefix ("Unknown variable: " ++ id) (skipWs rest)
            end) as ->.
  { rewrite Eid. cbn [app]. rewrite (unary_start M vars prefix n c _ Hs).
    rewrite Hpl, Hmi, Hno. unfold primary.
    assert (skipWs (c :: t ++ rest) = c :: t ++ rest) as Hsk
      by (cbn; now rewrite Hs).
    rewrite Hsk, (matchChar_cons "(" c _ Hs), Hp.
    unfold peek. rewrite Hsk. unfold is_ident_start in Hc. rewrite Hc.
    change (c :: t ++ rest) with ((c :: t) ++ rest). rewrite <- Eid.
    rewrite (parseIdentifier_id id rest Hid (stops_token_ident _ Hadj)).
    rewrite matchChar_skipWs, (matchChar_no_paren _ Hnp). reflexivity. }
  destruct (vars !! id) as [v|].
  - exists (skipWs rest). split; [reflexivity|].
    split; [apply skipWs_idem | apply skipWs_length].
  - unfold fail. eexists. reflexivity.
Qed.

Lemma prec_positive (e : cst) : 1 <= prec e.
Proof. destruct e; cbn; try lia. destruct op; cbn; lia. Qed.

Lemma expr_level (u : parser) : expr u = level_parser 1 u.
Proof. reflexivity. Qed.

Lemma expr_skips_ws (n : nat) : skips_ws (expr (unary M vars prefix n)).
Proof. rewrite expr_level. apply level_parser_skips_ws, unary_skips_ws. Qed.

(** The start of a call: the identifier and the opening parenthesis. *)
Lemma unary_call_start (n : nat) (id w0 s : text) :
  is_identifier id = true -> is_ws w0 = true ->
  unary M vars prefix (S n) (id ++ w0 ++ "(" ++ s)
  = let '(b, s2) := matchChar ")" s in
    if b then let* v := callFunction M prefix id [] s2 in Ok (v, s2)
    else
      let* (args, s3) :=
        args_loop prefix (expr (unary M vars prefix n)) (S (length s2)) [] s2 in
      let* v := callFunction M prefix id args s3 in Ok (v, s3).
Proof.
  intros Hid Hw0.
  destruct id as [|c t] eqn:Eid; [discriminate|]. rewrite <- Eid in *.
  assert (is_ident_start c = true) as Hc.
  { rewrite Eid in Hid. cbn [is_identifier] in Hid.
    now apply andb_true_iff in Hid as [Hc _]. }
  destruct (ident_start_class _ Hc) as (Hs & Hp & Hpl & Hmi & Hno & _).
  rewrite Eid. cbn [app]. rewrite (unary_start M vars prefix n c _ Hs).
  rewrite Hpl, Hmi, Hno. unfold primary.
  assert (skipWs (c :: t ++ w0 ++ "("%char :: s) = c :: t ++ w0 ++ "("%char :: s) as Hsk
    by (cbn; now rewrite Hs).
  rewrite Hsk, (matchChar_cons "(" c _ Hs), Hp.
  unfold peek. rewrite Hsk. unfold is_ident_start in Hc. rewrite Hc.
  change (c :: t ++ w0 ++ "("%char :: s) with ((c :: t) ++ w0 ++ "("%char :: s).
  rewrite <- Eid.
  assert (stops is_ident_char (w0 ++ "("%char :: s)) as Hst.
  { destruct w0 as [|x w0]; [reflexivity|]. simpl in Hw0.
    apply andb_true_iff in Hw0 as [Hx _]. now apply space_class in Hx as [_ Hx]. }
  rewrite (parseIdentifier_id id _ Hid Hst).
  rewrite matchChar_skipWs.
  rewrite (matchChar_skip "(" (w0 ++ "("%char :: s) s)
    by (now rewrite skipWs_ws by exact Hw0).
  rewrite matchChar_skipWs. reflexivity.
Qed.

Lemma agrees_call (id : text) (args : list double) (rest : text) :
  agrees (let* v := callFunction M prefix id args rest in Ok (v, rest))
         (call_value M id args) rest.
Proof.
  pose proof (callFunction_value M prefix id args rest) as H.
  destruct (call_value M id args) as [v|].
  - rewrite H. apply agrees_ok.
  - destruct H as (what & ->). now exists what.
Qed.

(** A call without arguments. *)
Lemma base_call0 (n : nat) (id w0 w1 : text) :
  is_identifier id = true -> is_ws w0 = true -> is_ws w1 = true ->
  tree_base M vars prefix n (CCall0 id w0 w1).
Proof.
  intros Hid Hw0 Hw1. split; [|cbn; lia]. intros _ rest Hn Hf.
  destruct n as [|n]; [lia|]. cbn [text_of value].
  rewrite <- !app_assoc.
  rewrite (unary_call_start n id w0 _ Hid Hw0).
  rewrite (matchChar_skip ")" (w1 ++ ")" ++ rest) rest)
    by (now rewrite skipWs_ws by exact Hw1).
  apply agrees_call.
Qed.

Lemma args_text_start (a : carglist) (rest : text) :
  wf_args a = true ->
  exists c r, skipWs (args_text a ++ rest) = c :: r /\ Ascii.eqb c ")" = false.
Proof.
  destruct a as [w1 e w2|w1 e w2 more]; cbn [wf_args args_text]; intros H;
    repeat (apply andb_true_iff in H as [H ?]).
  - rewrite <- !app_assoc, skipWs_ws by assumption.
    rewrite text_skipWs by assumption.
    destruct (text_start e) as (c & t & -> & Hc); [assumption|].
    apply expr_start_class in Hc as (_ & Hc & _). eexists c, _. split; [reflexivity|exact Hc].
  - rewrite <- !app_assoc, skipWs_ws by assumption.
    rewrite text_skipWs by assumption.
    destruct (text_start e) as (c & t & -> & Hc); [assumption|].
    apply expr_start_class in Hc as (_ & Hc & _). eexists c, _. split; [reflexivity|exact Hc].
Qed.

Lemma value_call (id w0 : text) (args : carglist) :
  value M vars (CCall id w0 args)
  = match values M vars args with
    | Some vs => call_value M id vs
    | None => None
    end.
Proof. reflexivity. Qed.

Lemma text_call (id w0 : text) (args : carglist) :
  text_of (CCall id w0 args) = id ++ w0 ++ "(" ++ args_text args.
Proof. reflexivity. Qed.

(** A call with arguments. *)
Lemma base_call (id w0 : text) (args : carglist) :
  is_identifier id = true -> is_ws w0 = true -> wf_args args = true ->
  (forall n, args_parse M vars prefix n args) ->
  forall n, tree_base M vars prefix n (CCall id w0 args).
Proof.
  intros Hid Hw0 Hwf Hargs n. split; [|cbn; lia]. intros _ rest Hn Hf.
  destruct n as [|n]; [lia|]. rewrite value_call, text_call in *.
  rewrite <- !app_assoc.
  rewrite (unary_call_start n id w0 _ Hid Hw0).
  destruct (args_text_start args rest Hwf) as (c & r & Hsk & Hc).
  rewrite (matchChar_skip_other ")" c _ r Hsk Hc). rewrite <- Hsk.
  rewrite (args_loop_skipWs prefix _ _ _ _ (expr_skips_ws n)).
  specialize (Hargs n (S (length (skipWs (args_text args ++ rest)))) [] rest).
  assert (length (args_text args ++ rest) < n) as Hlen.
  { assert (length ((id ++ w0 ++ "(" ++ args_text args) ++ rest)
            = length id + length w0 + 1 + length (args_text args ++ rest)) as E
      by (rewrite !length_app; simpl; lia).
    lia. }
  specialize (Hargs Hlen ltac:(lia)).
  destruct (values M vars args) as [vs|].
  - rewrite Hargs. cbn [bind app]. apply agrees_call.
  - destruct Hargs as (what & ->). now exists what.
Qed.

Lemma unary_paren_start (n : nat) (s : text) :
  unary M vars prefix (S n) ("("%char :: s)
  = let* (v, s') := expr (unary M vars prefix n) s in
    let '(b, s'') := matchChar ")" s' in
    if b then Ok (v, s'') else fail prefix "Expected ')'" s''.
Proof.
  rewrite (unary_start M vars prefix n "(" s eq_refl).
  change (Ascii.eqb "(" "+") with false. change (Ascii.eqb "(" "-") with false.
  change (Ascii.eqb "(" "!") with false. cbv iota.
  unfold primary. change (skipWs ("("%char :: s)) with ("("%char :: s).
  rewrite (matchChar_cons "(" "(" s eq_refl).
  change (Ascii.eqb "(" "(") with true. reflexivity.
Qed.

(** An expression in parentheses. *)
Lemma base_paren (w1 : text) (e : cst) (w2 : text) :
  is_ws w1 = true -> wf e = true -> is_ws w2 = true ->
  (forall n, tree_parses M vars prefix n e) ->
  forall n, tree_base M vars prefix n (CParen w1 e w2).
Proof.
  intros Hw1 He Hw2 IH n. split; [|cbn; lia]. intros _ rest Hn Hf.
  destruct n as [|n]; [lia|]. cbn [text_of value] in *.
  rewrite <- !app_assoc in *. cbn [app] in *.
  rewrite unary_paren_start.
  rewrite (expr_skips_ws n w1 _ Hw1), expr_level.
  destruct (IH n 1) as [Hag _]; [lia | apply prec_positive | lia |].
  specialize (Hag (w2 ++ ")"%char :: rest)).
  assert (length (text_of e ++ w2 ++ ")"%char :: rest) < n) as Hlen.
  { simpl in Hn. rewrite length_app in Hn. lia. }
  specialize (Hag Hlen (follow_closer ")" w2 rest 1 (or_introl eq_refl) Hw2)).
  destruct (value M vars e) as [v|].
  - destruct Hag as (rest' & -> & Hsk & Hl). cbn [bind].
    rewrite (matchChar_skip ")" rest' rest)
      by (rewrite Hsk; now rewrite skipWs_ws by exact Hw2).
    apply agrees_ok.
  - destruct Hag as (what & ->). now exists what.
Qed.
End Trees.

Section Operators.
Variable M : platform.
Variable vars : gmap text double.
Variable prefix : text.

(** A sign or a negation. *)
Lemma base_unary (op : unop) (w : text) (e : cst) :
  is_ws w = true -> wf e = true -> 7 <= prec e ->
  (forall n, tree_base M vars prefix n e) ->
  forall n, tree_base M vars prefix n (CUnary op w e).
Proof.
  intros Hw He Hp IH n. split; [|cbn; lia]. intros _ rest Hn Hf.
  destruct n as [|n]; [lia|]. cbn [text_of value prec] in *.
  destruct (IH n) as [Hag _]. specialize (Hag Hp rest).
  assert (length (text_of e ++ rest) < n) as Hlen.
  { rewrite <- !app_assoc, !length_app in Hn. rewrite length_app.
    destruct op; simpl in Hn; lia. }
  specialize (Hag Hlen Hf).
  assert (forall s, unary M vars prefix n (w ++ s) = unary M vars prefix n s) as Hsk
    by (intros s; now apply unary_skips_ws).
  destruct op; cbn [unop_token app]; rewrite <- !app_assoc;
    [ rewrite (unary_start M vars prefix n "+" _ eq_refl)
    | rewrite (unary_start M vars prefix n "-" _ eq_refl)
    | rewrite (unary_start M vars prefix n "!" _ eq_refl) ];
    cbn [Ascii.eqb Bool.eqb]; rewrite Hsk;
    (destruct (value M vars e) as [v|];
     [ destruct Hag as (rest' & -> & Hs & Hl); cbn [bind option_map unop_sem];
       exists rest'; auto
     | destruct Hag as (what & ->); now exists what ]).
Qed.

Lemma bin_loop_step (sub : parser) (ops : optable) (k : nat) (v : double)
    (s : text) f (s' : text) :
  match_op ops (skipWs s) = Some (f, s') ->
  bin_loop sub ops (S k) v s
  = let* (r, s'') := sub s' in bin_loop sub ops k (f v r) s''.
Proof. intros H. cbn [bin_loop]. now rewrite H. Qed.

(** A binary operator: the left operand belongs to the tier of the
    operator or a tighter one, the right operand to a tighter one. *)
Lemma base_bin (n : nat) (l : cst) (w1 : text) (op : binop) (w2 : text) (r : cst) :
  wf l = true -> is_ws w1 = true -> is_ws w2 = true -> wf r = true ->
  level op <= prec l -> level op < prec r ->
  tree_parses M vars prefix n l -> tree_parses M vars prefix n r ->
  tree_base M vars prefix n (CBin l w1 op w2 r).
Proof.
  intros Hl Hw1 Hw2 Hr Hpl Hpr IHl IHr.
  assert (1 <= level op <= 6) as HL by (destruct op; cbn; lia).
  split; [cbn; lia|]. intros _ rest Hn Hf. cbn [prec] in *.
  set (L := level op) in *.
  change (text_of (CBin l w1 op w2 r))
    with (text_of l ++ w1 ++ token op ++ w2 ++ text_of r) in *.
  change (value M vars (CBin l w1 op w2 r))
    with (match value M vars l, value M vars r with
          | Some a, Some b => Some (binop_sem op a b)
          | _, _ => None
          end).
  assert (length ((text_of l ++ w1 ++ token op ++ w2 ++ text_of r) ++ rest)
          = length (text_of l) + length w1 + length (token op) + length w2
            + length (text_of r) + length rest) as Elen
    by (rewrite !length_app; lia).
  pose proof (token_nonempty op) as Htok.
  pose proof (text_length l Hl) as Hll.
  (* the left operand, up to the loop of the tier *)
  destruct (IHl L) as [_ Hsl]; [lia | lia | lia |].
  specialize (Hsl ltac:(lia) (w1 ++ token op ++ w2 ++ text_of r ++ rest)).
  assert (length (text_of l ++ w1 ++ token op ++ w2 ++ text_of r ++ rest) < n) as Hlenl
    by (rewrite !length_app; lia).
  specialize (Hsl Hlenl (follow_operator op w1 _ (S L) Hw1 ltac:(unfold L; lia))).
  (* the right operand, by the rule of the next tier *)
  destruct (IHr (S L)) as [Har _]; [lia | unfold L; lia | lia |].
  specialize (Har rest ltac:(rewrite length_app; lia) Hf).
  unfold spine in *. rewrite <- !app_assoc.
  destruct (value M vars l) as [a|]; [|exact Hsl].
  assert (level_parser L (unary M vars prefix n)
            (text_of l ++ w1 ++ token op ++ w2 ++ text_of r ++ rest)
          = let* (r0, s'') :=
              level_parser (S L) (unary M vars prefix n) (text_of r ++ rest) in
            bin_loop (level_parser (S L) (unary M vars prefix n)) (tier_table L)
              (length (w1 ++ token op ++ w2 ++ text_of r ++ rest))
              (binop_sem op a r0) s'') as Hstep.
  { rewrite Hsl.
    rewrite (bin_loop_step _ _ _ a _ (binop_sem op) (w2 ++ text_of r ++ rest)).
    - now rewrite (level_parser_skips_ws _ (unary_skips_ws M vars prefix n)
                     (S L) w2 _ Hw2).
    - rewrite skipWs_ws by exact Hw1. rewrite token_not_space.
      apply match_op_token. now apply operand_no_equals. }
  destruct (value M vars r) as [b|].
  - destruct Har as (rest' & E & Hs & Hlr). rewrite Hstep, E. cbn [bind].
    rewrite (bin_loop_budget _ _ (tier_table_nonempty L) n
               (level_progresses M vars prefix n (S L))
               _ (S (length rest)) _ rest') by (rewrite ?length_app; lia).
    rewrite <- bin_loop_skipWs, Hs, bin_loop_skipWs. reflexivity.
  - destruct Har as (what & E). exists what. now rewrite Hstep, E.
Qed.

Lemma values_one (w1 : text) (e : cst) (w2 : text) :
  values M vars (AOne w1 e w2) = option_map (fun v => [v]) (value M vars e).
Proof. reflexivity. Qed.

Lemma values_more (w1 : text) (e : cst) (w2 : text) (more : carglist) :
  values M vars (AMore w1 e w2 more)
  = match value M vars e, values M vars more with
    | Some v, Some vs => Some (v :: vs)
    | _, _ => None
    end.
Proof. reflexivity. Qed.

(** The last argument of a call. *)
Lemma args_one (n : nat) (w1 : text) (e : cst) (w2 : text) :
  is_ws w1 = true -> wf e = true -> is_ws w2 = true ->
  tree_parses M vars prefix n e ->
  args_parse M vars prefix n (AOne w1 e w2).
Proof.
  intros Hw1 He Hw2 IH k acc rest Hn Hk. rewrite values_one.
  change (args_text (AOne w1 e w2)) with (w1 ++ text_of e ++ w2 ++ ")") in *.
  rewrite <- !app_assoc in *. cbn [app] in *.
  rewrite skipWs_ws in Hk by exact Hw1.
  destruct k as [|k]; [lia|]. cbn [args_loop].
  rewrite (expr_skips_ws M vars prefix n w1 _ Hw1), expr_level.
  destruct (IH 1) as [Hag _]; [lia | apply prec_positive | lia |].
  specialize (Hag (w2 ++ ")"%char :: rest)).
  assert (length (text_of e ++ w2 ++ ")"%char :: rest) < n) as Hlen
    by (rewrite length_app in Hn; lia).
  specialize (Hag Hlen (follow_closer ")" w2 rest 1 (or_introl eq_refl) Hw2)).
  destruct (value M vars e) as [v|]; cbn [option_map].
  - destruct Hag as (rest' & -> & Hs & Hl). cbn [bind].
    rewrite matchChar_skipWs.
    rewrite (matchChar_skip ")" rest' rest)
      by (rewrite Hs; now rewrite skipWs_ws by exact Hw2).
    reflexivity.
  - destruct Hag as (what & ->). now exists what.
Qed.

(** An argument that a comma follows. *)
Lemma args_more (n : nat) (w1 : text) (e : cst) (w2 : text) (more : carglist) :
  is_ws w1 = true -> wf e = true -> is_ws w2 = true ->
  tree_parses M vars prefix n e ->
  args_parse M vars prefix n more ->
  args_parse M vars prefix n (AMore w1 e w2 more).
Proof.
  intros Hw1 He Hw2 IH IHm k acc rest Hn Hk. rewrite values_more.
  change (args_text (AMore w1 e w2 more))
    with (w1 ++ text_of e ++ w2 ++ "," ++ args_text more) in *.
  rewrite <- !app_assoc in *. cbn [app] in *.
  rewrite skipWs_ws in Hk by exact Hw1. rewrite text_skipWs in Hk by exact He.
  destruct k as [|k]; [lia|]. cbn [args_loop].
  rewrite (expr_skips_ws M vars prefix n w1 _ Hw1), expr_level.
  destruct (IH 1) as [Hag _]; [lia | apply prec_positive | lia |].
  specialize (Hag (w2 ++ ","%char :: args_text more ++ rest)).
  pose proof (text_length e He) as Hle.
  assert (length (text_of e ++ w2 ++ ","%char :: args_text more ++ rest) < n) as Hlen
    by (rewrite length_app in Hn; lia).
  specialize (Hag Hlen (follow_closer "," w2 _ 1 (or_intror eq_refl) Hw2)).
  specialize (IHm k (acc ++ match value M vars e with Some v => [v] | None => [] end) rest).
  assert (length (args_text more ++ rest) < n) as Hlenm.
  { rewrite !length_app in Hlen. cbn [length] in Hlen. rewrite length_app in Hlen.
    rewrite length_app. lia. }
  assert (length (skipWs (args_text more ++ rest)) < k) as Hkm.
  { pose proof (skipWs_length (args_text more ++ rest)).
    rewrite !length_app in Hk. cbn [length] in Hk. rewrite length_app in Hk.
    rewrite length_app in H. lia. }
  specialize (IHm Hlenm Hkm).
  destruct (value M vars e) as [v|].
  - destruct Hag as (rest' & -> & Hs & Hl). cbn [bind].
    rewrite skipWs_ws in Hs by exact Hw2.
    change (skipWs (","%char :: args_text more ++ rest))
      with (","%char :: args_text more ++ rest) in Hs.
    rewrite matchChar_skipWs.
    rewrite (matchChar_skip_other ")" "," rest' _ Hs eq_refl).
    rewrite (matchChar_skip "," _ (args_text more ++ rest)) by reflexivity.
    rewrite <- expr_level.
    destruct (values M vars more) as [vs|].
    + rewrite IHm. now rewrite <- app_assoc.
    + exact IHm.
  - destruct Hag as (what & ->). now exists what.
Qed.

(** Every well-formed tree is parsed to its value. *)
Theorem parse_tree :
  (forall e, wf e = true -> forall n, tree_base M vars prefix n e)
  /\ (forall a, wf_args a = true -> forall n, args_parse M vars prefix n a).
Proof.
  apply cst_carglist_ind.
  - intros lit H n. now apply base_num.
  - intros id H n. now apply base_var.
  - intros id w0 w1 H n. cbn [wf] in H.
    repeat (apply andb_true_iff in H as [H ?]). now apply base_call0.
  - intros id w0 args IH H. cbn [wf] in H.
    repeat (apply andb_true_iff in H as [H ?]). apply base_call; auto.
  - intros w1 e IH w2 H. cbn [wf] in H.
    repeat (apply andb_true_iff in H as [H ?]). apply base_paren; auto.
    intros n. apply tree_base_parses. auto.
  - intros op w e IH H. cbn [wf] in H.
    repeat (apply andb_true_iff in H as [H ?]).
    apply base_unary; auto. now apply Nat.leb_le.
  - intros l IHl w1 op w2 r IHr H n. cbn [wf] in H.
    repeat (apply andb_true_iff in H as [H ?]).
    apply base_bin; auto.
    + now apply Nat.leb_le.
    + now apply Nat.ltb_lt.
    + apply tree_base_parses. auto.
    + apply tree_base_parses. auto.
  - intros w1 e IH w2 H n. cbn [wf_args] in H.
    repeat (apply andb_true_iff in H as [H ?]).
    apply args_one; auto. apply tree_base_parses. auto.
  - intros w1 e IH w2 more IHm H n. cbn [wf_args] in H.
    repeat (apply andb_true_iff in H as [H ?]).
    apply args_more; auto. apply tree_base_parses. auto.
Qed.
End Operators.

Section Evaluation.
Variable M : platform.

(** The evaluation of the text of a tree gives the value of the tree,
    or fails when the tree has none. *)
Theorem evalExpr_tree (vars : gmap text double) (prefix : text)
    (e : cst) (w w' : text) :
  wf e = true -> is_ws w = true -> is_ws w' = true ->
  match value M vars e with
  | Some v => evalExpr M vars (w ++ text_of e ++ w') prefix = Ok v
  | None => exists what, evalExpr M vars (w ++ text_of e ++ w') prefix = Throw what
  end.
Proof.
  intros He Hw Hw'. unfold evalExpr, eval.
  set (n := S (length (w ++ text_of e ++ w'))).
  rewrite (expr_skips_ws M vars prefix n w _ Hw), expr_level.
  destruct (proj1 (parse_tree M vars prefix) e He n) as [B1 B2].
  destruct (climb M vars prefix n _ _ _ B1 B2 1) as [Hag _];
    [lia | apply prec_positive | lia |].
  specialize (Hag w').
  assert (length (text_of e ++ w') < n) as Hlen
    by (unfold n; rewrite !length_app; lia).
  specialize (Hag Hlen (follow_end w' 1 Hw')).
  destruct (value M vars e) as [v|].
  - destruct Hag as (rest' & -> & Hs & _). cbn [bind].
    assert (skipWs w' = []) as Hnil
      by (rewrite <- (app_nil_r w'); now rewrite skipWs_ws).
    now rewrite Hs, Hnil.
  - destruct Hag as (what & ->). now exists what.
Qed.

(** An arithmetic tree has a value, whatever the variables. *)
Lemma arith_value (e : cst) :
  arith e = true -> exists v, forall vars, value M vars e = Some v.
Proof.
  induction e as [lit|id|id w0 w1|id w0 args|w1 e IH w2|op w e IH|l IHl w1 op w2 r IHr];
    cbn [arith]; intros H; try discriminate.
  - destruct (stod lit) as [v| |] eqn:E; try discriminate.
    exists v. intros vars. cbn [value]. now rewrite E.
  - destruct (IH H) as (v & Hv). exists v. intros vars. cbn [value]. apply Hv.
  - destruct op; try discriminate; destruct (IH H) as (v & Hv).
    + exists v. intros vars. cbn [value]. now rewrite Hv.
    + exists (dneg v). intros vars. cbn [value]. now rewrite Hv.
  - apply andb_true_iff in H as [H Hr]. apply andb_true_iff in H as [_ Hl].
    destruct (IHl Hl) as (a & Ha). destruct (IHr Hr) as (b & Hb).
    exists (binop_sem op a b). intros vars.
    change (value M vars (CBin l w1 op w2 r))
      with (match value M vars l, value M vars r with
            | Some a, Some b => Some (binop_sem op a b)
            | _, _ => None
            end).
    now rewrite Ha, Hb.
Qed.

(** C2: the text of an arithmetic tree without variables (a derivation
    of the grammar, in which [* / %] bind tighter than [+ -] and the
    operators of a tier associate to the left) evaluates to the value
    of the tree, that is, to its operators applied to the values of
    their own operands; [2 + 3 * 4] gives 14 and [(2 + 3) * 4] gives
    20. *)
Theorem arithmetic_evaluates_by_precedence (vars : gmap text double) (prefix : text) :
  (forall e w w',
     wf e = true -> arith e = true -> is_ws w = true -> is_ws w' = true ->
     exists v, (forall vars', value M vars' e = Some v)
               /\ evalExpr M vars (w ++ text_of e ++ w') prefix = Ok v)
  /\ (forall e w w' v,
        wf e = true -> is_ws w = true -> is_ws w' = true ->
        value M vars e = Some v ->
        evalExpr M vars (w ++ text_of e ++ w') prefix = Ok v)
  /\ (forall l w1 op w2 r a b,
        value M vars l = Some a -> value M vars r = Some b ->
        value M vars (CBin l w1 op w2 r) = Some (binop_sem op a b))
  /\ evalExpr M vars "2 + 3 * 4" prefix = Ok (double_of_int 14)
  /\ evalExpr M vars "(2 + 3) * 4" prefix = Ok (double_of_int 20)
  /\ evalExpr M vars "7 - 2 - 1" prefix = Ok (double_of_int 4).
Proof.
  split; [|split; [|split; [|split; [|split]]]].
  - intros e w w' He Ha Hw Hw'. destruct (arith_value e Ha) as (v & Hv).
    exists v. split; [exact Hv|].
    pose proof (evalExpr_tree vars prefix e w w' He Hw Hw') as H.
    now rewrite Hv in H.
  - intros e w w' v He Hw Hw' Hv.
    pose proof (evalExpr_tree vars prefix e w w' He Hw Hw') as H.
    now rewrite Hv in H.
  - intros l w1 op w2 r a b Ha Hb.
    change (value M vars (CBin l w1 op w2 r))
      with (match value M vars l, value M vars r with
            | Some a, Some b => Some (binop_sem op a b)
            | _, _ => None
            end).
    now rewrite Ha, Hb.
  - exact (evalExpr_tree vars prefix
             (bin (lit "2") BAdd (bin (lit "3") BMul (lit "4"))) "" ""
             eq_refl eq_refl eq_refl).
  - exact (evalExpr_tree vars prefix
             (bin (paren (bin (lit "2") BAdd (lit "3"))) BMul (lit "4")) "" ""
             eq_refl eq_refl eq_refl).
  - exact (evalExpr_tree vars prefix
             (bin (bin (lit "7") BSub (lit "2")) BSub (lit "1")) "" ""
             eq_refl eq_refl eq_refl).
Qed.



End Evaluation.

Lemma arithmetic_evaluates_by_precedence_witness :
  exists v,
    (forall vars', value value_first_build vars'
       (bin (lit "10") BSub (bin (paren (bin (lit "2.5") BAdd (lit ".5"))) BMul
          (CUnary UMinus "" (lit "3")))) = Some v)
    /\ evalExpr value_first_build ∅ (" " ++ "10 - (2.5 + .5) * -3" ++ " ") "Expr error: " = Ok v.
Proof.
  exact (proj1 (arithmetic_evaluates_by_precedence value_first_build ∅ "Expr error: ")
           (bin (lit "10") BSub (bin (paren (bin (lit "2.5") BAdd (lit ".5"))) BMul
              (CUnary UMinus "" (lit "3"))))
           " " " " eq_refl eq_refl eq_refl eq_refl).
Defined.


(** ** Trimming and the splitting of headers *)

Lemma ltrim_split (s : text) :
  exists w, is_ws w = true /\ s = w ++ ltrim s.
Proof.
  exists (take_while isspace s). split.
  - apply take_while_forallb.
  - symmetry. apply take_drop_while.
Qed.

Lemma is_ws_nil_trim (s : text) : is_ws s = true -> trim s = [].
Proof.
  intros H. unfold trim, ltrim.
  rewrite <- (app_nil_r s), (drop_while_all _ _ _ H). reflexivity.
Qed.

(** X1: [trim] removes white space from the two ends of a text and
    nothing else: the text is its trimmed form between two runs of white
    space, the trimmed form neither begins nor ends with white space,
    trimming twice changes nothing more, and the result is empty exactly
    for a text of white space only. *)
Theorem trim_removes_outer_space_only (s : text) :
  (exists w1 w2, is_ws w1 = true /\ is_ws w2 = true /\ s = w1 ++ trim s ++ w2)
  /\ trimmed (trim s)
  /\ trim (trim s) = trim s
  /\ (trim s = [] <-> is_ws s = true).
Proof.
  assert (exists w1 w2, is_ws w1 = true /\ is_ws w2 = true /\ s = w1 ++ trim s ++ w2)
    as Hsplit.
  { destruct (ltrim_split s) as (w1 & H1 & E1).
    destruct (rtrim_split (ltrim s)) as (w2 & H2 & E2).
    exists w1, w2. split; [exact H1|]. split; [exact H2|].
    unfold trim. rewrite <- E2. exact E1. }
  split; [exact Hsplit|]. split; [apply trimmed_trim|].
  split; [apply trim_idem|]. split.
  - intros E. destruct Hsplit as (w1 & w2 & H1 & H2 & Es).
    rewrite E in Es. cbn [app] in Es. rewrite Es.
    unfold is_ws in *. rewrite forallb_app, H1, H2. reflexivity.
  - apply is_ws_nil_trim.
Qed.

Lemma is_ws_last (a : text) (c : ascii) (w : text) :
  isspace c = false -> is_ws (a ++ c :: w) = false.
Proof.
  intros H. unfold is_ws. rewrite forallb_app. cbn [forallb]. rewrite H.
  now rewrite andb_false_r.
Qed.

Lemma rtrim_keep (a : text) (c : ascii) (w : text) :
  isspace c = false -> is_ws w = true -> rtrim (a ++ c :: w) = a ++ [c].
Proof.
  intros Hc Hw.
  replace (a ++ c :: w) with ((a ++ [c]) ++ w) by now rewrite <- app_assoc.
  rewrite (rtrim_ws _ _ Hw). apply rtrim_stops.
  rewrite rev_app_distr. cbn. exact Hc.
Qed.

Lemma last_snoc (a : text) (c d : ascii) : List.last (a ++ [c]) d = c.
Proof.
  induction a as [|x a IH]; [reflexivity|].
  cbn [app]. destruct (a ++ [c]) eqn:E.
  - destruct a; discriminate.
  - cbn [List.last]. cbn [List.last] in IH. exact IH.
Qed.

Lemma removelast_snoc (a : text) (c : ascii) : removelast (a ++ [c]) = a.
Proof.
  induction a as [|x a IH]; [reflexivity|].
  cbn [app]. destruct (a ++ [c]) eqn:E.
  - destruct a; discriminate.
  - cbn [removelast]. cbn [removelast] in IH. now rewrite IH.
Qed.

Lemma snoc_cases (t : text) : t = [] \/ exists a c, t = a ++ [c].
Proof.
  destruct t as [|x t]; [now left|]. right.
  exists (removelast (x :: t)), (List.last (x :: t) nul).
  apply app_removelast_last. discriminate.
Qed.

(** X2: [splitHeaderAndOpenParen] succeeds exactly on the lines that end,
    white space apart, with an opening parenthesis; the header it returns
    is the text before that parenthesis without its trailing white space. *)
Theorem splitHeaderAndOpenParen_splits_at_last_paren (line : text) :
  match splitHeaderAndOpenParen line with
  | Some h =>
      stops isspace (rev h)
      /\ exists w1 w2, is_ws w1 = true /\ is_ws w2 = true
                       /\ line = h ++ w1 ++ "(" ++ w2
  | None => forall h w, is_ws w = true -> line <> h ++ "(" ++ w
  end.
Proof.
  destruct (rtrim_split line) as (w2 & H2 & E2).
  unfold splitHeaderAndOpenParen.
  destruct (snoc_cases (rtrim line)) as [Et | (a & c & Et)].
  - rewrite Et. cbn [is_empty]. intros h w Hw E.
    rewrite Et in E2. cbn [app] in E2. rewrite E2 in E.
    rewrite E in H2. cbn [app] in H2. now rewrite (is_ws_last h "(" w eq_refl) in H2.
  - rewrite Et. replace (is_empty (a ++ [c])) with false
      by (destruct a; reflexivity).
    rewrite last_snoc, removelast_snoc.
    destruct (Ascii.eqb c "(") eqn:Ec; cbn [negb].
    + apply Ascii.eqb_eq in Ec. subst c.
      destruct (rtrim_split a) as (w1 & H1 & E1). split.
      * destruct (trimmed_trim a) as [_ Hr]. unfold rtrim.
        rewrite rev_involutive. apply stops_drop_while.
      * exists w1, w2. split; [exact H1|]. split; [exact H2|].
        rewrite E2 at 1. rewrite Et. rewrite E1 at 1.
        rewrite <- !app_assoc. reflexivity.
    + intros h w Hw E.
      assert (rtrim line = h ++ ["("%char]) as Er.
      { rewrite E. cbn [app]. apply rtrim_keep; [reflexivity | exact Hw]. }
      rewrite Et in Er. apply app_inj_tail in Er as [_ Er]. subst c. discriminate.
Qed.

(** ** Identifiers *)

(** X3: [parseIdentifier] skips white space and takes the longest
    identifier that starts there: what it returns and what it leaves
    make up the text after the white space, the returned name is an
    identifier that the next character does not extend, and it is empty
    (with nothing but white space consumed) exactly when no identifier
    starts there. *)
Theorem parseIdentifier_takes_longest_name (s : text) :
  skipWs s = fst (parseIdentifier s) ++ snd (parseIdentifier s)
  /\ (fst (parseIdentifier s) = [] <-> stops is_ident_start (skipWs s))
  /\ (fst (parseIdentifier s) <> [] ->
      is_identifier (fst (parseIdentifier s)) = true
      /\ stops is_ident_char (snd (parseIdentifier s))).
Proof.
  unfold parseIdentifier. destruct (skipWs s) as [|c r]; cbn [fst snd].
  - split; [reflexivity|]. split; [now split|]. now intros [].
  - destruct (is_ident_start c) eqn:Ec; cbn [fst snd].
    + split; [cbn [app]; now rewrite take_drop_while|]. split.
      * split; [discriminate|]. cbn [stops]. congruence.
      * intros _. split.
        -- cbn [is_identifier]. rewrite Ec. apply take_while_forallb.
        -- apply stops_drop_while.
    + split; [reflexivity|]. split; [now split|]. now intros [].
Qed.

(** ** Blocks *)

Lemma script_app (a b : list text) : script (a ++ b) = script a ++ script b.
Proof. unfold script. now rewrite List.map_app, concat_app. Qed.

Lemma script_snoc (a : list text) (l : text) : script (a ++ [l]) = script a ++ l ++ [nl].
Proof. rewrite script_app. unfold script. cbn. now rewrite app_nil_r. Qed.

Lemma getline_no_nl (s line stream : text) :
  getline s = Some (line, stream) -> no_nl line = true.
Proof.
  unfold getline. destruct s as [|c s]; [discriminate|].
  intros E. assert (read_line (c :: s) = (line, stream)) as E' by congruence.
  pose proof (read_line_spec (c :: s)) as H.
  rewrite E' in H. exact (proj2 H).
Qed.

Lemma readBlock_loop_parts : forall k acc stream block rest,
  length stream <= k ->
  readBlock_loop k (script acc) stream = (block, rest) ->
  exists body,
    block = script (acc ++ body)
    /\ Forall (fun l => no_nl l = true /\ trim l <> ")") body
    /\ ((exists cl, no_nl cl = true /\ trim cl = ")"
           /\ (stream = script body ++ cl ++ nl :: rest
               \/ (stream = script body ++ cl /\ rest = [])))
        \/ (rest = [] /\ (stream = script body \/ stream ++ [nl] = script body))).
Proof.
  induction k as [|k IH]; intros acc stream block rest Hk E.
  - destruct stream; [|cbn in Hk; lia]. cbn in E. injection E as <- <-.
    exists []. rewrite app_nil_r. split; [reflexivity|]. split; [constructor|].
    right. split; [reflexivity|]. now left.
  - cbn [readBlock_loop] in E.
    destruct (getline stream) as [[line stream']|] eqn:G.
    + pose proof (getline_no_nl _ _ _ G) as Hnl.
      pose proof (getline_length _ _ _ G) as Hlen.
      apply getline_spec in G as [_ G].
      destruct (text_eqb (trim line) ")") eqn:T.
      * injection E as <- <-. apply text_eqb_eq in T.
        exists []. rewrite app_nil_r. split; [reflexivity|]. split; [constructor|].
        left. exists line. split; [exact Hnl|]. split; [exact T|].
        destruct G as [G | [G1 G2]]; [left | right]; cbn [script List.map concat app];
          [exact G | now split].
      * apply text_eqb_neq in T. rewrite <- script_snoc in E.
        destruct G as [G | [G1 G2]].
        -- subst stream. apply IH in E; [|lia].
           destruct E as (body & Eb & Fb & Hc).
           exists (line :: body). split.
           { rewrite Eb, <- app_assoc. reflexivity. } split.
           { constructor; [now split | exact Fb]. }
           rewrite script_cons.
           destruct Hc as [(cl & C1 & C2 & [C3 | [C3 C4]]) | (R & [C3 | C3])].
           ++ left. exists cl. split; [exact C1|]. split; [exact C2|]. left.
              rewrite C3 at 1. rewrite <- ?app_assoc. reflexivity.
           ++ left. exists cl. split; [exact C1|]. split; [exact C2|]. right.
              split; [|exact C4]. rewrite C3 at 1. rewrite <- ?app_assoc. reflexivity.
           ++ right. split; [exact R|]. left. rewrite C3 at 1.
              rewrite <- ?app_assoc. reflexivity.
           ++ right. split; [exact R|]. right. rewrite <- C3.
              rewrite <- ?app_assoc. reflexivity.
        -- subst stream stream'.
           assert (block = script (acc ++ [line]) /\ rest = []) as [-> ->].
           { destruct k; cbn in E; injection E as <- <-; now split. }
           exists [line]. split; [reflexivity|]. split.
           { constructor; [now split | constructor]. }
           right. split; [reflexivity|]. right.
           unfold script. cbn. now rewrite app_nil_r.
    + injection E as <- <-. destruct stream; [|discriminate].
      exists []. rewrite app_nil_r. split; [reflexivity|]. split; [constructor|].
      right. split; [reflexivity|]. now left.
Qed.

(** X4: [readBlock] neither loses nor reorders text.  The block is made
    of whole lines, none of which is a closing line; the stream read is
    the block, then the first closing line (a line that is [)] up to
    white space), then the unread rest; and when the stream holds no
    closing line the block is the whole stream, closed by a newline if
    its last line had none, and nothing is left unread. *)
Theorem readBlock_splits_at_first_closing_line (stream block rest : text) :
  readBlock stream = (block, rest) ->
  exists body,
    block = script body
    /\ Forall (fun l => no_nl l = true /\ trim l <> ")") body
    /\ ((exists cl, no_nl cl = true /\ trim cl = ")"
           /\ (stream = block ++ cl ++ nl :: rest
               \/ (stream = block ++ cl /\ rest = [])))
        \/ (rest = [] /\ (stream = block \/ stream ++ [nl] = block))).
Proof.
  intros E. unfold readBlock in E.
  destruct (readBlock_loop_parts (length stream) [] stream block rest (le_n _) E)
    as (body & Eb & Fb & Hc).
  cbn [app] in Eb. exists body. split; [exact Eb|]. split; [exact Fb|].
  rewrite Eb. exact Hc.
Qed.

Lemma readBlock_splits_at_first_closing_line_witness :
  exists body,
    script ["print 1"; "  "] = script body
    /\ Forall (fun l => no_nl l = true /\ trim l <> ")") body
    /\ ((exists cl, no_nl cl = true /\ trim cl = ")"
           /\ (script ["print 1"; "  "; " ) "; "print 2"]
                = script ["print 1"; "  "] ++ cl ++ nl :: script ["print 2"]
               \/ (script ["print 1"; "  "; " ) "; "print 2"]
                   = script ["print 1"; "  "] ++ cl /\ script ["print 2"] = [])))
        \/ (script ["print 2"] = []
            /\ (script ["print 1"; "  "; " ) "; "print 2"] = script ["print 1"; "  "]
                \/ script ["print 1"; "  "; " ) "; "print 2"] ++ [nl]
                   = script ["print 1"; "  "]))).
Proof.
  apply (readBlock_splits_at_first_closing_line
           (script ["print 1"; "  "; " ) "; "print 2"])).
  vm_compute. reflexivity.
Defined.

(** ** The [if] statement *)

Lemma rtrim_all_ws (w : text) : is_ws w = true -> rtrim w = [].
Proof.
  intros H. unfold rtrim. apply is_ws_rev in H.
  rewrite <- (app_nil_r (rev w)), (drop_while_all _ _ _ H). reflexivity.
Qed.

Lemma rtrim_rev_stops (x : text) : stops isspace (rev (rtrim x)).
Proof. unfold rtrim. rewrite rev_involutive. apply stops_drop_while. Qed.

Lemma stops_rev_app (a b : text) :
  stops isspace (rev a) -> (b = [] \/ stops isspace (rev b)) -> a <> [] ->
  stops isspace (rev (a ++ b)).
Proof.
  intros Ha Hb Na. rewrite rev_app_distr.
  destruct (rev b) as [|c r] eqn:E.
  - exact Ha.
  - destruct Hb as [-> | Hb]; [discriminate|]. exact Hb.
Qed.

Lemma rtrim_app_keep (a x : text) :
  a <> [] -> stops isspace (rev a) -> rtrim (a ++ x) = a ++ rtrim x.
Proof.
  intros Na Ha. destruct (rtrim_split x) as (w & Hw & Ex).
  rewrite Ex at 1. rewrite app_assoc, (rtrim_ws _ _ Hw).
  apply rtrim_stops. apply stops_rev_app; [exact Ha | | exact Na].
  right. apply rtrim_rev_stops.
Qed.

Lemma splitHeaderAndOpenParen_last (h w : text) :
  is_ws w = true -> splitHeaderAndOpenParen (h ++ "(" ++ w) = Some (rtrim h).
Proof.
  intros Hw. unfold splitHeaderAndOpenParen. cbn [app].
  rewrite (rtrim_keep h "(" w eq_refl Hw).
  replace (is_empty (h ++ ["("%char])) with false by (destruct h; reflexivity).
  now rewrite last_snoc, removelast_snoc.
Qed.

(** The condition of an [if] header. *)
Lemma if_condition (w1 cond : text) :
  is_ws w1 = true -> trimmed cond ->
  trim (skipn 2 (rtrim ("if" ++ w1 ++ cond))) = cond.
Proof.
  intros H1 Hc.
  rewrite (rtrim_app_keep "if" (w1 ++ cond) ltac:(discriminate) eq_refl).
  change (skipn 2 ("if" ++ rtrim (w1 ++ cond))) with (rtrim (w1 ++ cond)).
  destruct cond as [|c cond].
  - rewrite app_nil_r, (rtrim_all_ws _ H1). reflexivity.
  - rewrite rtrim_stops.
    + pose proof (trim_ws w1 (c :: cond) [] H1 eq_refl Hc) as T.
      rewrite app_nil_r in T. exact T.
    + rewrite rev_app_distr. destruct Hc as [_ Hc].
      destruct (rev (c :: cond)) eqn:E; [|exact Hc].
      apply (f_equal (@rev ascii)) in E. now rewrite rev_involutive in E.
Qed.

Lemma trimmed_no_space (cond : text) :
  trimmed cond ->
  match cond with
  | c :: cond' => if Ascii.eqb c " " then cond' else cond
  | [] => cond
  end = cond.
Proof.
  intros [H _]. destruct cond as [|c cond]; [reflexivity|].
  cbn [stops] in H. destruct (Ascii.eqb c " ") eqn:E; [|reflexivity].
  apply Ascii.eqb_eq in E. subst c. discriminate.
Qed.

Lemma first_token_if_no_comment (line : text) :
  first_token line = "if" ->
  trim line <> [] /\ starts_with "comment" (trim line) = false.
Proof.
  intros H. destruct (first_token_prefix line) as [r Hr]. rewrite H in Hr.
  rewrite Hr. split; [discriminate | reflexivity].
Qed.

Section IfStatement.
Variable M : platform.

Lemma exec_line_if_no_paren (e c : text -> state -> outcome)
    (line stream : text) (st : state) :
  first_token line = "if" -> splitHeaderAndOpenParen (trim line) = None ->
  exec_line M e c line stream st
  = c stream (emit "Syntax error: if expects '(' at end of line" st).
Proof.
  intros Hf Hs. destruct (first_token_if_no_comment _ Hf) as [Hne Hcm].
  unfold exec_line. apply is_empty_false in Hne. rewrite Hne, Hcm.
  unfold first_token in Hf.
  destruct (extract (trim line)) as [command ss]. cbn [fst snd] in Hf. subst command.
  cbn [text_eqb Ascii.eqb Bool.eqb andb]. now rewrite Hs.
Qed.

Lemma exec_line_if (e c : text -> state -> outcome)
    (indent w1 cond w2 trail stream block stream' : text) (st : state) :
  is_ws indent = true -> is_ws w1 = true -> w1 <> [] -> trimmed cond ->
  is_ws w2 = true -> is_ws trail = true ->
  readBlock stream = (block, stream') ->
  exec_line M e c (indent ++ "if" ++ w1 ++ cond ++ w2 ++ "(" ++ trail) stream st
  = match evalExpr M (variables st) cond "If condition error: " with
    | Ok condVal =>
        if dne condVal d_zero then and_then (e block st) (c stream') else c stream' st
    | Throw what => c stream' (emit what st)
    | Stuck => OutOfFuel
    end.
Proof.
  intros Hi H1 N1 Hc H2 Htr Hr.
  assert (trim (indent ++ "if" ++ w1 ++ cond ++ w2 ++ "(" ++ trail)
          = ("if" ++ w1 ++ cond ++ w2) ++ "(") as Ht.
  { replace (indent ++ "if" ++ w1 ++ cond ++ w2 ++ "(" ++ trail)
      with (indent ++ (("if" ++ w1 ++ cond ++ w2) ++ "(") ++ trail)
      by (now rewrite <- !app_assoc).
    apply trim_ws; try assumption.
    apply trimmed_app; [discriminate | discriminate | reflexivity | reflexivity]. }
  unfold exec_line. rewrite Ht.
  pose proof (extract_token [] "if" (w1 ++ cond ++ w2 ++ "(")
                eq_refl eq_refl ltac:(discriminate) (breaks_ws _ _ H1 N1)) as E1.
  cbn [app] in E1. rewrite <- !app_assoc.
  cbn [app is_empty starts_with Ascii.eqb Bool.eqb andb]. rewrite E1.
  cbn [text_eqb Ascii.eqb Bool.eqb andb].
  pose proof (splitHeaderAndOpenParen_last ("if" ++ w1 ++ cond ++ w2) [] eq_refl) as E2.
  rewrite <- !app_assoc in E2. cbn [app] in E2. rewrite E2.
  replace ("i"%char :: "f"%char :: w1 ++ cond ++ w2)
    with (("if" ++ w1 ++ cond) ++ w2) by (now rewrite <- !app_assoc).
  rewrite (rtrim_ws _ _ H2), (if_condition w1 cond H1 Hc).
  rewrite (trimmed_no_space _ Hc), (trim_trimmed _ Hc), Hr. reflexivity.
Qed.

(** X5: an [if] statement.  For a header [if cond (] (white space after
    [if] is needed, around the parenthesis it is optional) followed by
    a block and its closing line: when [cond] evaluates to a value other
    than zero (NaN included) the block is executed once and the run goes
    on after the closing line; when it evaluates to zero the block is
    skipped; when the evaluation fails its message is written and the
    block is skipped as well. *)
Theorem if_runs_block_when_condition_is_nonzero
    (indent w1 cond w2 trail : text) (body : list text) (cl rest : text)
    (st : state) :
  is_ws indent = true -> no_nl indent = true ->
  is_ws w1 = true -> no_nl w1 = true -> w1 <> [] ->
  trimmed cond -> no_nl cond = true ->
  is_ws w2 = true -> no_nl w2 = true ->
  is_ws trail = true -> no_nl trail = true ->
  Forall (fun l => no_nl l = true /\ trim l <> ")") body ->
  no_nl cl = true -> trim cl = ")" ->
  let header := indent ++ "if" ++ w1 ++ cond ++ w2 ++ "(" ++ trail in
  let code := header ++ nl :: script body ++ cl ++ nl :: rest in
  (forall v, evalExpr M (variables st) cond "If condition error: " = Ok v ->
     dne v d_zero = true ->
     execute M code st = and_then (execute M (script body) st) (execute M rest))
  /\ (forall v, evalExpr M (variables st) cond "If condition error: " = Ok v ->
     dne v d_zero = false -> execute M code st = execute M rest st)
  /\ (forall what,
        evalExpr M (variables st) cond "If condition error: " = Throw what ->
        execute M code st = execute M rest (emit what st))
  /\ dne S754_nan d_zero = true.
Proof.
  intros Hi Hin H1 Hn1 N1 Hc Hcn H2 Hn2 Htr Htn HF Hcl Hct header code.
  assert (execute M code st
          = match evalExpr M (variables st) cond "If condition error: " with
            | Ok condVal =>
                if dne condVal d_zero
                then and_then (execute M (script body) st) (execute M rest)
                else execute M rest st
            | Throw what => execute M rest (emit what st)
            | Stuck => OutOfFuel
            end) as E.
  { unfold code, header. rewrite execute_line.
    - apply exec_line_if; try assumption. now apply readBlock_script.
    - now rewrite !no_nl_app, Hin, Hn1, Hcn, Hn2, Htn. }
  rewrite E. split; [|split; [|split]].
  - intros v -> ->. reflexivity.
  - intros v -> ->. reflexivity.
  - intros what ->. reflexivity.
  - reflexivity.
Qed.

(** X6: an [if] line whose trimmed text does not end with an opening
    parenthesis yields a syntax error; no block is read, so that the run
    goes on with the very next line. *)
Theorem if_header_needs_final_paren (line rest : text) (st : state) :
  no_nl line = true -> first_token line = "if" ->
  (forall h, trim line <> h ++ "(") ->
  execute M (line ++ nl :: rest) st
  = execute M rest (emit "Syntax error: if expects '(' at end of line" st).
Proof.
  intros Hnl Hf Hp. rewrite execute_line by exact Hnl.
  apply exec_line_if_no_paren; [exact Hf|].
  assert (rtrim (trim line) = trim line) as Er.
  { apply rtrim_stops. apply (trimmed_trim line). }
  unfold splitHeaderAndOpenParen. rewrite Er.
  destruct (snoc_cases (trim line)) as [-> | (a & c & E)]; [reflexivity|].
  rewrite E. replace (is_empty (a ++ [c])) with false by (destruct a; reflexivity).
  rewrite last_snoc.
  destruct (Ascii.eqb c "(") eqn:Ec; [|reflexivity].
  apply Ascii.eqb_eq in Ec. subst c. now elim (Hp a).
Qed.

End IfStatement.

Lemma if_runs_block_when_condition_is_nonzero_witness :
  execute value_first_build
    ("  if x > 1 (" ++ nl :: script ["print x"] ++ ")" ++ nl :: script ["print 0"])
    (set_var "x" (double_of_int 2) initial)
  = and_then (execute value_first_build (script ["print x"]) (set_var "x" (double_of_int 2) initial))
      (execute value_first_build (script ["print 0"])).
Proof.
  refine (proj1 (if_runs_block_when_condition_is_nonzero value_first_build
            "  " " " "x > 1" " " "" ["print x"] ")" (script ["print 0"])
            (set_var "x" (double_of_int 2) initial)
            eq_refl eq_refl eq_refl eq_refl _ (conj eq_refl eq_refl) eq_refl
            eq_refl eq_refl eq_refl eq_refl _ eq_refl eq_refl) d_one _ eq_refl).
  - discriminate.
  - repeat constructor; discriminate.
  - vm_compute. reflexivity.
Defined.

Lemma if_header_needs_final_paren_witness :
  execute value_first_build ("if x > 1" ++ nl :: script ["print 5"; ")"]) initial
  = execute value_first_build (script ["print 5"; ")"])
      (emit "Syntax error: if expects '(' at end of line" initial).
Proof.
  apply (if_header_needs_final_paren value_first_build "if x > 1").
  - reflexivity.
  - reflexivity.
  - intros h E. apply (f_equal (@rev ascii)) in E.
    rewrite rev_app_distr in E. vm_compute in E. discriminate.
Defined.

(** ** Single-line statements *)

Lemma no_ws_trimmed (t : text) : no_ws t = true -> trimmed t.
Proof.
  intros H. split.
  - destruct t as [|c t]; [exact I|]. cbn in H. apply andb_true_iff in H as [H _].
    cbn. now apply negb_true_iff in H.
  - assert (no_ws (rev t) = true) as Hr.
    { unfold no_ws in *. rewrite forallb_forall in *. intros x Hx.
      apply H. now apply in_rev. }
    destruct (rev t) as [|c r]; [exact I|]. cbn in Hr.
    apply andb_true_iff in Hr as [Hr _]. cbn. now apply negb_true_iff in Hr.
Qed.

Section MoreStatements.
Variable M : platform.

Lemma runLine_add (w1 var w2 e : text) (st : state) :
  is_ws w1 = true -> w1 <> [] -> no_ws var = true -> var <> [] ->
  is_ws w2 = true -> w2 <> [] -> trimmed e -> e <> [] -> no_nl e = true ->
  no_nl w2 = true ->
  runLine M ("add" ++ w1 ++ var ++ w2 ++ e) st
  = match variables st !! var with
    | None => Done (emit ("Error: variable '" ++ var ++ "' not found") st)
    | Some old =>
        match evalExpr M (variables st) e "Add expr error: " with
        | Ok v => Done (set_var var (dadd old v) st)
        | Throw what => Done (emit what st)
        | Stuck => OutOfFuel
        end
    end.
Proof.
  intros H1 N1 Hv Nv H2 N2 He Ne Hnl Hnl2.
  assert (trimmed ("add" ++ w1 ++ var ++ w2 ++ e)) as Ht.
  { replace ("add" ++ w1 ++ var ++ w2 ++ e)
      with (("add" ++ w1 ++ var ++ w2) ++ e) by (now rewrite <- !app_assoc).
    apply trimmed_app; try assumption; [discriminate | reflexivity | apply He]. }
  unfold runLine. rewrite (trim_trimmed _ Ht).
  pose proof (extract_token [] "add" (w1 ++ var ++ w2 ++ e)
                eq_refl eq_refl ltac:(discriminate) (breaks_ws _ _ H1 N1)) as E1.
  cbn [app] in E1. cbn [app is_empty starts_with Ascii.eqb Bool.eqb andb].
  rewrite E1. cbn [text_eqb Ascii.eqb Bool.eqb andb].
  rewrite (extract_token w1 var (w2 ++ e) H1 Hv Nv (breaks_ws _ _ H2 N2)).
  apply is_empty_false in Nv. rewrite Nv.
  destruct (variables st !! var) as [old|]; [|reflexivity].
  rewrite getline_or_empty_no_nl by (now rewrite no_nl_app, Hnl2, Hnl).
  pose proof (trim_ws w2 e [] H2 eq_refl He) as T. rewrite app_nil_r in T.
  rewrite T. apply is_empty_false in Ne. now rewrite Ne.
Qed.

(** X7: an [add] statement [add var e].  When [var] is not in the table
    a message that names it is written and [e] is not evaluated; when it
    is, the value of [e] is added to the value of [var] and nothing is
    written; when the evaluation of [e] fails its message is written and
    the table is left as it was. *)
Theorem add_increments_existing_variable (w1 var w2 e : text) (st : state) :
  is_ws w1 = true -> w1 <> [] -> no_ws var = true -> var <> [] ->
  is_ws w2 = true -> w2 <> [] -> trimmed e -> e <> [] -> no_nl e = true ->
  no_nl w2 = true ->
  let line := "add" ++ w1 ++ var ++ w2 ++ e in
  (variables st !! var = None ->
     runLine M line st
     = Done (emit ("Error: variable '" ++ var ++ "' not found") st))
  /\ (forall old v,
        variables st !! var = Some old ->
        evalExpr M (variables st) e "Add expr error: " = Ok v ->
        exists st', runLine M line st = Done st'
          /\ variables st' = <[var := dadd old v]> (variables st)
          /\ output st' = output st)
  /\ (forall old what,
        variables st !! var = Some old ->
        evalExpr M (variables st) e "Add expr error: " = Throw what ->
        exists st', runLine M line st = Done st'
          /\ variables st' = variables st
          /\ output st' = output st ++ [what]).
Proof.
  intros H1 N1 Hv Nv H2 N2 He Ne Hnl Hnl2 line. unfold line.
  rewrite (runLine_add w1 var w2 e st) by assumption.
  split; [|split].
  - intros ->. reflexivity.
  - intros old v -> ->. eexists. split; [reflexivity|]. split; reflexivity.
  - intros old what -> ->. eexists. split; [reflexivity|]. split; reflexivity.
Qed.

Lemma trim_keyword (k w : text) : trimmed k -> is_ws w = true -> trim (k ++ w) = k.
Proof. intros Hk Hw. apply (trim_ws [] k w eq_refl Hw Hk). Qed.

(** X8: [set] statements that lack a part.  Without a name a syntax
    error is written; with a name and an equals sign but no expression
    another one; in both the table of variables is left as it was.  With
    a name only (as in [set x=5], where [x=5] is the name) the empty
    expression is evaluated and its failure is written: the table is
    then left as it was on a platform that evaluates the right operand
    of the assignment first, and on the others the name has been entered
    into it, with the value 0 if it was not there. *)
Theorem set_without_name_or_expression (w1 var w2 w3 : text) (st : state) :
  is_ws w1 = true -> w1 <> [] -> no_ws var = true -> var <> [] ->
  is_ws w2 = true -> w2 <> [] -> is_ws w3 = true ->
  runLine M ("set" ++ w1) st
  = Done (emit "Syntax error: set needs a variable name" st)
  /\ runLine M ("set" ++ w1 ++ var ++ w2 ++ "=" ++ w3) st
     = Done (emit "Syntax error: set needs an expression" st)
  /\ runLine M ("set" ++ w1 ++ var ++ w3) st
     = Done (emit "Set expr error: Expected primary expression near: ''"
               (operand_state M var st))
  /\ (forall line st', In line ["set" ++ w1; "set" ++ w1 ++ var ++ w2 ++ "=" ++ w3] ->
        runLine M line st = Done st' -> variables st' = variables st)
  /\ (forall st', runLine M ("set" ++ w1 ++ var ++ w3) st = Done st' ->
        output st' = output st
                     ++ ["Set expr error: Expected primary expression near: ''"]
        /\ (value_first M = true -> variables st' = variables st)
        /\ (value_first M = false ->
            variables st' = variables (assign_target var st)
            /\ (variables st !! var = None -> variables st' !! var = Some d_zero)
            /\ (forall old, variables st !! var = Some old ->
                  variables st' = variables st))).
Proof.
  intros H1 N1 Hv Nv H2 N2 H3.
  assert (runLine M ("set" ++ w1) st
          = Done (emit "Syntax error: set needs a variable name" st)) as A.
  { unfold runLine. rewrite (trim_keyword "set" w1 (conj eq_refl eq_refl) H1).
    reflexivity. }
  assert (runLine M ("set" ++ w1 ++ var ++ w2 ++ "=" ++ w3) st
          = Done (emit "Syntax error: set needs an expression" st)) as B.
  { unfold runLine.
    assert (trim ("set" ++ w1 ++ var ++ w2 ++ "=" ++ w3)
            = "set" ++ w1 ++ var ++ w2 ++ "=") as Ht.
    { replace ("set" ++ w1 ++ var ++ w2 ++ "=" ++ w3)
        with (("set" ++ w1 ++ var ++ w2 ++ "=") ++ w3) by (now rewrite <- !app_assoc).
      apply trim_keyword; [|exact H3].
      replace ("set" ++ w1 ++ var ++ w2 ++ "=")
        with (("set" ++ w1 ++ var ++ w2) ++ "=") by (now rewrite <- !app_assoc).
      apply trimmed_app; [discriminate | discriminate | reflexivity | reflexivity]. }
    rewrite Ht.
    pose proof (extract_token [] "set" (w1 ++ var ++ w2 ++ "=")
                  eq_refl eq_refl ltac:(discriminate) (breaks_ws _ _ H1 N1)) as E1.
    cbn [app] in E1. cbn [app is_empty starts_with Ascii.eqb Bool.eqb andb].
    rewrite E1. cbn [text_eqb Ascii.eqb Bool.eqb andb].
    pose proof (extract_token w1 var (w2 ++ "=") H1 Hv Nv (breaks_ws _ _ H2 N2)) as E2.
    cbn [app] in E2. rewrite E2.
    apply is_empty_false in Nv. rewrite Nv.
    pose proof (extract_token w2 "=" [] H2 eq_refl ltac:(discriminate) I) as E3.
    cbn [app] in E3. rewrite E3. reflexivity. }
  assert (runLine M ("set" ++ w1 ++ var ++ w3) st
          = Done (emit "Set expr error: Expected primary expression near: ''"
                    (operand_state M var st))) as C.
  { unfold runLine.
    assert (trim ("set" ++ w1 ++ var ++ w3) = "set" ++ w1 ++ var) as Ht.
    { replace ("set" ++ w1 ++ var ++ w3)
        with (("set" ++ w1 ++ var) ++ w3) by (now rewrite <- !app_assoc).
      apply trim_keyword; [|exact H3].
      replace ("set" ++ w1 ++ var) with (("set" ++ w1) ++ var)
        by (now rewrite <- !app_assoc).
      apply trimmed_app; [discriminate | exact Nv | reflexivity |].
      apply (no_ws_trimmed _ Hv). }
    rewrite Ht.
    pose proof (extract_token [] "set" (w1 ++ var)
                  eq_refl eq_refl ltac:(discriminate) (breaks_ws _ _ H1 N1)) as E1.
    cbn [app] in E1. cbn [app is_empty starts_with Ascii.eqb Bool.eqb andb].
    rewrite E1. cbn [text_eqb Ascii.eqb Bool.eqb andb].
    pose proof (extract_token w1 var [] H1 Hv Nv I) as E2.
    rewrite app_nil_r in E2. rewrite E2.
    apply is_empty_false in Nv. rewrite Nv. reflexivity. }
  split; [exact A|]. split; [exact B|]. split; [exact C|]. split.
  - intros line st' [<- | [<- | []]] E.
    + rewrite A in E. now injection E as <-.
    + rewrite B in E. now injection E as <-.
  - intros st' E. rewrite C in E. injection E as <-.
    cbn [emit output variables]. unfold operand_state.
    split; [|split].
    + destruct (value_first M); [reflexivity|].
      now rewrite output_assign_target.
    + now intros ->.
    + intros ->. split; [reflexivity|].
      destruct (variables_assign_target var st) as (_ & Hold & Hnew).
      split; [exact Hnew|]. intros old Hl. now rewrite (Hold old Hl).
Qed.

(** X9: what [set] stores, [print] shows.  After [set var = e] has
    stored the value [v] of [e], the statement [print var] writes one
    line, whatever the name looks like, as long as it is not a text
    between double quotes: the integer [round v] in decimal digits when
    [v] is within [1e-9] of it and it fits the type [long long], and [v]
    with 12 significant digits when [v] is a number that is not within
    [1e-9] of [round v].  When [v] is within [1e-9] of an integer that
    does not fit, the conversion is undefined. *)
Theorem print_shows_what_set_stored
    (w1 var w2 after e w : text) (st : state) (v : double) :
  is_ws w1 = true -> w1 <> [] -> no_ws var = true -> var <> [] ->
  is_ws w2 = true -> w2 <> [] -> trimmed e -> e <> [] ->
  (exists w3, after = "=" ++ w3 ++ e /\ is_ws w3 = true /\ w3 <> [])
  \/ (after = e /\ first_token e <> "=") ->
  no_nl after = true ->
  is_ws w = true -> no_nl w = true -> w <> [] ->
  is_quoted var = false ->
  evalExpr M (variables (operand_state M var st)) e "Set expr error: " = Ok v ->
  exists st',
    runLine M ("set" ++ w1 ++ var ++ w2 ++ after) st = Done st'
    /\ variables st' = <[var := v]> (variables st)
    /\ output st' = output st
    /\ (forall n, dlt (dabs (dsub v (dround v))) d_1e_9 = true ->
                  cast_long_long (dround v) = Some n ->
                  runLine M ("print" ++ w ++ var) st' = Done (emit (decimal n) st'))
    /\ (dlt (dabs (dsub v (dround v))) d_1e_9 = false -> v <> S754_nan ->
        runLine M ("print" ++ w ++ var) st' = Done (emit (ostream_double 12 v) st'))
    /\ (dlt (dabs (dsub v (dround v))) d_1e_9 = true ->
        cast_long_long (dround v) = None ->
        runLine M ("print" ++ w ++ var) st' = Undefined).
Proof.
  intros H1 N1 Hv Nv H2 N2 He Ne Hform Hnl Hw Hwn Nw Hq Hev.
  rewrite (runLine_set M w1 var w2 after e st) by assumption.
  unfold try_assign. rewrite Hev. eexists. split; [reflexivity|].
  destruct (variables_operand_state M var v st) as [Hs Ho].
  split; [exact Hs|]. split; [exact Ho|].
  assert (variables (set_var var v (operand_state M var st)) !! var = Some v) as L.
  { rewrite Hs. apply lookup_insert_eq. }
  rewrite (runLine_print M w var _ Hw Hwn (no_ws_trimmed _ Hv) (no_ws_no_nl _ Hv)
             (fun _ => Nw)).
  rewrite Hq. apply is_empty_false in Nv. rewrite Nv, L.
  destruct (printNumberNicely_cases v (set_var var v (operand_state M var st)))
    as (Hint & Hundef & Hfar).
  split; [exact Hint|]. split; [intros Hf _; exact (Hfar Hf) | exact Hundef].
Qed.

(** X10: [print] followed by a text between double quotes writes what is
    between the outer quotes, unchanged and unevaluated, whatever it
    holds (quotes, operators, the name of a variable). *)
Theorem print_writes_quoted_text (w body : text) (st : state) :
  is_ws w = true -> no_nl w = true -> w <> [] -> no_nl body = true ->
  runLine M ("print" ++ w ++ dquote :: body ++ [dquote]) st = Done (emit body st).
Proof.
  intros Hw Hwn Nw Hb.
  assert (trimmed (dquote :: body ++ [dquote])) as Ht.
  { split; [reflexivity|].
    change (dquote :: body ++ [dquote]) with ((dquote :: body) ++ [dquote]).
    rewrite rev_app_distr. reflexivity. }
  rewrite (runLine_print M w _ st Hw Hwn Ht); [| |intros _; exact Nw].
  - unfold is_quoted.
    change (dquote :: body ++ [dquote]) with ((dquote :: body) ++ [dquote]).
    rewrite last_snoc, length_app. cbn [length hd].
    replace (2 <=? S (length body) + 1) with true
      by (symmetry; apply Nat.leb_le; lia).
    cbn [Ascii.eqb Bool.eqb dquote andb tl app].
    now rewrite removelast_snoc.
  - cbn [no_nl forallb]. change (forallb _ (body ++ [dquote])) with (no_nl (body ++ [dquote])).
    rewrite no_nl_app, Hb. reflexivity.
Qed.

(** X11: when the count expression of a [loop] fails, the message of the
    failure is written once, the block is read but not executed, the loop
    variable is not touched, and the run goes on after the closing
    line. *)
Theorem loop_count_failure_skips_block
    (indent w1 var ce w2 trail : text) (body : list text) (cl rest : text)
    (st : state) (what : text) :
  is_ws indent = true -> no_nl indent = true ->
  is_ws w1 = true -> no_nl w1 = true -> w1 <> [] ->
  no_ws var = true -> find_char ":" var = None -> no_ws ce = true ->
  is_ws w2 = true -> no_nl w2 = true -> w2 <> [] ->
  is_ws trail = true -> no_nl trail = true ->
  Forall (fun l => no_nl l = true /\ trim l <> ")") body ->
  no_nl cl = true -> trim cl = ")" ->
  evalExpr M (variables st) ce "Loop count error: " = Throw what ->
  execute M ((indent ++ "loop" ++ w1 ++ var ++ ":" ++ ce ++ w2 ++ "(" ++ trail)
             ++ nl :: script body ++ cl ++ nl :: rest) st
  = execute M rest (emit what st).
Proof.
  intros Hi Hin H1 Hn1 N1 Hv Hcv Hce H2 Hn2 N2 Htr Htn HF Hcl Hct Hev.
  rewrite (execute_loop M indent w1 var ce w2 trail _ (script body) rest st);
    try assumption.
  - now rewrite Hev.
  - now apply readBlock_script.
Qed.

(** ** Scripts of single-line statements *)

Lemma exec_line_simple (e c : text -> state -> outcome) (line stream : text) (st : state) :
  first_token line <> "loop" -> first_token line <> "if" ->
  exec_line M e c line stream st = and_then (runLine M line st) (c stream).
Proof.
  intros Hl Hi.
  destruct (is_empty (trim line)) eqn:E1.
  { unfold exec_line, runLine. rewrite E1. reflexivity. }
  destruct (starts_with "comment" (trim line)) eqn:E2.
  { unfold exec_line, runLine. rewrite E1, E2. reflexivity. }
  apply is_empty_false in E1.
  rewrite (exec_line_other M e c line stream st E1 E2 Hl Hi).
  f_equal. unfold runLine. now rewrite trim_idem.
Qed.

Lemma execute_simple_lines (ls : list text) (rest : text) :
  Forall (fun l => no_nl l = true /\ first_token l <> "loop" /\ first_token l <> "if") ls ->
  forall st,
    execute M (script ls ++ rest) st
    = and_then (fold_left (fun o l => and_then o (runLine M l)) ls (Done st))
               (execute M rest).
Proof.
  induction 1 as [|l ls (Hnl & Hl & Hi) HF IH]; intros st.
  - reflexivity.
  - rewrite script_cons. cbn [app]. rewrite <- app_assoc. cbn [app].
    rewrite (execute_line M l _ st Hnl), (exec_line_simple _ _ _ _ _ Hl Hi).
    cbn [fold_left and_then].
    destruct (runLine M l st) as [st1| |] eqn:R; cbn [and_then].
    + apply IH.
    + clear. induction ls as [|x ls IH]; [reflexivity | exact IH].
    + clear. induction ls as [|x ls IH]; [reflexivity | exact IH].
Qed.

(** X12: a script of single-line statements (no line of it begins with
    the word [loop] or [if]) runs its lines in order, each by [runLine]
    from the state the one before it left; and what follows such a
    script runs from the state the script ends in. *)
Theorem script_of_simple_lines_runs_in_order (ls : list text) (rest : text) (st : state) :
  Forall (fun l => no_nl l = true /\ first_token l <> "loop" /\ first_token l <> "if") ls ->
  execute M (script ls) st
  = fold_left (fun o l => and_then o (runLine M l)) ls (Done st)
  /\ execute M (script ls ++ rest) st
     = and_then (execute M (script ls) st) (execute M rest).
Proof.
  intros HF.
  assert (execute M (script ls) st
          = fold_left (fun o l => and_then o (runLine M l)) ls (Done st)) as E.
  { pose proof (execute_simple_lines ls [] HF st) as E.
    rewrite app_nil_r in E. rewrite E.
    destruct (fold_left _ ls (Done st)); reflexivity. }
  split; [exact E|]. rewrite E. now apply execute_simple_lines.
Qed.

End MoreStatements.

Lemma add_increments_existing_variable_witness :
  exists st',
    runLine value_first_build "add x 2 * 3" (set_var "x" (double_of_int 1) initial) = Done st'
    /\ variables st'
       = <["x" := dadd (double_of_int 1) (double_of_int 6)]>
           (variables (set_var "x" (double_of_int 1) initial))
    /\ output st' = output (set_var "x" (double_of_int 1) initial).
Proof.
  refine (proj1 (proj2 (add_increments_existing_variable value_first_build " " "x" " " "2 * 3"
            (set_var "x" (double_of_int 1) initial)
            eq_refl _ eq_refl _ eq_refl _ (conj eq_refl eq_refl) _ eq_refl eq_refl))
            (double_of_int 1) (double_of_int 6) _ _);
    try discriminate; vm_compute; reflexivity.
Defined.

Lemma set_without_name_or_expression_witness :
  runLine value_first_build ("set" ++ " ") initial
  = Done (emit "Syntax error: set needs a variable name" initial)
  /\ runLine value_first_build ("set" ++ " " ++ "x" ++ " " ++ "=" ++ "  ") initial
     = Done (emit "Syntax error: set needs an expression" initial)
  /\ runLine value_first_build ("set" ++ " " ++ "x=5" ++ "") initial
     = Done (emit "Set expr error: Expected primary expression near: ''" initial)
  /\ runLine target_first_build ("set" ++ " " ++ "x=5" ++ "") initial
     = Done (emit "Set expr error: Expected primary expression near: ''"
               (set_var "x=5" d_zero initial)).
Proof.
  split; [|split; [|split]].
  - refine (proj1 (set_without_name_or_expression value_first_build " " "x" " " "" initial
              eq_refl _ eq_refl _ eq_refl _ eq_refl)); discriminate.
  - refine (proj1 (proj2 (set_without_name_or_expression value_first_build " " "x" " " "  " initial
              eq_refl _ eq_refl _ eq_refl _ eq_refl))); discriminate.
  - refine (proj1 (proj2 (proj2 (set_without_name_or_expression value_first_build " " "x=5" " " ""
              initial eq_refl _ eq_refl _ eq_refl _ eq_refl)))); discriminate.
  - refine (proj1 (proj2 (proj2 (set_without_name_or_expression target_first_build " " "x=5" " " ""
              initial eq_refl _ eq_refl _ eq_refl _ eq_refl)))); discriminate.
Defined.

Lemma print_shows_what_set_stored_witness :
  exists st',
    runLine value_first_build ("set" ++ " " ++ "5" ++ " " ++ "= 7") initial = Done st'
    /\ variables st' = <["5" := double_of_int 7]> (variables initial)
    /\ output st' = output initial
    /\ runLine value_first_build ("print" ++ " " ++ "5") st' = Done (emit "7" st').
Proof.
  assert (evalExpr value_first_build
            (variables (operand_state value_first_build "5" initial)) "7"
            "Set expr error: " = Ok (double_of_int 7)) as Hev
    by (vm_compute; reflexivity).
  assert (exists w3 : text, "= 7" = "=" ++ w3 ++ "7" /\ is_ws w3 = true /\ w3 <> [])
    as Hform by (exists " "; repeat split; discriminate).
  destruct (fun a b c d => print_shows_what_set_stored value_first_build
              " " "5" " " "= 7" "7" " " initial (double_of_int 7)
              eq_refl a eq_refl b eq_refl c (conj eq_refl eq_refl) d
              (or_introl Hform) eq_refl eq_refl eq_refl c eq_refl Hev)
    as (st' & Hset & Hvars & Hout & Hint & _); try discriminate.
  exists st'. split; [exact Hset|]. split; [exact Hvars|]. split; [exact Hout|].
  apply (Hint 7%Z); vm_compute; reflexivity.
Defined.

Lemma print_writes_quoted_text_witness :
  runLine value_first_build ("print" ++ " " ++ dquote :: "1 + 1" ++ [dquote]) initial
  = Done (emit "1 + 1" initial).
Proof.
  refine (print_writes_quoted_text value_first_build " " "1 + 1" initial eq_refl eq_refl _ eq_refl).
  discriminate.
Defined.

Lemma loop_count_failure_skips_block_witness :
  execute value_first_build
    (("" ++ "loop" ++ " " ++ "i" ++ ":" ++ "n" ++ " " ++ "(" ++ "")
       ++ nl :: script ["print i"] ++ ")" ++ nl :: script ["print 7"]) initial
  = execute value_first_build (script ["print 7"])
      (emit "Loop count error: Unknown variable: n near: ''" initial).
Proof.
  refine (loop_count_failure_skips_block value_first_build "" " " "i" "n" " " "" ["print i"] ")"
            (script ["print 7"]) initial _
            eq_refl eq_refl eq_refl eq_refl _ eq_refl eq_refl eq_refl
            eq_refl eq_refl _ eq_refl eq_refl _ eq_refl eq_refl _);
    try discriminate.
  - repeat constructor; discriminate.
  - vm_compute. reflexivity.
Defined.

Lemma script_of_simple_lines_runs_in_order_witness :
  execute value_first_build (script ["set x = 2"; "add x 1"; "print x"]) initial
  = fold_left (fun o l => and_then o (runLine value_first_build l))
      ["set x = 2"; "add x 1"; "print x"] (Done initial)
  /\ execute value_first_build (script ["set x = 2"; "add x 1"; "print x"] ++ script ["print 1"])
       initial
     = and_then (execute value_first_build (script ["set x = 2"; "add x 1"; "print x"]) initial)
         (execute value_first_build (script ["print 1"])).
Proof.
  apply (script_of_simple_lines_runs_in_order value_first_build).
  repeat constructor; discriminate.
Defined.

(** ** Failures of the expression parser *)

Lemma level_throw (u : parser) (s what : text) :
  u s = Throw what -> forall L, level_parser L u s = Throw what.
Proof.
  intros H.
  assert (factor u s = Throw what) as F6 by (unfold factor; now rewrite H).
  assert (term u s = Throw what) as F5 by (unfold term; now rewrite F6).
  assert (comparison u s = Throw what) as F4 by (unfold comparison; now rewrite F5).
  assert (equality u s = Throw what) as F3 by (unfold equality; now rewrite F4).
  assert (logical_and u s = Throw what) as F2 by (unfold logical_and; now rewrite F3).
  assert (logical_or u s = Throw what) as F1 by (unfold logical_or; now rewrite F2).
  intros L. do 7 (destruct L as [|L]; [assumption|]). exact H.
Qed.

Lemma skipWs_stops (s : text) : stops isspace (skipWs s).
Proof. apply stops_drop_while. Qed.

Lemma skipWs_nil_ws (w : text) : is_ws w = true -> skipWs w = [].
Proof. intros H. rewrite <- (app_nil_r w). now rewrite skipWs_ws. Qed.

Lemma not_expr_start (c : ascii) :
  expr_start c = false ->
  isdigit c = false /\ Ascii.eqb c "." = false /\ is_ident_start c = false
  /\ Ascii.eqb c "(" = false /\ Ascii.eqb c "+" = false
  /\ Ascii.eqb c "-" = false /\ Ascii.eqb c "!" = false.
Proof.
  unfold expr_start. intros H.
  repeat (apply orb_false_iff in H as [H ?]). repeat split; assumption.
Qed.

Section ParserFailures.
Variable M : platform.
Variable vars : gmap text double.
Variable prefix : text.

Lemma eval_throw (s what : text) :
  unary M vars prefix (S (length s)) (skipWs s) = Throw what ->
  evalExpr M vars s prefix = Throw what.
Proof.
  intros H. unfold evalExpr, eval.
  rewrite <- (skips_ws_skipWs _ s (expr_skips_ws M vars prefix _)), expr_level.
  now rewrite (level_throw _ _ _ H 1).
Qed.

(** X13: a text that does not begin, white space apart, with a
    character that can start an expression (a digit, a point, a letter,
    an underscore, an opening parenthesis or one of [+ - !]) is rejected
    with the message [Expected primary expression], which quotes the
    text from that character on; the empty text is such a text. *)
Theorem evalExpr_rejects_bad_start (e : text) :
  stops expr_start (skipWs e) ->
  evalExpr M vars e prefix
  = Throw (prefix ++ "Expected primary expression near: '" ++ skipWs e ++ "'").
Proof.
  intros H. apply eval_throw.
  pose proof (skipWs_stops e) as Hs.
  destruct (skipWs e) as [|c s]; [reflexivity|].
  cbn [stops] in H, Hs.
  destruct (not_expr_start _ H) as (Hd & Hpt & Hid & Hp & Hpl & Hmi & Hno).
  rewrite (unary_start M vars prefix _ c s Hs), Hpl, Hmi, Hno.
  unfold primary.
  assert (skipWs (c :: s) = c :: s) as Hsk by (cbn; now rewrite Hs).
  rewrite Hsk, (matchChar_cons "(" c _ Hs), Hp.
  unfold peek. rewrite Hsk. unfold is_ident_start in Hid. rewrite Hid, Hd, Hpt.
  reflexivity.
Qed.

(** X14: what follows a complete expression is an error.  When the text
    of a well-formed tree that has a value is followed by something that
    neither extends its last token nor continues it with an operator or
    an opening parenthesis, and that is not white space only, the
    evaluation fails with [Unexpected trailing characters] and quotes
    what follows. *)
Theorem evalExpr_rejects_trailing_text (e : cst) (w rest : text) (v : double) :
  wf e = true -> is_ws w = true -> value M vars e = Some v ->
  follow 1 rest = true -> skipWs rest <> [] ->
  evalExpr M vars (w ++ text_of e ++ rest) prefix
  = Throw (prefix ++ "Unexpected trailing characters near: '" ++ skipWs rest ++ "'").
Proof.
  intros He Hw Hv Hf Hne. unfold evalExpr, eval.
  set (n := S (length (w ++ text_of e ++ rest))).
  rewrite (expr_skips_ws M vars prefix n w _ Hw), expr_level.
  destruct (proj1 (parse_tree M vars prefix) e He n) as [B1 B2].
  destruct (climb M vars prefix n _ _ _ B1 B2 1) as [Hag _];
    [lia | apply prec_positive | lia |].
  specialize (Hag rest).
  assert (length (text_of e ++ rest) < n) as Hlen
    by (unfold n; rewrite !length_app; lia).
  specialize (Hag Hlen Hf). rewrite Hv in Hag.
  destruct Hag as (rest' & -> & Hs & _). cbn [bind]. rewrite Hs.
  apply is_empty_false in Hne. now rewrite Hne.
Qed.

(** X15: a parenthesis that is not closed.  When the text ends after
    the expression within the parentheses, the evaluation fails with
    [Expected ')'], at the end of the text. *)
Theorem evalExpr_rejects_open_parenthesis (e : cst) (w w1 w2 : text) (v : double) :
  wf e = true -> is_ws w = true -> is_ws w1 = true -> is_ws w2 = true ->
  value M vars e = Some v ->
  evalExpr M vars (w ++ "(" ++ w1 ++ text_of e ++ w2) prefix
  = Throw (prefix ++ "Expected ')' near: ''").
Proof.
  intros He Hw H1 H2 Hv. apply eval_throw. rewrite (skipWs_ws _ _ Hw).
  change (skipWs ("(" ++ w1 ++ text_of e ++ w2)) with ("("%char :: w1 ++ text_of e ++ w2).
  rewrite unary_paren_start.
  set (n := length (w ++ "(" ++ w1 ++ text_of e ++ w2)).
  rewrite (expr_skips_ws M vars prefix n w1 _ H1), expr_level.
  destruct (proj1 (parse_tree M vars prefix) e He n) as [B1 B2].
  destruct (climb M vars prefix n _ _ _ B1 B2 1) as [Hag _];
    [lia | apply prec_positive | lia |].
  specialize (Hag w2).
  assert (length (text_of e ++ w2) < n) as Hlen
    by (unfold n; rewrite !length_app; cbn [length]; lia).
  specialize (Hag Hlen (follow_end w2 1 H2)). rewrite Hv in Hag.
  destruct Hag as (rest' & -> & Hs & _). cbn [bind].
  rewrite (skipWs_nil_ws _ H2) in Hs.
  unfold matchChar. rewrite Hs. reflexivity.
Qed.

(** X16: a name that is not followed by an opening parenthesis is a
    variable: its value is looked up in the table, and a name that is
    not there fails the evaluation at once, with a message that gives
    the name and quotes what follows it. *)
Theorem evalExpr_looks_up_variable (id w w' rest : text) :
  is_identifier id = true -> is_ws w = true -> is_ws w' = true ->
  stops is_ident_char rest -> starts_with "(" (skipWs rest) = false ->
  (vars !! id = None ->
     evalExpr M vars (w ++ id ++ rest) prefix
     = Throw (prefix ++ "Unknown variable: " ++ id ++ " near: '" ++ skipWs rest ++ "'"))
  /\ (forall v, vars !! id = Some v -> evalExpr M vars (w ++ id ++ w') prefix = Ok v).
Proof.
  intros Hid Hw Hw' Hr Hnp. split.
  - intros Hn. apply eval_throw. rewrite (skipWs_ws _ _ Hw).
    destruct id as [|c t] eqn:Eid; [discriminate|]. rewrite <- Eid in *.
    assert (is_ident_start c = true) as Hc.
    { rewrite Eid in Hid. cbn [is_identifier] in Hid.
      now apply andb_true_iff in Hid as [Hc _]. }
    destruct (ident_start_class _ Hc) as (Hs & Hp & Hpl & Hmi & Hno & _).
    assert (skipWs (id ++ rest) = c :: t ++ rest) as Hsk
      by (rewrite Eid; cbn; now rewrite Hs).
    rewrite Hsk, (unary_start M vars prefix _ c _ Hs), Hpl, Hmi, Hno.
    unfold primary.
    assert (skipWs (c :: t ++ rest) = c :: t ++ rest) as Hsk'
      by (cbn; now rewrite Hs).
    rewrite Hsk', (matchChar_cons "(" c _ Hs), Hp.
    unfold peek. rewrite Hsk'. unfold is_ident_start in Hc. rewrite Hc.
    change (c :: t ++ rest) with ((c :: t) ++ rest). rewrite <- Eid.
    rewrite (parseIdentifier_id id rest Hid Hr).
    rewrite matchChar_skipWs, (matchChar_no_paren _ Hnp), Hn. unfold fail.
    rewrite <- !app_assoc. reflexivity.
  - intros v Hv.
    pose proof (evalExpr_tree M vars prefix (CVar id) w w' Hid Hw Hw') as T.
    cbn [value text_of] in T. now rewrite Hv in T.
Qed.

End ParserFailures.

Lemma evalExpr_rejects_bad_start_witness :
  evalExpr value_first_build ∅ "  * 2" "Expr error: "
  = Throw ("Expr error: " ++ "Expected primary expression near: '" ++ skipWs "  * 2" ++ "'").
Proof. apply evalExpr_rejects_bad_start. reflexivity. Defined.

Lemma evalExpr_rejects_trailing_text_witness :
  evalExpr value_first_build ∅ ("" ++ text_of (bin (lit "1") BAdd (lit "2")) ++ " 3") "Expr error: "
  = Throw ("Expr error: " ++ "Unexpected trailing characters near: '"
             ++ skipWs " 3" ++ "'").
Proof.
  refine (evalExpr_rejects_trailing_text value_first_build ∅ "Expr error: "
            (bin (lit "1") BAdd (lit "2")) "" " 3" (double_of_int 3)
            eq_refl eq_refl _ eq_refl _).
  - vm_compute. reflexivity.
  - discriminate.
Defined.

Lemma evalExpr_rejects_open_parenthesis_witness :
  evalExpr value_first_build ∅ ("" ++ "(" ++ "" ++ text_of (bin (lit "1") BAdd (lit "2")) ++ " ")
    "Expr error: "
  = Throw ("Expr error: " ++ "Expected ')' near: ''").
Proof.
  refine (evalExpr_rejects_open_parenthesis value_first_build ∅ "Expr error: "
            (bin (lit "1") BAdd (lit "2")) "" "" " " (double_of_int 3)
            eq_refl eq_refl eq_refl eq_refl _).
  vm_compute. reflexivity.
Defined.

Lemma evalExpr_looks_up_variable_witness :
  evalExpr value_first_build ∅ (" " ++ "total" ++ " + 1") "Expr error: "
  = Throw ("Expr error: " ++ "Unknown variable: " ++ "total" ++ " near: '"
             ++ skipWs " + 1" ++ "'").
Proof.
  refine (proj1 (evalExpr_looks_up_variable value_first_build ∅ "Expr error: "
                   "total" " " "" " + 1" eq_refl eq_refl eq_refl _ eq_refl) _).
  - reflexivity.
  - reflexivity.
Defined.

(** ** Literals with two points *)

Lemma scan_exponent_none (s : text) :
  stops (fun c => Ascii.eqb c "e" || Ascii.eqb c "E") s -> scan_exponent s = ([], s).
Proof.
  destruct s as [|c s]; [reflexivity|]. cbn [stops]. intros H.
  unfold scan_exponent. now rewrite H.
Qed.

Lemma strtod_parse_point (d1 tail : text) :
  forallb isdigit d1 = true -> d1 <> [] -> stops isdigit tail ->
  stops (fun c => Ascii.eqb c "e" || Ascii.eqb c "E") tail ->
  strtod_parse ("." ++ d1 ++ tail) = Some (digits_val d1, (0 - Z.of_nat (length d1))%Z).
Proof.
  intros Hd Nd Ht He. unfold strtod_parse. cbn [app take_while drop_while isdigit].
  change (isdigit ".") with false. cbv iota. cbn [Ascii.eqb Bool.eqb].
  rewrite (take_while_digits _ _ Hd Ht), (drop_while_digits _ _ Hd Ht).
  cbn [is_empty andb app]. apply is_empty_false in Nd. rewrite Nd.
  destruct tail as [|c tail]; [reflexivity|].
  cbn [stops] in He. now rewrite He.
Qed.

Section TwoPoints.
Variable prefix : text.

(** X17: a literal that begins with a point may hold a second point.
    [parseNumber] then consumes the digits after the second point as
    well, and the value is that of the part before it: what stands
    after the second point is ignored.  A literal that begins with a
    digit ends before its second point, which is left unread. *)
Theorem second_point_of_literal (ws d0 d1 d2 rest : text) :
  is_ws ws = true ->
  forallb isdigit d0 = true -> d0 <> [] ->
  forallb isdigit d1 = true -> d1 <> [] ->
  forallb isdigit d2 = true ->
  stops isdigit rest ->
  stops (fun c => Ascii.eqb c "e" || Ascii.eqb c "E") rest ->
  parseNumber prefix (ws ++ "." ++ d1 ++ "." ++ d2 ++ rest)
  = (let* v := stod ("." ++ d1) in Ok (v, rest))
  /\ stod ("." ++ d1 ++ "." ++ d2) = stod ("." ++ d1)
  /\ parseNumber prefix (ws ++ d0 ++ "." ++ d1 ++ "." ++ d2 ++ rest)
     = (let* v := stod (d0 ++ "." ++ d1) in Ok (v, "." ++ d2 ++ rest)).
Proof.
  intros Hw H0 N0 H1 N1 H2 Hr He.
  assert (stod ("." ++ d1 ++ "." ++ d2) = stod ("." ++ d1)) as Es.
  { unfold stod.
    rewrite (strtod_parse_point d1 ("." ++ d2) H1 N1 eq_refl eq_refl).
    pose proof (strtod_parse_point d1 [] H1 N1 I I) as E.
    rewrite app_nil_r in E. now rewrite E. }
  split; [|split; [exact Es|]].
  - unfold parseNumber. rewrite (skipWs_ws _ _ Hw).
    change (skipWs ("." ++ d1 ++ "." ++ d2 ++ rest)) with ("." ++ d1 ++ "." ++ d2 ++ rest).
    pose proof (scan_number_mantissa true true d1 d2 rest H1 H2
                  ltac:(discriminate) Hr ltac:(discriminate)) as E.
    rewrite (scan_exponent_none _ He) in E. cbn [fst snd andb] in E.
    rewrite app_nil_r in E.
    replace ("." ++ d1 ++ "." ++ d2 ++ rest) with ("." ++ d1 ++ ("." ++ d2) ++ rest)
      by (now rewrite <- !app_assoc).
    rewrite E. apply is_empty_false in N1. rewrite N1. cbn [negb orb is_empty app].
    change ("."%char :: d1 ++ "."%char :: d2) with ("." ++ d1 ++ "." ++ d2).
    now rewrite Es.
  - unfold parseNumber. rewrite (skipWs_ws _ _ Hw).
    assert (skipWs (d0 ++ "." ++ d1 ++ "." ++ d2 ++ rest)
            = d0 ++ "." ++ d1 ++ "." ++ d2 ++ rest) as Hsk.
    { apply drop_while_stops. destruct d0 as [|c d0]; [now elim N0|].
      cbn. cbn in H0. apply andb_true_iff in H0 as [H0 _].
      apply (digit_not_space _ H0). }
    rewrite Hsk.
    pose proof (scan_number_mantissa false true d0 d1 ("." ++ d2 ++ rest) H0 H1
                  (fun _ => N0) eq_refl ltac:(discriminate)) as E.
    cbn [app fst snd andb scan_exponent Ascii.eqb Bool.eqb orb] in E.
    cbn [app]. rewrite E.
    apply is_empty_false in N0. rewrite N0. cbn [negb orb].
    rewrite app_nil_r.
    destruct (d0 ++ "."%char :: d1) eqn:Ed; [destruct d0; discriminate|].
    reflexivity.
Qed.

End TwoPoints.

Lemma second_point_of_literal_witness :
  parseNumber "Expr error: " (" " ++ "." ++ "5" ++ "." ++ "25" ++ " + 1")
  = (let* v := stod ("." ++ "5") in Ok (v, " + 1"))
  /\ stod ("." ++ "5" ++ "." ++ "25") = stod ("." ++ "5")
  /\ parseNumber "Expr error: " (" " ++ "1" ++ "." ++ "5" ++ "." ++ "25" ++ " + 1")
     = (let* v := stod ("1" ++ "." ++ "5") in Ok (v, "." ++ "25" ++ " + 1")).
Proof.
  refine (second_point_of_literal "Expr error: " " " "1" "5" "25" " + 1"
            eq_refl eq_refl _ eq_refl _ eq_refl eq_refl eq_refl); discriminate.
Defined.

(** ** The messages of the expression parser *)

Lemma suffix_skipWs (s : text) : skipWs s `suffix_of` s.
Proof. exists (take_while isspace s). symmetry. apply take_drop_while. Qed.

Lemma suffix_matchChar (c : ascii) (s : text) : snd (matchChar c s) `suffix_of` s.
Proof.
  unfold matchChar. pose proof (suffix_skipWs s) as H.
  destruct (skipWs s) as [|x r]; [exact H|].
  destruct (Ascii.eqb x c); cbn [snd]; [|exact H].
  etrans; [|exact H]. apply suffix_cons_r. reflexivity.
Qed.

Lemma reports_suffix (prefix s s' what : text) :
  s' `suffix_of` s -> reports prefix s' what -> reports prefix s what.
Proof.
  intros Hs [-> | (msg & near & Hm & Hn & ->)]; [now left|].
  right. exists msg, near. split; [exact Hm|]. split; [|reflexivity].
  etrans; eassumption.
Qed.

Lemma reports_fail (prefix s near msg : text) :
  is_message msg -> near `suffix_of` s ->
  match @fail prefix (double * text) msg near with
  | Ok (_, s') => s' `suffix_of` s
  | Throw what => reports prefix s what
  | Stuck => True
  end.
Proof.
  intros Hm Hn. unfold fail. right. exists msg, near. now repeat split.
Qed.

Section Messages.
Variable M : platform.
Variable vars : gmap text double.
Variable prefix : text.

Lemma callFunction_reports (name : text) (args : list double) (near s : text) :
  near `suffix_of` s ->
  forall what, callFunction M prefix name args near = Throw what ->
               reports prefix s what.
Proof.
  intros Hn what. unfold callFunction.
  repeat lazymatch goal with
  | |- (if text_eqb name ?f then _ else _) = _ -> _ =>
      let E := fresh "E" in
      destruct (text_eqb name f) eqn:E;
      [ apply text_eqb_eq in E; subst name;
        let H := fresh "H" in
        intros H; destruct args as [|a [|b [|c args]]]; try discriminate H;
        unfold fail in H;
        lazymatch type of H with
        | Throw (_ ++ ?m ++ _) = _ =>
            injection H as <-; right; exists m, near;
            (split; [|split; [exact Hn | reflexivity]]);
            first [ apply (message_one f); cbn; tauto
                  | apply (message_two f); cbn; tauto ]
        end
      | ]
  end.
  unfold fail. intros H. injection H as <-. right.
  exists ("Unknown function: " ++ name), near.
  split; [apply message_function|]. now split.
Qed.

Lemma stod_reports (lit s : text) (what : text) :
  stod lit = Throw what -> reports prefix s what.
Proof.
  unfold stod. destruct (strtod_parse lit) as [[m e]|].
  - destruct (range_error m e (round_decimal m e)); [|discriminate].
    intros H. injection H as <-. now left.
  - intros H. injection H as <-. now left.
Qed.

Lemma parseNumber_sound : sound prefix (parseNumber prefix).
Proof.
  intros s. unfold parseNumber.
  destruct (scan_number (skipWs s)) as [[lit saw] s'] eqn:E.
  assert (s' `suffix_of` s) as Hs.
  { etrans; [|apply suffix_skipWs]. apply scan_number_app in E.
    exists lit. exact E. }
  destruct (is_empty lit || negb saw).
  - apply reports_fail; [constructor | exact Hs].
  - destruct (stod lit) as [v|what|] eqn:Ev; cbn [bind]; [exact Hs | | exact I].
    exact (stod_reports _ _ _ Ev).
Qed.

Lemma bin_loop_sound (sub : parser) (ops : optable) :
  Forall (fun tf => fst tf <> []) ops -> sound prefix sub ->
  forall k v s,
    match bin_loop sub ops k v s with
    | Ok (_, s') => s' `suffix_of` s
    | Throw what => reports prefix s what
    | Stuck => True
    end.
Proof.
  intros Hops Hsub. induction k as [|k IH]; intros v s; [exact I|].
  cbn [bin_loop]. pose proof (suffix_skipWs s) as H0.
  destruct (match_op ops (skipWs s)) as [[f s1]|] eqn:E; [|exact H0].
  assert (s1 `suffix_of` s) as H1.
  { apply (match_op_some _ _ _ _ Hops) in E as (t & _ & _ & E).
    rewrite skipWs_idem in E. etrans; [|exact H0]. exists t. exact E. }
  specialize (Hsub s1).
  destruct (sub s1) as [[r s2]|what|]; cbn [bind]; [| |exact I].
  - specialize (IH (f v r) s2).
    destruct (bin_loop sub ops k (f v r) s2) as [[v' s3]|what|]; [| |exact I].
    + etrans; [exact IH|]. etrans; eassumption.
    + apply (reports_suffix _ s s2); [etrans; eassumption | exact IH].
  - now apply (reports_suffix _ s s1).
Qed.

Lemma bin_level_sound (sub : parser) (ops : optable) :
  Forall (fun tf => fst tf <> []) ops -> sound prefix sub ->
  sound prefix (bin_level sub ops).
Proof.
  intros Hops Hsub s. unfold bin_level. pose proof (Hsub s) as H.
  destruct (sub s) as [[v s1]|what|]; cbn [bind]; [|exact H|exact I].
  pose proof (bin_loop_sound sub ops Hops Hsub (S (length s1)) v s1) as L.
  destruct (bin_loop sub ops (S (length s1)) v s1) as [[v' s2]|what|]; [| |exact I].
  - etrans; eassumption.
  - now apply (reports_suffix _ s s1).
Qed.

Lemma level_parser_sound (u : parser) :
  sound prefix u -> forall L, sound prefix (level_parser L u).
Proof.
  intros Hu.
  assert (forall d L, L + d = 7 -> sound prefix (level_parser L u)) as H.
  { induction d as [|d IH]; intros L HL.
    - rewrite level_parser_top by lia. exact Hu.
    - destruct L as [|L].
      + exact Hu.
      + intros s. rewrite level_parser_bin by lia.
        apply bin_level_sound; [apply tier_table_nonempty|].
        apply IH. lia. }
  intros L. destruct (Nat.le_gt_cases L 7) as [HL|HL].
  - apply (H (7 - L)). lia.
  - rewrite level_parser_top by lia. exact Hu.
Qed.

Lemma args_loop_sound (e : parser) :
  sound prefix e ->
  forall k args s,
    match args_loop prefix e k args s with
    | Ok (_, s') => s' `suffix_of` s
    | Throw what => reports prefix s what
    | Stuck => True
    end.
Proof.
  intros He. induction k as [|k IH]; intros args s; [exact I|].
  cbn [args_loop]. pose proof (He s) as H.
  destruct (e s) as [[a s1]|what|]; cbn [bind]; [|exact H|exact I].
  pose proof (suffix_matchChar ")" (skipWs s1)) as H2.
  destruct (matchChar ")" (skipWs s1)) as [b s2]. cbn [snd] in H2.
  assert (s2 `suffix_of` s) as H2'.
  { etrans; [exact H2|]. etrans; [apply suffix_skipWs | exact H]. }
  destruct b; [exact H2'|].
  pose proof (suffix_matchChar "," s2) as H3.
  destruct (matchChar "," s2) as [b s3]. cbn [snd] in H3.
  assert (s3 `suffix_of` s) as H3' by (etrans; eassumption).
  destruct b.
  - specialize (IH (args ++ [a]) s3).
    destruct (args_loop prefix e k (args ++ [a]) s3) as [[vs s4]|what|]; [| |exact I].
    + etrans; eassumption.
    + now apply (reports_suffix _ s s3).
  - unfold fail. right. exists "Expected ',' or ')'", s3.
    split; [constructor|]. now split.
Qed.

Lemma suffix_parseIdentifier (s : text) : snd (parseIdentifier s) `suffix_of` s.
Proof.
  pose proof (parseIdentifier_app s) as H.
  destruct (parseIdentifier s) as [id s']. specialize (H id s' eq_refl).
  cbn [snd]. etrans; [|apply suffix_skipWs]. exists id. exact H.
Qed.

Lemma primary_sound (e : parser) :
  sound prefix e -> sound prefix (primary M vars prefix e).
Proof.
  intros He s. unfold primary.
  pose proof (suffix_skipWs s) as H0.
  pose proof (suffix_matchChar "(" (skipWs s)) as H1.
  destruct (matchChar "(" (skipWs s)) as [b s1]. cbn [snd] in H1.
  assert (s1 `suffix_of` s) as H1' by (etrans; eassumption).
  destruct b.
  - pose proof (He s1) as H2.
    destruct (e s1) as [[v s2]|what|]; cbn [bind]; [| |exact I].
    + pose proof (suffix_matchChar ")" s2) as H3.
      destruct (matchChar ")" s2) as [b s3]. cbn [snd] in H3.
      assert (s3 `suffix_of` s) as H3' by (do 2 (etrans; [eassumption|]); exact H1').
      destruct b; [exact H3'|].
      apply reports_fail; [constructor | exact H3'].
    + now apply (reports_suffix _ s s1).
  - assert (snd (peek s1) `suffix_of` s) as H2.
    { unfold peek. destruct (skipWs s1) eqn:E; cbn [snd]; rewrite <- E;
        (etrans; [apply suffix_skipWs | exact H1']). }
    destruct (peek s1) as [c s2]. cbn [snd] in H2.
    destruct (isalpha c || Ascii.eqb c "_").
    + pose proof (suffix_parseIdentifier s2) as H3.
      destruct (parseIdentifier s2) as [id s3]. cbn [snd] in H3.
      pose proof (suffix_matchChar "(" (skipWs s3)) as H4.
      destruct (matchChar "(" (skipWs s3)) as [b s4]. cbn [snd] in H4.
      assert (s4 `suffix_of` s) as H4'.
      { etrans; [exact H4|]. etrans; [apply suffix_skipWs|]. etrans; eassumption. }
      destruct b.
      * pose proof (suffix_matchChar ")" (skipWs s4)) as H5.
        destruct (matchChar ")" (skipWs s4)) as [b s5]. cbn [snd] in H5.
        assert (s5 `suffix_of` s) as H5'.
        { etrans; [exact H5|]. etrans; [apply suffix_skipWs | exact H4']. }
        destruct b.
        -- destruct (callFunction M prefix id [] s5) as [v|what|] eqn:C;
             cbn [bind]; [exact H5' | | exact I].
           exact (callFunction_reports _ _ _ _ H5' _ C).
        -- pose proof (args_loop_sound e He (S (length s5)) [] s5) as H6.
           destruct (args_loop prefix e (S (length s5)) [] s5) as [[args s6]|what|];
             cbn [bind]; [| |exact I].
           ++ assert (s6 `suffix_of` s) as H6' by (etrans; eassumption).
              destruct (callFunction M prefix id args s6) as [v|what|] eqn:C;
                cbn [bind]; [exact H6' | | exact I].
              exact (callFunction_reports _ _ _ _ H6' _ C).
           ++ now apply (reports_suffix _ s s5).
      * destruct (vars !! id) as [v|]; [exact H4'|].
        apply reports_fail; [constructor | exact H4'].
    + destruct (isdigit c || Ascii.eqb c ".").
      * pose proof (parseNumber_sound s2) as H3.
        destruct (parseNumber prefix s2) as [[v s3]|what|]; [| |exact I].
        -- etrans; eassumption.
        -- now apply (reports_suffix _ s s2).
      * apply reports_fail; [constructor | exact H2].
Qed.

Lemma unary_sound (n : nat) : sound prefix (unary M vars prefix n).
Proof.
  induction n as [|n IH]; intros s; [exact I|].
  cbn [unary]. pose proof (suffix_skipWs s) as H0.
  pose proof (suffix_matchChar "+" (skipWs s)) as H1.
  destruct (matchChar "+" (skipWs s)) as [b s1]. cbn [snd] in H1.
  assert (s1 `suffix_of` s) as H1' by (etrans; eassumption).
  destruct b.
  { pose proof (IH s1) as H. destruct (unary M vars prefix n s1) as [[v s2]|what|];
      [| |exact I]; [etrans; eassumption | now apply (reports_suffix _ s s1)]. }
  pose proof (suffix_matchChar "-" s1) as H2.
  destruct (matchChar "-" s1) as [b s2]. cbn [snd] in H2.
  assert (s2 `suffix_of` s) as H2' by (etrans; eassumption).
  destruct b.
  { pose proof (IH s2) as H. destruct (unary M vars prefix n s2) as [[v s3]|what|];
      cbn [bind]; [| |exact I];
      [etrans; eassumption | now apply (reports_suffix _ s s2)]. }
  pose proof (suffix_matchChar "!" s2) as H3.
  destruct (matchChar "!" s2) as [b s3]. cbn [snd] in H3.
  assert (s3 `suffix_of` s) as H3' by (etrans; eassumption).
  destruct b.
  { pose proof (IH s3) as H. destruct (unary M vars prefix n s3) as [[v s4]|what|];
      cbn [bind]; [| |exact I];
      [etrans; eassumption | now apply (reports_suffix _ s s3)]. }
  pose proof (primary_sound (expr (unary M vars prefix n))
                (level_parser_sound _ IH 1) s3) as H.
  destruct (primary M vars prefix (expr (unary M vars prefix n)) s3) as [[v s4]|what|];
    [| |exact I]; [etrans; eassumption | now apply (reports_suffix _ s s3)].
Qed.

(** X18: what the exceptions of [evalExpr] say.  Each of them is either
    the [what()] of [std::stod], which is the text [stod], or begins
    with the prefix of the statement, goes on with one of the messages
    of the parser, and ends with an unread end of the expression between
    single quotes. *)
Theorem evalExpr_exception_reports (e what : text) :
  evalExpr M vars e prefix = Throw what ->
  what = "stod"
  \/ exists msg near,
       is_message msg /\ near `suffix_of` e
       /\ what = prefix ++ msg ++ " near: '" ++ near ++ "'".
Proof.
  unfold evalExpr, eval. intros H.
  pose proof (level_parser_sound _ (unary_sound (S (length e))) 1 e) as Hs.
  rewrite <- expr_level in Hs.
  destruct (expr (unary M vars prefix (S (length e))) e) as [[v s1]|w|];
    cbn [bind] in H; [| |discriminate].
  - destruct (is_empty (skipWs s1)); [discriminate|].
    unfold fail in H. injection H as <-. right.
    exists "Unexpected trailing characters", (skipWs s1).
    split; [constructor|]. split; [|reflexivity].
    etrans; [apply suffix_skipWs | exact Hs].
  - injection H as <-. exact Hs.
Qed.

End Messages.

Lemma evalExpr_exception_reports_witness :
  "Set expr error: sqrt() expects 1 arg near: ' + 1'" = "stod"
  \/ exists msg near,
       is_message msg /\ near `suffix_of` "sqrt(1, 2) + 1"
       /\ "Set expr error: sqrt() expects 1 arg near: ' + 1'"
          = "Set expr error: " ++ msg ++ " near: '" ++ near ++ "'".
Proof.
  apply (evalExpr_exception_reports value_first_build ∅ "Set expr error: " "sqrt(1, 2) + 1").
  vm_compute. reflexivity.
Defined.

(** ** Layout *)

Lemma exec_line_trim (M : platform) (e c : text -> state -> outcome) (la lb stream : text)
    (st : state) :
  trim la = trim lb -> exec_line M e c la stream st = exec_line M e c lb stream st.
Proof. intros H. unfold exec_line. now rewrite H. Qed.

Lemma readBlock_loop_nil (k : nat) (acc : text) : readBlock_loop k acc [] = (acc, []).
Proof. now destruct k. Qed.

Lemma same_lines_script (la lb : list text) :
  Forall2 same_line la lb -> same_lines (script la) (script lb).
Proof.
  induction 1 as [|x y la lb (Ht & Hx & Hy) _ IH]; [constructor|].
  rewrite !script_cons.
  eapply same_lines_line; [now apply getline_line | now apply getline_line | exact Ht | exact IH].
Qed.

Lemma readBlock_loop_same (a b : text) :
  same_lines a b ->
  forall ka kb la lb,
    length a <= ka -> length b <= kb -> Forall2 same_line la lb ->
    exists la' lb',
      Forall2 same_line la' lb'
      /\ fst (readBlock_loop ka (script la) a) = script la'
      /\ fst (readBlock_loop kb (script lb) b) = script lb'
      /\ same_lines (snd (readBlock_loop ka (script la) a))
                    (snd (readBlock_loop kb (script lb) b)).
Proof.
  induction 1 as [|a b xa xb ra rb Ga Gb Ht Hs IH]; intros ka kb la lb Ha Hb HF.
  - exists la, lb. rewrite !readBlock_loop_nil. cbn [fst snd].
    split; [exact HF|]. split; [reflexivity|]. split; [reflexivity | constructor].
  - pose proof (getline_length _ _ _ Ga) as La.
    pose proof (getline_length _ _ _ Gb) as Lb.
    pose proof (getline_no_nl _ _ _ Ga) as Na.
    pose proof (getline_no_nl _ _ _ Gb) as Nb.
    destruct ka as [|ka]; [lia|]. destruct kb as [|kb]; [lia|].
    cbn [readBlock_loop]. rewrite Ga, Gb, <- Ht.
    destruct (text_eqb (trim xa) ")").
    + exists la, lb. cbn [fst snd]. now repeat split.
    + rewrite <- !script_snoc. apply IH; [lia | lia |].
      apply Forall2_app; [exact HF|]. constructor; [now repeat split | constructor].
Qed.

Lemma readBlock_same (a b : text) :
  same_lines a b ->
  same_lines (fst (readBlock a)) (fst (readBlock b))
  /\ same_lines (snd (readBlock a)) (snd (readBlock b)).
Proof.
  intros H. unfold readBlock.
  destruct (readBlock_loop_same a b H (length a) (length b) [] [] (le_n _) (le_n _)
              (List.Forall2_nil _)) as (la & lb & HF & Ea & Eb & Hr).
  change (script []) with (@nil ascii) in *. rewrite Ea, Eb.
  split; [now apply same_lines_script | exact Hr].
Qed.

Section Layout.
Variable M : platform.

Lemma exec_line_related (e1 e2 c1 c2 : text -> state -> outcome)
    (line sa sb : text) :
  (trim line <> [] ->
   (forall st, e1 (fst (readBlock sa)) st = e2 (fst (readBlock sb)) st)
   /\ (forall st, c1 (snd (readBlock sa)) st = c2 (snd (readBlock sb)) st)) ->
  (forall st, c1 sa st = c2 sb st) ->
  forall st, exec_line M e1 c1 line sa st = exec_line M e2 c2 line sb st.
Proof.
  intros Hblock Hc st. unfold exec_line.
  destruct (is_empty (trim line)) eqn:E0; [apply Hc|].
  apply is_empty_false in E0. destruct (Hblock E0) as [He Hc'].
  destruct (starts_with "comment" (trim line)); [apply Hc|].
  destruct (extract (trim line)) as [command ss].
  destruct (text_eqb command "loop").
  { destruct (extract ss) as [varAndCount ss1].
    destruct (find_char ":" varAndCount) as [colonPos|]; [|apply Hc].
    destruct (extract ss1) as [openParen ss2].
    destruct (negb (text_eqb openParen "(")); [apply Hc|].
    destruct (readBlock sa) as [ba ra]. destruct (readBlock sb) as [bb rb].
    cbn [fst snd] in He, Hc'.
    destruct (evalExpr M (variables st) _ "Loop count error: ") as [v|what|];
      [|apply Hc'|reflexivity].
    destruct (cast_int (dfloor v)) as [count|]; [|reflexivity].
    apply and_then_ext; [|exact Hc']. apply for_loop_ext. exact He. }
  destruct (text_eqb command "if").
  { destruct (splitHeaderAndOpenParen (trim line)) as [h|]; [|apply Hc].
    destruct (readBlock sa) as [ba ra]. destruct (readBlock sb) as [bb rb].
    cbn [fst snd] in He, Hc'.
    destruct (evalExpr M (variables st) _ "If condition error: ") as [v|what|];
      [|apply Hc'|reflexivity].
    destruct (dne v d_zero); [|apply Hc'].
    apply and_then_ext; [apply He | exact Hc']. }
  apply and_then_ext; [reflexivity | exact Hc].
Qed.

Lemma exec_loop_same : forall n a b,
  length a < n -> length b < n -> same_lines a b ->
  forall st, exec_loop M n a st = exec_loop M n b st.
Proof.
  induction n as [|n IH]; intros a b Ha Hb Hs st; [lia|].
  cbn [exec_loop]. destruct Hs as [|a b la lb ra rb Ga Gb Ht Hs]; [reflexivity|].
  rewrite Ga, Gb.
  destruct (getline_room _ _ _ n Ga Ha) as [Ra La].
  destruct (getline_room _ _ _ n Gb Hb) as [Rb Lb].
  rewrite (exec_line_trim M _ _ la lb ra st Ht).
  apply exec_line_related.
  - intros Hne. destruct (readBlock_same ra rb Hs) as [S1 S2].
    assert (lb <> []) as Nb by (now apply trim_nonempty).
    assert (la <> []) as Na by (apply trim_nonempty; now rewrite Ht).
    destruct (readBlock ra) as [ba ra'] eqn:Ea.
    destruct (readBlock rb) as [bb rb'] eqn:Eb.
    pose proof (block_room la ra ba ra' Na Ea) as B1.
    pose proof (block_room lb rb bb rb' Nb Eb) as B2.
    pose proof (readBlock_length _ _ _ Ea) as (L1 & _ & _).
    pose proof (readBlock_length _ _ _ Eb) as (L2 & _ & _).
    cbn [fst snd] in *. split; intros st'; apply IH; try assumption; lia.
  - intros st'. now apply IH.
Qed.

(** X19: the layout of a script does not matter.  Two scripts with as
    many lines whose lines agree once trimmed (so that they differ in
    indentation, in trailing white space, in carriage returns before the
    newlines, or in the newline after the last line) are executed alike,
    from every state. *)
Theorem execute_ignores_layout (a b : text) (st : state) :
  same_lines a b -> execute M a st = execute M b st.
Proof.
  intros H. unfold execute.
  rewrite (exec_loop_budget M _ (S (Nat.max (length a) (length b))) a st) by lia.
  rewrite (exec_loop_budget M (S (length b)) (S (Nat.max (length a) (length b))) b st)
    by lia.
  apply exec_loop_same; [lia | lia | exact H].
Qed.

End Layout.

Lemma execute_ignores_layout_witness :
  execute value_first_build
    ("loop i:2 (" ++ nl :: "print i" ++ nl :: ")" ++ nl :: "") initial
  = execute value_first_build
      ("  loop i:2 (  " ++ "013"%char :: nl :: "    print i" ++ "013"%char :: nl :: "  )") initial.
Proof.
  apply execute_ignores_layout.
  eapply same_lines_line; [reflexivity | reflexivity | reflexivity |].
  eapply same_lines_line; [reflexivity | reflexivity | reflexivity |].
  eapply same_lines_line; [reflexivity | reflexivity | reflexivity |].
  constructor.
Defined.

(** ** What a run keeps *)

Lemma grows_refl (st : state) : grows st st.
Proof. split; [reflexivity | auto]. Qed.

Lemma grows_trans (a b c : state) : grows a b -> grows b c -> grows a c.
Proof. intros [P1 V1] [P2 V2]. split; [etrans; eassumption | auto]. Qed.

Lemma grows_emit (l : text) (st : state) : grows st (emit l st).
Proof. split; [cbn; now apply prefix_app_r | auto]. Qed.

Lemma grows_set_var (x : text) (v : double) (st : state) : grows st (set_var x v st).
Proof.
  split; [reflexivity|]. intros y Hy. cbn [set_var variables].
  destruct (decide (x = y)) as [->|Hne].
  - rewrite lookup_insert_eq. eauto.
  - now rewrite lookup_insert_ne.
Qed.

Lemma growing_and_then (o : outcome) (k : state -> outcome) (st st' : state) :
  (forall st1, o = Done st1 -> grows st st1) -> growing k ->
  and_then o k = Done st' -> grows st st'.
Proof.
  intros Ho Hk. destruct o as [st1| |]; cbn [and_then]; try discriminate.
  intros E. apply (grows_trans _ st1); [now apply Ho | now apply Hk].
Qed.

Lemma growing_printNumberNicely (v : double) : growing (printNumberNicely v).
Proof.
  intros st st'. unfold printNumberNicely.
  destruct (dlt _ _).
  - destruct (cast_long_long _); [|discriminate].
    intros E. injection E as <-. apply grows_emit.
  - intros E. injection E as <-. apply grows_emit.
Qed.

Lemma growing_for_loop (body : state -> outcome) (var : text) :
  growing body -> forall k i, growing (for_loop body var k i).
Proof.
  intros Hb. induction k as [|k IH]; intros i st st'.
  - cbn. intros E. injection E as <-. apply grows_refl.
  - rewrite for_loop_succ. intros E.
    apply (grows_trans _ (set_var var (double_of_int i) st)); [apply grows_set_var|].
    revert E. apply growing_and_then; [|apply IH].
    intros st1 E1. now apply Hb.
Qed.

Section Keeps.
Variable M : platform.

Lemma growing_try_assign (var expr : text) : growing (try_assign M var expr).
Proof.
  intros st st'. unfold try_assign.
  assert (grows st (operand_state M var st)) as G.
  { unfold operand_state, assign_target. destruct (value_first M); [apply grows_refl|].
    destruct (variables st !! var); [apply grows_refl | apply grows_set_var]. }
  destruct (evalExpr M _ _ "Set expr error: ") as [v|what|];
    [| |discriminate]; intros E; injection E as <-;
    (eapply grows_trans; [exact G|]); [apply grows_set_var | apply grows_emit].
Qed.

Lemma growing_runLine (line : text) : growing (runLine M line).
Proof.
  intros st st'. unfold runLine.
  destruct (is_empty (trim line)); [intros E; injection E as <-; apply grows_refl|].
  destruct (starts_with "comment" (trim line));
    [intros E; injection E as <-; apply grows_refl|].
  destruct (extract (trim line)) as [command ss].
  destruct (text_eqb command "print").
  { destruct (_ && _); [intros E; injection E as <-; apply grows_emit|].
    destruct (if is_empty _ then None else _) as [v|];
      [apply growing_printNumberNicely|].
    destruct (evalExpr M (variables st) _ "Print expr error: ") as [v|what|];
      [apply growing_printNumberNicely | | discriminate].
    intros E; injection E as <-; apply grows_emit. }
  destruct (text_eqb command "set").
  { destruct (extract ss) as [var ss1].
    destruct (is_empty var); [intros E; injection E as <-; apply grows_emit|].
    destruct (extract ss1) as [token ss2].
    destruct (negb (text_eqb token "=")).
    - apply growing_try_assign.
    - destruct (is_empty _); [intros E; injection E as <-; apply grows_emit|].
      apply growing_try_assign. }
  destruct (text_eqb command "add").
  { destruct (extract ss) as [var ss1].
    destruct (is_empty var); [intros E; injection E as <-; apply grows_emit|].
    destruct (variables st !! var) as [old|];
      [|intros E; injection E as <-; apply grows_emit].
    destruct (is_empty _); [intros E; injection E as <-; apply grows_emit|].
    destruct (evalExpr M (variables st) _ "Add expr error: ") as [v|what|];
      [| |discriminate]; intros E; injection E as <-;
      [apply grows_set_var | apply grows_emit]. }
  intros E; injection E as <-; apply grows_emit.
Qed.

Lemma growing_exec_line (e c : text -> state -> outcome) (line stream : text) :
  (forall s, growing (e s)) -> (forall s, growing (c s)) ->
  growing (exec_line M e c line stream).
Proof.
  intros He Hc st st'. unfold exec_line.
  destruct (is_empty (trim line)); [apply Hc|].
  destruct (starts_with "comment" (trim line)); [apply Hc|].
  destruct (extract (trim line)) as [command ss].
  destruct (text_eqb command "loop").
  { destruct (extract ss) as [varAndCount ss1].
    destruct (find_char ":" varAndCount) as [colonPos|].
    2:{ intros E. eapply grows_trans; [apply grows_emit | exact (Hc _ _ _ E)]. }
    destruct (extract ss1) as [openParen ss2].
    destruct (negb (text_eqb openParen "(")).
    { intros E. eapply grows_trans; [apply grows_emit | exact (Hc _ _ _ E)]. }
    destruct (readBlock stream) as [block stream'].
    destruct (evalExpr M (variables st) _ "Loop count error: ") as [v|what|];
      [| |discriminate].
    - destruct (cast_int (dfloor v)) as [count|]; [|discriminate].
      apply growing_and_then; [|apply Hc].
      intros st1. apply growing_for_loop, He.
    - intros E. eapply grows_trans; [apply grows_emit | exact (Hc _ _ _ E)]. }
  destruct (text_eqb command "if").
  { destruct (splitHeaderAndOpenParen (trim line)) as [h|].
    2:{ intros E. eapply grows_trans; [apply grows_emit | exact (Hc _ _ _ E)]. }
    destruct (readBlock stream) as [block stream'].
    destruct (evalExpr M (variables st) _ "If condition error: ") as [v|what|];
      [| |discriminate].
    - destruct (dne v d_zero); [|apply Hc].
      apply growing_and_then; [|apply Hc]. intros st1. apply He.
    - intros E. eapply grows_trans; [apply grows_emit | exact (Hc _ _ _ E)]. }
  apply growing_and_then; [|apply Hc]. intros st1. apply growing_runLine.
Qed.

Lemma growing_exec_loop (n : nat) : forall s, growing (exec_loop M n s).
Proof.
  induction n as [|n IH]; intros s st st'; [discriminate|].
  cbn [exec_loop]. destruct (getline s) as [[line stream]|].
  - now apply growing_exec_line.
  - intros E. injection E as <-. apply grows_refl.
Qed.

(** X20: a run only adds.  Whatever the script, the lines written
    before it are the first lines written after it, and every variable
    that was set before it is still set after it: nothing that was
    written is taken back and no variable is ever removed. *)
Theorem execute_only_adds (code : text) (st st' : state) :
  execute M code st = Done st' ->
  output st `prefix_of` output st'
  /\ forall x, is_Some (variables st !! x) -> is_Some (variables st' !! x).
Proof. apply growing_exec_loop. Qed.

End Keeps.

Lemma execute_only_adds_witness :
  output (set_var "x" d_one (emit "begin" initial))
    `prefix_of` output (set_var "y" d_one (emit "1" (set_var "x" d_one (emit "begin" initial))))
  /\ forall x,
       is_Some (variables (set_var "x" d_one (emit "begin" initial)) !! x) ->
       is_Some (variables
                  (set_var "y" d_one
                     (emit "1" (set_var "x" d_one (emit "begin" initial)))) !! x).
Proof.
  apply (execute_only_adds value_first_build (script ["print x"; "set y = 1"])).
  vm_compute. reflexivity.
Defined.

(** ** Integers *)

Section Integral.
Local Open Scope Z_scope.

Lemma digits2_size (m : positive) : digits2_pos m = Pos.size m.
Proof. induction m; cbn; congruence. Qed.

Lemma digits2_iter (m k : positive) :
  Zpos (digits2_pos (Pos.iter xO m k)) = Zpos (digits2_pos m) + Zpos k.
Proof.
  revert m. induction k using Pos.peano_ind; intros m.
  - cbn. lia.
  - rewrite Pos.iter_succ. cbn [digits2_pos]. rewrite Pos2Z.inj_succ, IHk. lia.
Qed.

Lemma value_iter (m k : positive) : Zpos (Pos.iter xO m k) = Zpos m * 2 ^ Zpos k.
Proof.
  induction k using Pos.peano_ind.
  - cbn. lia.
  - rewrite Pos.iter_succ. change (Zpos (Pos.iter xO m k)~0) with (2 * Zpos (Pos.iter xO m k)).
    rewrite IHk, Pos2Z.inj_succ, Z.pow_succ_r by lia. lia.
Qed.

Lemma digits2_bounds (m : positive) :
  2 ^ (Zpos (digits2_pos m) - 1) <= Zpos m < 2 ^ Zpos (digits2_pos m).
Proof.
  rewrite digits2_size. split.
  - pose proof (Pos.size_le m) as H.
    apply Pos2Z.pos_le_pos in H. rewrite Pos2Z.inj_pow in H.
    change (Zpos m~0) with (2 * Zpos m) in H.
    assert (2 ^ Zpos (Pos.size m) = 2 * 2 ^ (Zpos (Pos.size m) - 1)) as E.
    { rewrite <- Z.pow_succ_r by lia. f_equal. lia. }
    lia.
  - pose proof (Pos.size_gt m) as H.
    apply Pos2Z.pos_lt_pos in H. now rewrite Pos2Z.inj_pow in H.
Qed.

Lemma small_digits (m : positive) : Zpos m < 2 ^ 53 -> Zpos (digits2_pos m) <= 53.
Proof.
  intros H. destruct (digits2_bounds m) as [L _].
  destruct (Z.le_gt_cases (Zpos (digits2_pos m)) 53) as [|G]; [assumption|].
  assert (2 ^ 53 <= 2 ^ (Zpos (digits2_pos m) - 1)) by (apply Z.pow_le_mono_r; lia).
  lia.
Qed.

(** A mantissa of 53 bits with an exponent in the normal range is left
    as it is by the rounding. *)
Lemma binary_round_aux_canonical (s : bool) (mz : positive) (ez : Z) :
  Zpos (digits2_pos mz) = 53 -> -1074 <= ez <= 971 ->
  binary_round_aux prec64 emax64 s (Zpos mz) ez loc_Exact = S754_finite s mz ez.
Proof.
  intros Hd He. unfold binary_round_aux, shr_fexp, fexp, emin, prec64, emax64.
  cbn [Zdigits2 shr_record_of_loc]. rewrite Hd.
  replace (Z.max (53 + ez - 53) (3 - 1024 - 53) - ez) with 0 by lia.
  cbn [shr shr_m loc_of_shr_record round_nearest_even Zdigits2]. rewrite Hd.
  replace (Z.max (53 + ez - 53) (3 - 1024 - 53) - ez) with 0 by lia.
  cbn [shr shr_m].
  replace (ez <=? 1024 - 53) with true by (symmetry; apply Z.leb_le; lia).
  reflexivity.
Qed.

(** The double of an integer below [2^53]: its mantissa is the integer
    shifted to 53 bits. *)
Lemma binary_round_integer (s : bool) (m : positive) :
  Zpos m < 2 ^ 53 ->
  exists mz k,
    0 <= k <= 52 /\ Zpos mz = Zpos m * 2 ^ k /\ Zpos (digits2_pos mz) = 53
    /\ binary_round prec64 emax64 s m 0 = S754_finite s mz (- k).
Proof.
  intros H. pose proof (small_digits m H) as Hd.
  assert (1 <= Zpos (digits2_pos m)) as Hd1 by lia.
  unfold binary_round, shl_align, fexp, emin, prec64, emax64.
  replace (Z.max (Zpos (digits2_pos m) + 0 - 53) (3 - 1024 - 53))
    with (Zpos (digits2_pos m) - 53) by lia.
  destruct (Zpos (digits2_pos m) - 53 - 0) as [|p|p] eqn:E.
  - exists m, 0. split; [lia|]. split; [lia|]. split; [lia|].
    apply binary_round_aux_canonical; lia.
  - lia.
  - exists (Pos.iter xO m p), (Zpos p).
    assert (Zpos p = 53 - Zpos (digits2_pos m)) as Ep by lia.
    split; [lia|]. split; [apply value_iter|].
    split; [rewrite digits2_iter; lia|].
    replace (Zpos (digits2_pos m) - 53) with (- Zpos p) by lia.
    apply binary_round_aux_canonical; [rewrite digits2_iter; lia | lia].
Qed.

Lemma double_of_int_small (n : Z) :
  n <> 0 -> Z.abs n < 2 ^ 53 ->
  exists mz k,
    0 <= k <= 52 /\ Zpos mz = Z.abs n * 2 ^ k /\ Zpos (digits2_pos mz) = 53
    /\ double_of_int n = S754_finite (n <? 0) mz (- k).
Proof.
  intros Hn H. unfold double_of_int, d_of_Z2, binary_normalize.
  destruct n as [|p|p]; [congruence | |].
  - destruct (binary_round_integer false p H) as (mz & k & H1 & H2 & H3 & H4).
    exists mz, k. now repeat split.
  - destruct (binary_round_integer true p H) as (mz & k & H1 & H2 & H3 & H4).
    exists mz, k. now repeat split.
Qed.

Lemma d_of_Z2_nonzero (n : Z) (s : bool) : n <> 0 -> d_of_Z2 n 0 s = double_of_int n.
Proof. intros H. destruct n; [congruence | reflexivity | reflexivity]. Qed.

Lemma shifted_parts (a k : Z) :
  0 <= a -> 0 < k ->
  Z.shiftr (a * 2 ^ k) k = a /\ Z.land (a * 2 ^ k) (Z.ones k) = 0.
Proof.
  intros Ha Hk. split.
  - rewrite Z.shiftr_div_pow2 by lia. apply Z.div_mul. apply Z.pow_nonzero; lia.
  - rewrite Z.land_ones by lia. apply Z.mod_mul. apply Z.pow_nonzero; lia.
Qed.

Lemma cond_Zopp_abs (n : Z) : cond_Zopp (n <? 0) (Z.abs n) = n.
Proof. unfold cond_Zopp. destruct (Z.ltb_spec n 0); lia. Qed.

Lemma abs_sign (n : Z) : (if n <? 0 then - Z.abs n else Z.abs n) = n.
Proof. destruct (Z.ltb_spec n 0); lia. Qed.

(** [round] and [floor] leave the double of an integer as it is. *)
Lemma dround_integer (n : Z) :
  Z.abs n < 2 ^ 53 ->
  dround (double_of_int n) = double_of_int n
  /\ dfloor (double_of_int n) = double_of_int n.
Proof.
  intros H. destruct (Z.eq_dec n 0) as [->|Hn]; [now split|].
  destruct (double_of_int_small n Hn H) as (mz & k & Hk & Hv & Hd & E).
  rewrite E. unfold dround, dfloor.
  destruct (Z.leb_spec 0 (- k)) as [|Hneg]; [now split|].
  unfold split_mantissa. rewrite Z.opp_involutive, Hv.
  destruct (shifted_parts (Z.abs n) k ltac:(lia) ltac:(lia)) as [-> ->].
  replace (2 ^ (k - 1) <=? 0) with false
    by (symmetry; apply Z.leb_gt; apply Z.pow_pos_nonneg; lia).
  cbn [Z.eqb]. rewrite abs_sign, <- E. split.
  - apply d_of_Z2_nonzero. exact Hn.
  - destruct (n <? 0) eqn:S.
    + replace (- Z.abs n) with n by (apply Z.ltb_lt in S; lia).
      apply d_of_Z2_nonzero. exact Hn.
    + replace (Z.abs n) with n by (apply Z.ltb_ge in S; lia).
      apply d_of_Z2_nonzero. exact Hn.
Qed.

Lemma dtrunc_integer (n : Z) :
  Z.abs n < 2 ^ 53 -> dtrunc_Z (double_of_int n) = Some n.
Proof.
  intros H. destruct (Z.eq_dec n 0) as [->|Hn]; [reflexivity|].
  destruct (double_of_int_small n Hn H) as (mz & k & Hk & Hv & Hd & E).
  rewrite E. unfold dtrunc_Z. f_equal.
  destruct (Z.leb_spec 0 (- k)) as [Hz|Hneg].
  - assert (k = 0) as -> by lia. rewrite Hv. cbn [Z.opp Z.pow]. 
    rewrite !Z.mul_1_r. apply cond_Zopp_abs.
  - rewrite Z.opp_involutive, Hv.
    destruct (shifted_parts (Z.abs n) k ltac:(lia) ltac:(lia)) as [-> _].
    apply cond_Zopp_abs.
Qed.

Lemma dsub_self (s : bool) (m : positive) (e : Z) :
  dsub (S754_finite s m e) (S754_finite s m e) = S754_zero false.
Proof.
  unfold dsub, SFsub. cbv zeta. rewrite Z.min_id. unfold shl_align.
  rewrite Z.sub_diag. reflexivity.
Qed.

Lemma printNumberNicely_integer (n : Z) (st : state) :
  Z.abs n < 2 ^ 53 ->
  printNumberNicely (double_of_int n) st = Done (emit (decimal n) st).
Proof.
  intros H. unfold printNumberNicely.
  rewrite (proj1 (dround_integer n H)).
  assert (dlt (dabs (dsub (double_of_int n) (double_of_int n))) d_1e_9 = true) as ->.
  { destruct (Z.eq_dec n 0) as [->|Hn]; [reflexivity|].
    destruct (double_of_int_small n Hn H) as (mz & k & _ & _ & _ & ->).
    now rewrite dsub_self. }
  unfold cast_long_long, cast_signed. rewrite (dtrunc_integer n H).
  replace ((- 2 ^ (64 - 1) <=? n) && (n <? 2 ^ (64 - 1))) with true; [reflexivity|].
  symmetry. apply andb_true_iff. split; [apply Z.leb_le | apply Z.ltb_lt];
    change (2 ^ (64 - 1)) with (2 ^ 53 * 1024); lia.
Qed.

(** The digits of a number and its value. *)
Lemma digits_val_acc (d : Decimal.uint) :
  (forall acc : positive,
     fold_left (fun a c => 10 * a + digit_val c)
       (list_ascii_of_string (NilEmpty.string_of_uint d)) (Zpos acc)
     = Zpos (Pos.of_uint_acc d acc))
  /\ fold_left (fun a c => 10 * a + digit_val c)
       (list_ascii_of_string (NilEmpty.string_of_uint d)) 0
     = Z.of_N (Pos.of_uint d).
Proof.
  induction d as [|d [IH1 IH2]|d [IH1 IH2]|d [IH1 IH2]|d [IH1 IH2]|d [IH1 IH2]
                  |d [IH1 IH2]|d [IH1 IH2]|d [IH1 IH2]|d [IH1 IH2]|d [IH1 IH2]];
    (split; [intros acc|]);
    cbn [NilEmpty.string_of_uint list_ascii_of_string fold_left Pos.of_uint_acc
         Pos.of_uint Z.of_N];
    try reflexivity; try exact IH2;
    lazymatch goal with
    | |- fold_left _ _ ?x = Zpos (Pos.of_uint_acc _ ?a) =>
        replace x with (Zpos a) by (unfold digit_val; cbn; lia); apply IH1
    end.
Qed.

Lemma digits_val_decimal (n : Z) : 0 <= n -> digits_val (decimal n) = n.
Proof.
  intros H. unfold digits_val, decimal.
  destruct n as [|p|p]; [reflexivity | | lia].
  cbn [Z.to_int NilZero.string_of_int]. unfold NilZero.string_of_uint.
  pose proof (DecimalPos.Unsigned.to_uint_nonnil p) as Hnil.
  pose proof (DecimalPos.Unsigned.of_to p) as Hof.
  destruct (Pos.to_uint p) eqn:E; try congruence;
    rewrite (proj2 (digits_val_acc _)), Hof; reflexivity.
Qed.

Lemma decimal_digits (n : Z) :
  0 <= n -> decimal n <> [] /\ forallb isdigit (decimal n) = true.
Proof.
  intros H. unfold decimal. destruct n as [|p|p]; [now split | | lia].
  cbn [Z.to_int NilZero.string_of_int].
  destruct (decimal_uint_text (Pos.to_uint p)) as (c & ds & -> & Hc & Hds).
  split; [discriminate|]. cbn. now rewrite Hc, Hds.
Qed.

Lemma stod_decimal (n : Z) :
  0 <= n < 2 ^ 53 -> stod (decimal n) = Ok (double_of_int n).
Proof.
  intros H. destruct (decimal_digits n ltac:(lia)) as [Hne Hds].
  unfold stod, strtod_parse.
  pose proof (take_while_digits (decimal n) [] Hds I) as T.
  pose proof (drop_while_digits (decimal n) [] Hds I) as D.
  rewrite app_nil_r in T, D. rewrite T, D.
  apply is_empty_false in Hne. rewrite Hne. cbn [andb is_empty length].
  rewrite app_nil_r, (digits_val_decimal n ltac:(lia)).
  change (0 - Z.of_nat 0) with 0. unfold round_decimal.
  destruct (Z.eqb_spec n 0) as [->|Hn]; [reflexivity|].
  cbn [Z.leb Z.compare Z.pow]. rewrite Z.mul_1_r.
  change (d_of_Z2 n 0 false) with (double_of_int n).
  destruct (double_of_int_small n Hn ltac:(lia)) as (mz & k & _ & _ & Hd & ->).
  unfold range_error. rewrite Hd. reflexivity.
Qed.

Lemma is_number_literal_digits (ds : text) :
  ds <> [] -> forallb isdigit ds = true -> is_number_literal ds = true.
Proof.
  intros Hne Hds. unfold is_number_literal.
  pose proof (take_while_digits ds [] Hds I) as T.
  pose proof (drop_while_digits ds [] Hds I) as D.
  rewrite app_nil_r in T, D. rewrite T, D.
  apply is_empty_false in Hne. now rewrite Hne.
Qed.

Lemma digits_trimmed (ds : text) :
  ds <> [] -> forallb isdigit ds = true ->
  trimmed ds /\ no_nl ds = true /\ is_quoted ds = false.
Proof.
  intros Hne Hds.
  assert (no_ws ds = true) as Hw.
  { unfold no_ws. rewrite forallb_forall in *. intros c Hc.
    now rewrite (digit_not_space c (Hds c Hc)). }
  split; [now apply no_ws_trimmed|]. split; [now apply no_ws_no_nl|].
  unfold is_quoted. destruct ds as [|c ds]; [congruence|].
  cbn [hd]. cbn in Hds. apply andb_true_iff in Hds as [Hc _].
  destruct (Ascii.eqb c dquote) eqn:E; [|now rewrite andb_false_r].
  apply Ascii.eqb_eq in E. subst c. discriminate.
Qed.

End Integral.

Section Integers.
Variable M : platform.

(** X21: integers are read and written exactly.  A literal of digits
    that denotes an integer [n] below [2^53] evaluates to the double of
    [n]; the double of an integer of magnitude below [2^53] is written
    as the decimal digits of that integer; hence [print n] writes [n]
    back (unless the table holds a variable named by these digits). *)
Theorem integers_are_printed_as_written (n : Z) (st : state) (prefix w : text) :
  (0 <= n < 2 ^ 53)%Z ->
  is_ws w = true -> no_nl w = true -> w <> [] ->
  evalExpr M (variables st) (decimal n) prefix = Ok (double_of_int n)
  /\ printNumberNicely (double_of_int n) st = Done (emit (decimal n) st)
  /\ printNumberNicely (double_of_int (- n)) st = Done (emit (decimal (- n)) st)
  /\ (variables st !! decimal n = None ->
      runLine M ("print" ++ w ++ decimal n) st = Done (emit (decimal n) st)).
Proof.
  intros Hn Hw Hwn Nw.
  destruct (decimal_digits n ltac:(lia)) as [Hne Hds].
  assert (forall p, evalExpr M (variables st) (decimal n) p = Ok (double_of_int n)) as Ev.
  { intros p.
    pose proof (evalExpr_tree M (variables st) p (CNum (decimal n)) [] []
                  (is_number_literal_digits _ Hne Hds) eq_refl eq_refl) as T.
    cbn [value text_of app] in T. rewrite app_nil_r in T.
    now rewrite (stod_decimal n Hn) in T. }
  assert (printNumberNicely (double_of_int n) st = Done (emit (decimal n) st)) as Pr
    by (apply printNumberNicely_integer; lia).
  split; [apply Ev|]. split; [exact Pr|].
  split; [apply printNumberNicely_integer; lia|].
  intros Hv. destruct (digits_trimmed _ Hne Hds) as (Ht & Hnl & Hq).
  rewrite (runLine_print M w (decimal n) st Hw Hwn Ht Hnl (fun _ => Nw)).
  rewrite Hq, Hv. apply is_empty_false in Hne. now rewrite Hne, Ev.
Qed.

End Integers.

Lemma integers_are_printed_as_written_witness :
  runLine value_first_build ("print" ++ " " ++ decimal 9007199254740991) initial
  = Done (emit (decimal 9007199254740991) initial).
Proof.
  refine (proj2 (proj2 (proj2 (integers_are_printed_as_written value_first_build
            9007199254740991 initial "Print expr error: " " " _ eq_refl eq_refl _))) _).
  - split; [discriminate | reflexivity].
  - discriminate.
  - reflexivity.
Defined.

(** ** Calls *)

Section Calls.
Variable M : platform.
Variable prefix : text.

(** X22: a call is accepted exactly when its name is one of the nine
    functions of one argument and it is given one argument, or one of
    the three functions of two arguments and it is given two; every
    other call throws. *)
Theorem callFunction_accepts_known_name_and_arity
    (name : text) (args : list double) (s : text) :
  (exists v, callFunction M prefix name args s = Ok v)
  <-> (In name functions_of_one_argument /\ length args = 1)
      \/ (In name functions_of_two_arguments /\ length args = 2).
Proof.
  unfold callFunction, functions_of_one_argument, functions_of_two_arguments.
  repeat lazymatch goal with
  | |- (exists v, (if text_eqb name ?f then _ else _) = _) <-> _ =>
      let E := fresh "E" in
      destruct (text_eqb name f) eqn:E;
      [ apply text_eqb_eq in E; subst name;
        destruct args as [|a [|b [|c args]]]; cbn [length In];
        (split;
         [ intros [v H]; unfold fail in H;
           first [ discriminate H
                 | left; split; [tauto | reflexivity]
                 | right; split; [tauto | reflexivity] ]
         | intros [[H L] | [H L]];
           first [ discriminate L
                 | eexists; reflexivity
                 | exfalso; repeat (destruct H as [H | H]; [discriminate H|]); exact H ] ])
      | apply text_eqb_neq in E ]
  end.
  cbn [In]. split.
  - intros [v H]. unfold fail in H. discriminate H.
  - intros [[H _] | [H _]]; exfalso;
      repeat (destruct H as [H | H]; [congruence|]); exact H.
Qed.

End Calls.

(** ** Termination *)

Section Termination.
Variable M : platform.

(** X23: every evaluation and every run terminates.  The recursion of
    the parser and of the executor is bounded by the length of the text:
    with a budget above that length neither is ever cut short, and a
    larger budget changes nothing. *)
Theorem evaluation_and_execution_terminate
    (vars : gmap text double) (e prefix code : text) (st : state) (n : nat) :
  evalExpr M vars e prefix <> Stuck
  /\ execute M code st <> OutOfFuel
  /\ (length code < n -> exec_loop M n code st = execute M code st).
Proof.
  split; [apply evalExpr_not_stuck|]. split; [apply execute_not_out_of_fuel|].
  intros H. unfold execute. apply exec_loop_budget; lia.
Qed.

(** X24: what stands after the opening parenthesis of a [loop] header
    is not read: a header with any text after the token [(] is the
    header without it.  (The header of an [if] must end with the
    parenthesis.) *)
Theorem loop_header_ignores_text_after_paren
    (w1 var ce w2 w3 junk stream : text) (st : state) :
  is_ws w1 = true -> no_nl w1 = true -> w1 <> [] ->
  no_ws var = true -> find_char ":" var = None -> no_ws ce = true ->
  is_ws w2 = true -> no_nl w2 = true -> w2 <> [] ->
  is_ws w3 = true -> no_nl w3 = true -> w3 <> [] ->
  trimmed junk -> junk <> [] -> no_nl junk = true ->
  execute M (("loop" ++ w1 ++ var ++ ":" ++ ce ++ w2 ++ "(" ++ w3 ++ junk)
             ++ nl :: stream) st
  = execute M (("loop" ++ w1 ++ var ++ ":" ++ ce ++ w2 ++ "(") ++ nl :: stream) st.
Proof.
  intros H1 Hn1 N1 Hv Hcv Hce H2 Hn2 N2 H3 Hn3 N3 Hj Nj Hnj.
  destruct (readBlock stream) as [block stream'] eqn:Hr.
  pose proof (execute_loop M [] w1 var ce w2 [] stream block stream' st
                eq_refl eq_refl H1 Hn1 N1 Hv Hcv Hce H2 Hn2 N2 eq_refl eq_refl Hr) as R.
  etrans; [|symmetry; exact R]. clear R.
  assert (trimmed ("(" ++ w3 ++ junk)) as Hm.
  { replace ("(" ++ w3 ++ junk) with (("(" ++ w3) ++ junk) by (now rewrite <- app_assoc).
    apply trimmed_app; [discriminate | exact Nj | reflexivity | apply Hj]. }
  destruct (loop_header_tokens [] w1 var ce w2 ("(" ++ w3 ++ junk) [] eq_refl H1 N1 Hv
              Hce H2 N2 Hm ltac:(discriminate) eq_refl) as (T1 & T2 & T3).
  rewrite app_nil_r in T1, T2, T3.
  assert (first_token ("(" ++ w3 ++ junk) = "(") as Ef.
  { rewrite (first_token_trimmed _ Hm).
    pose proof (extract_token [] "(" (w3 ++ junk) eq_refl eq_refl ltac:(discriminate)
                  (breaks_ws _ _ H3 N3)) as E.
    cbn [app] in E. cbn [app]. now rewrite E. }
  rewrite Ef in T3.
  rewrite execute_line.
  - rewrite (exec_line_loop M (execute M) (execute M)
               ("loop" ++ w1 ++ var ++ ":" ++ ce ++ w2 ++ "(" ++ w3 ++ junk)
               stream block stream' st (length var) T1).
    + change (second_token ("loop" ++ w1 ++ var ++ ":" ++ ce ++ w2 ++ "(" ++ w3 ++ junk))
        with (second_token ([] ++ "loop" ++ w1 ++ var ++ ":" ++ ce ++ w2
                              ++ "(" ++ w3 ++ junk)).
      rewrite T2. change (var ++ ":" ++ ce) with (var ++ ":"%char :: ce).
      now rewrite firstn_length_app, skipn_succ_app.
    + change (second_token ("loop" ++ w1 ++ var ++ ":" ++ ce ++ w2 ++ "(" ++ w3 ++ junk))
        with (second_token ([] ++ "loop" ++ w1 ++ var ++ ":" ++ ce ++ w2
                              ++ "(" ++ w3 ++ junk)).
      rewrite T2. now apply find_char_app.
    + exact T3.
    + exact Hr.
  - rewrite !no_nl_app, Hn1, Hn2, Hn3, Hnj.
    now rewrite (no_ws_no_nl _ Hv), (no_ws_no_nl _ Hce).
Qed.

End Termination.

Lemma callFunction_accepts_known_name_and_arity_witness :
  exists v, callFunction value_first_build "Expr error: " "floor" [d_one] [] = Ok v.
Proof.
  apply (proj2 (callFunction_accepts_known_name_and_arity value_first_build "Expr error: "
                  "floor" [d_one] [])).
  left. split; [cbn; tauto | reflexivity].
Defined.

Lemma evaluation_and_execution_terminate_witness :
  exec_loop value_first_build 100 (script ["loop i:3 ("; "print i"; ")"]) initial
  = execute value_first_build (script ["loop i:3 ("; "print i"; ")"]) initial.
Proof.
  refine (proj2 (proj2 (evaluation_and_execution_terminate value_first_build ∅ "" ""
            (script ["loop i:3 ("; "print i"; ")"]) initial 100)) _).
  vm_compute. lia.
Defined.

Lemma loop_header_ignores_text_after_paren_witness :
  execute value_first_build
    (("loop" ++ " " ++ "i" ++ ":" ++ "2" ++ " " ++ "(" ++ " " ++ "twice")
       ++ nl :: script ["print i"; ")"]) initial
  = execute value_first_build
      (("loop" ++ " " ++ "i" ++ ":" ++ "2" ++ " " ++ "(") ++ nl :: script ["print i"; ")"])
      initial.
Proof.
  refine (loop_header_ignores_text_after_paren value_first_build " " "i" "2" " " " " "twice"
            (script ["print i"; ")"]) initial
            eq_refl eq_refl _ eq_refl eq_refl eq_refl eq_refl eq_refl _
            eq_refl eq_refl _ (conj eq_refl eq_refl) _ eq_refl); discriminate.
Defined.

(** ** A counting loop *)

Section Counting.
Variable M : platform.

Lemma evalExpr_decimal (vars : gmap text double) (prefix : text) (n : Z) :
  (0 <= n < 2 ^ 53)%Z -> evalExpr M vars (decimal n) prefix = Ok (double_of_int n).
Proof.
  intros Hn. destruct (decimal_digits n ltac:(lia)) as [Hne Hds].
  pose proof (evalExpr_tree M vars prefix (CNum (decimal n)) [] []
                (is_number_literal_digits _ Hne Hds) eq_refl eq_refl) as T.
  cbn [value text_of app] in T. rewrite app_nil_r in T.
  now rewrite (stod_decimal n Hn) in T.
Qed.

Lemma cast_int_integer (n : Z) :
  (0 <= n < 2 ^ 31)%Z -> cast_int (dfloor (double_of_int n)) = Some n.
Proof.
  intros Hn.
  assert (Z.abs n < 2 ^ 53)%Z as Ha
    by (change (2 ^ 53)%Z with (2 ^ 31 * 4194304)%Z; lia).
  rewrite (proj2 (dround_integer n Ha)). unfold cast_int, cast_signed.
  rewrite (dtrunc_integer n Ha).
  replace ((- 2 ^ (32 - 1) <=? n)%Z && (n <? 2 ^ (32 - 1))%Z) with true; [reflexivity|].
  symmetry. apply andb_true_iff. split; [apply Z.leb_le | apply Z.ltb_lt];
    change (2 ^ (32 - 1))%Z with (2 ^ 31)%Z; lia.
Qed.

Lemma print_variable (var w : text) (st : state) (n : Z) :
  no_ws var = true -> var <> [] -> is_quoted var = false ->
  is_ws w = true -> no_nl w = true -> w <> [] ->
  (Z.abs n < 2 ^ 53)%Z ->
  variables st !! var = Some (double_of_int n) ->
  execute M (script ["print" ++ w ++ var]) st = Done (emit (decimal n) st).
Proof.
  intros Hv Nv Hq Hw Hwn Nw Hn Hl.
  assert (no_nl ("print" ++ w ++ var) = true) as Hnl
    by (now rewrite !no_nl_app, Hwn, (no_ws_no_nl _ Hv)).
  assert (first_token ("print" ++ w ++ var) = "print") as Hf.
  { assert (trimmed ("print" ++ w ++ var)) as Ht.
    { replace ("print" ++ w ++ var) with (("print" ++ w) ++ var)
        by (now rewrite <- app_assoc).
      apply trimmed_app; [discriminate | exact Nv | reflexivity |].
      apply (no_ws_trimmed _ Hv). }
    rewrite (first_token_trimmed _ Ht).
    pose proof (extract_token [] "print" (w ++ var) eq_refl eq_refl ltac:(discriminate)
                  (breaks_ws _ _ Hw Nw)) as E.
    cbn [app] in E. cbn [app]. now rewrite E. }
  pose proof (execute_simple_lines M ["print" ++ w ++ var] []) as E.
  rewrite app_nil_r in E. rewrite E.
  - cbn [fold_left and_then].
    rewrite (runLine_print M w var st Hw Hwn (no_ws_trimmed _ Hv) (no_ws_no_nl _ Hv)
               (fun _ => Nw)).
    rewrite Hq. apply is_empty_false in Nv. rewrite Nv, Hl.
    rewrite (printNumberNicely_integer n _ Hn). reflexivity.
  - constructor; [|constructor]. split; [exact Hnl|].
    rewrite Hf. split; discriminate.
Qed.

Lemma for_loop_print (var w : text) :
  no_ws var = true -> var <> [] -> is_quoted var = false ->
  is_ws w = true -> no_nl w = true -> w <> [] ->
  forall k i st,
    (Z.of_nat (i + k) < 2 ^ 53)%Z ->
    exists st',
      for_loop (execute M (script ["print" ++ w ++ var])) var k (Z.of_nat i) st = Done st'
      /\ output st' = output st ++ List.map (fun j => decimal (Z.of_nat j)) (seq i k)
      /\ (forall x, x <> var -> variables st' !! x = variables st !! x)
      /\ (k <> 0 -> variables st' !! var = Some (double_of_int (Z.of_nat (i + k - 1)))).
Proof.
  intros Hv Nv Hq Hw Hwn Nw. induction k as [|k IH]; intros i st Hb.
  - exists st. cbn [for_loop seq List.map]. rewrite app_nil_r.
    split; [reflexivity|]. split; [reflexivity|]. split; [auto | congruence].
  - rewrite for_loop_succ.
    rewrite (print_variable var w _ (Z.of_nat i) Hv Nv Hq Hw Hwn Nw); [|lia|].
    2:{ cbn [set_var variables]. apply lookup_insert_eq. }
    cbn [and_then].
    replace (Z.of_nat i + 1)%Z with (Z.of_nat (S i)) by lia.
    destruct (IH (S i) (emit (decimal (Z.of_nat i)) (set_var var (double_of_int (Z.of_nat i)) st)))
      as (st' & E & Ho & Hx & Hl); [lia|].
    exists st'. split; [exact E|]. split.
    { rewrite Ho. cbn [emit output set_var seq List.map].
      rewrite <- app_assoc. reflexivity. } split.
    { intros x Hne. rewrite (Hx x Hne). cbn [emit set_var variables].
      apply lookup_insert_ne. congruence. }
    intros _. destruct k as [|k].
    + cbn [for_loop] in E. injection E as <-. cbn [emit set_var variables].
      rewrite lookup_insert_eq. do 3 f_equal. lia.
    + rewrite Hl by discriminate. do 3 f_equal. lia.
Qed.

(** X25: a counting loop.  The script [loop var:N (], [print var], [)]
    with a literal count [N] below [2^31] writes the numbers [0], [1],
    ..., [N - 1], one on a line, changes no other variable, and (for
    [N >= 1]) leaves [N - 1] in [var]. *)
Theorem counting_loop_writes_indices (var : text) (N : nat) (st : state) :
  no_ws var = true -> var <> [] -> is_quoted var = false ->
  find_char ":" var = None ->
  (Z.of_nat N < 2 ^ 31)%Z ->
  exists st',
    execute M (script ["loop " ++ var ++ ":" ++ decimal (Z.of_nat N) ++ " (";
                       "print " ++ var; ")"]) st = Done st'
    /\ output st' = output st ++ List.map (fun j => decimal (Z.of_nat j)) (seq 0 N)
    /\ (forall x, x <> var -> variables st' !! x = variables st !! x)
    /\ (N <> 0 -> variables st' !! var = Some (double_of_int (Z.of_nat (N - 1)))).
Proof.
  intros Hv Nv Hq Hc HN.
  destruct (decimal_digits (Z.of_nat N) ltac:(lia)) as [Hne Hds].
  assert (no_ws (decimal (Z.of_nat N)) = true) as Hcw.
  { unfold no_ws. rewrite forallb_forall in *. intros c Hin.
    now rewrite (digit_not_space c (Hds c Hin)). }
  assert (Z.of_nat N < 2 ^ 53)%Z as HN'
    by (change (2 ^ 53)%Z with (2 ^ 31 * 4194304)%Z; lia).
  pose proof (execute_loop M [] " " var (decimal (Z.of_nat N)) " " []
                (script ["print " ++ var; ")"]) (script ["print " ++ var]) [] st
                eq_refl eq_refl eq_refl eq_refl ltac:(discriminate) Hv Hc Hcw
                eq_refl eq_refl ltac:(discriminate) eq_refl eq_refl) as E.
  assert (readBlock (script ["print " ++ var; ")"]) = (script ["print " ++ var], [])) as Hr.
  { assert (script ["print " ++ var; ")"] = script ["print " ++ var] ++ ")" ++ nl :: [])
      as ->.
    { unfold script. cbn [List.map concat]. rewrite !app_nil_r, <- app_assoc.
      reflexivity. }
    apply readBlock_script; [|reflexivity|reflexivity].
    constructor; [|constructor]. split.
    - rewrite no_nl_app. cbn. apply (no_ws_no_nl _ Hv).
    - intros T. apply (f_equal (@length ascii)) in T.
      assert (trimmed ("print " ++ var)) as Ht.
      { apply (trimmed_app "print " var); [discriminate | exact Nv | reflexivity |].
        apply (no_ws_trimmed _ Hv). }
      rewrite (trim_trimmed _ Ht) in T. cbn in T. lia. }
  specialize (E Hr).
  rewrite (evalExpr_decimal _ _ (Z.of_nat N) ltac:(lia)),
    (cast_int_integer (Z.of_nat N) ltac:(lia)) in E.
  assert (execute M
            (script ["loop " ++ var ++ ":" ++ decimal (Z.of_nat N) ++ " (";
                     "print " ++ var; ")"]) st
          = and_then (for_loop (execute M (script ["print " ++ var])) var
                        (Z.to_nat (Z.of_nat N)) 0%Z st) (execute M [])) as ->.
  { rewrite (script_cons ("loop " ++ var ++ ":" ++ decimal (Z.of_nat N) ++ " (")).
    exact E. }
  rewrite Nat2Z.id.
  destruct (for_loop_print var " " Hv Nv Hq eq_refl eq_refl ltac:(discriminate) N 0 st
              ltac:(cbn [Nat.add]; lia)) as (st' & F & Ho & Hx & Hl).
  exists st'. split.
  { assert (for_loop (execute M (script ["print " ++ var])) var N 0%Z st = Done st')
      as F' by exact F.
    rewrite F'. reflexivity. }
  split; [exact Ho|]. split; [exact Hx|].
  intros H0. rewrite (Hl H0). reflexivity.
Qed.

End Counting.

Lemma counting_loop_writes_indices_witness :
  exists st',
    execute value_first_build (script ["loop " ++ "k" ++ ":" ++ decimal (Z.of_nat 3) ++ " (";
                              "print " ++ "k"; ")"]) initial = Done st'
    /\ output st' = output initial ++ List.map (fun j => decimal (Z.of_nat j)) (seq 0 3)
    /\ (forall x, x <> "k" -> variables st' !! x = variables initial !! x)
    /\ (3 <> 0 -> variables st' !! "k" = Some (double_of_int (Z.of_nat (3 - 1)))).
Proof.
  refine (counting_loop_writes_indices value_first_build "k" 3 initial eq_refl _ eq_refl eq_refl _).
  - discriminate.
  - reflexivity.
Defined.

(** ** Blank lines and comments *)

Lemma same_statements_script (la lb : list text) :
  same_statement_lines la lb -> same_statements (script la) (script lb).
Proof.
  induction 1 as [|x y la lb (Ht & Hx & Hy) _ IH|x la lb Hx Hs _ IH|y la lb Hy Hs _ IH];
    rewrite ?script_cons.
  - constructor.
  - eapply same_statements_line;
      [now apply getline_line | now apply getline_line | exact Ht | exact IH].
  - eapply same_statements_left; [now apply getline_line | exact Hs | exact IH].
  - eapply same_statements_right; [now apply getline_line | exact Hs | exact IH].
Qed.

Lemma same_statement_lines_app (a b c d : list text) :
  same_statement_lines a b -> same_statement_lines c d ->
  same_statement_lines (a ++ c) (b ++ d).
Proof.
  intros H Hcd. induction H; cbn [app]; [exact Hcd | | |]; now constructor.
Qed.

Lemma skipped_not_closing (l : text) : skipped l = true -> text_eqb (trim l) ")" = false.
Proof.
  unfold skipped. intros H. apply text_eqb_neq. intros E. rewrite E in H. discriminate.
Qed.

Lemma readBlock_loop_same_statements (a b : text) :
  same_statements a b ->
  forall ka kb la lb,
    length a <= ka -> length b <= kb -> same_statement_lines la lb ->
    exists la' lb',
      same_statement_lines la' lb'
      /\ fst (readBlock_loop ka (script la) a) = script la'
      /\ fst (readBlock_loop kb (script lb) b) = script lb'
      /\ same_statements (snd (readBlock_loop ka (script la) a))
                         (snd (readBlock_loop kb (script lb) b)).
Proof.
  induction 1 as [|a b xa xb ra rb Ga Gb Ht Hs IH|a b xa ra Ga Hk Hs IH
                  |a b xb rb Gb Hk Hs IH]; intros ka kb la lb Ha Hb HF.
  - exists la, lb. rewrite !readBlock_loop_nil. cbn [fst snd].
    split; [exact HF|]. split; [reflexivity|]. split; [reflexivity | constructor].
  - pose proof (getline_length _ _ _ Ga) as La.
    pose proof (getline_length _ _ _ Gb) as Lb.
    pose proof (getline_no_nl _ _ _ Ga) as Na.
    pose proof (getline_no_nl _ _ _ Gb) as Nb.
    destruct ka as [|ka]; [lia|]. destruct kb as [|kb]; [lia|].
    cbn [readBlock_loop]. rewrite Ga, Gb, <- Ht.
    destruct (text_eqb (trim xa) ")").
    + exists la, lb. cbn [fst snd]. now repeat split.
    + rewrite <- !script_snoc. apply IH; [lia | lia |].
      apply same_statement_lines_app; [exact HF|].
      constructor; [now repeat split | constructor].
  - pose proof (getline_length _ _ _ Ga) as La.
    pose proof (getline_no_nl _ _ _ Ga) as Na.
    destruct ka as [|ka]; [lia|].
    cbn [readBlock_loop]. rewrite Ga, (skipped_not_closing _ Hk).
    rewrite <- script_snoc.
    apply IH; [lia | lia |].
    rewrite <- (app_nil_r lb).
    apply same_statement_lines_app; [exact HF|].
    apply same_statement_lines_left; [exact Na | exact Hk | constructor].
  - pose proof (getline_length _ _ _ Gb) as Lb.
    pose proof (getline_no_nl _ _ _ Gb) as Nb.
    destruct kb as [|kb]; [lia|].
    cbn [readBlock_loop]. rewrite Gb, (skipped_not_closing _ Hk).
    rewrite <- script_snoc.
    apply IH; [lia | lia |].
    rewrite <- (app_nil_r la).
    apply same_statement_lines_app; [exact HF|].
    apply same_statement_lines_right; [exact Nb | exact Hk | constructor].
Qed.

Lemma readBlock_same_statements (a b : text) :
  same_statements a b ->
  same_statements (fst (readBlock a)) (fst (readBlock b))
  /\ same_statements (snd (readBlock a)) (snd (readBlock b)).
Proof.
  intros H. unfold readBlock.
  destruct (readBlock_loop_same_statements a b H (length a) (length b) [] []
              (le_n _) (le_n _) same_statement_lines_end)
    as (la & lb & HF & Ea & Eb & Hr).
  change (script []) with (@nil ascii) in *. rewrite Ea, Eb.
  split; [now apply same_statements_script | exact Hr].
Qed.

Section Comments.
Variable M : platform.

Lemma exec_line_skipped (e c : text -> state -> outcome) (line stream : text)
    (st : state) :
  skipped line = true -> exec_line M e c line stream st = c stream st.
Proof.
  unfold skipped, exec_line. intros H.
  destruct (is_empty (trim line)); [reflexivity|]. cbn [orb] in H. now rewrite H.
Qed.

Lemma exec_loop_same_statements : forall n a b,
  same_statements a b -> length a < n -> length b < n ->
  forall st, exec_loop M n a st = exec_loop M n b st.
Proof.
  induction n as [|n IHn]; intros a b Hs; [lia|].
  induction Hs as [|a b la lb ra rb Ga Gb Ht Hs _|a b la ra Ga Hk Hs IH
                   |a b lb rb Gb Hk Hs IH]; intros Ha Hb st.
  - reflexivity.
  - cbn [exec_loop]. rewrite Ga, Gb.
    destruct (getline_room _ _ _ n Ga Ha) as [Ra La].
    destruct (getline_room _ _ _ n Gb Hb) as [Rb Lb].
    rewrite (exec_line_trim M _ _ la lb ra st Ht).
    apply exec_line_related.
    + intros Hne. destruct (readBlock_same_statements ra rb Hs) as [S1 S2].
      assert (lb <> []) as Nb by (now apply trim_nonempty).
      assert (la <> []) as Na by (apply trim_nonempty; now rewrite Ht).
      destruct (readBlock ra) as [ba ra'] eqn:Ea.
      destruct (readBlock rb) as [bb rb'] eqn:Eb.
      pose proof (block_room la ra ba ra' Na Ea) as B1.
      pose proof (block_room lb rb bb rb' Nb Eb) as B2.
      pose proof (readBlock_length _ _ _ Ea) as (L1 & _ & _).
      pose proof (readBlock_length _ _ _ Eb) as (L2 & _ & _).
      cbn [fst snd] in *. split; intros st'; apply IHn; try assumption; lia.
    + intros st'. now apply IHn.
  - pose proof (getline_length _ _ _ Ga) as La.
    rewrite <- (IH ltac:(lia) Hb st).
    transitivity (exec_loop M n ra st).
    + cbn [exec_loop]. now rewrite Ga, (exec_line_skipped _ _ _ _ _ Hk).
    + apply exec_loop_budget; lia.
  - pose proof (getline_length _ _ _ Gb) as Lb.
    rewrite (IH Ha ltac:(lia) st).
    transitivity (exec_loop M n rb st).
    + apply exec_loop_budget; lia.
    + cbn [exec_loop]. now rewrite Gb, (exec_line_skipped _ _ _ _ _ Hk).
Qed.

(** X26: blank lines and comments may stand anywhere.  Two scripts that
    hold the same statements, up to the layout of their lines and up to
    blank lines and comment lines that either of them holds (between
    statements, within blocks, or before a closing line), are executed
    alike, from every state. *)
Theorem execute_ignores_blank_lines_and_comments (a b : text) (st : state) :
  same_statements a b -> execute M a st = execute M b st.
Proof.
  intros H. unfold execute.
  rewrite (exec_loop_budget M _ (S (Nat.max (length a) (length b))) a st) by lia.
  rewrite (exec_loop_budget M (S (length b)) (S (Nat.max (length a) (length b))) b st)
    by lia.
  apply exec_loop_same_statements; [exact H | lia | lia].
Qed.

End Comments.

Lemma execute_ignores_blank_lines_and_comments_witness :
  execute value_first_build
    (script ["comment count to two"; "loop i:2 ("; ""; "  print i";
             "  comment done"; ")"]) initial
  = execute value_first_build (script ["loop i:2 ("; "print i"; ")"]) initial.
Proof.
  apply execute_ignores_blank_lines_and_comments.
  apply same_statements_script.
  apply same_statement_lines_left; [reflexivity | reflexivity |].
  apply same_statement_lines_line; [repeat split|].
  apply same_statement_lines_left; [reflexivity | reflexivity |].
  apply same_statement_lines_line; [repeat split|].
  apply same_statement_lines_left; [reflexivity | reflexivity |].
  apply same_statement_lines_line; [repeat split|].
  constructor.
Defined.
